(** * Tournament utilities: round-robin fixtures and standings

    A shallow embedding of [src/utils/tournamentUtils.ts]
    ([generateRoundRobinMatches], [calculateStandings]), of the data model
    of [src/types.ts] and of [handleUpdateMatch] of [src/App.tsx], then of
    the state of [App], its derived values and its handlers, and of the
    score editing of the match card, then of the two functions of
    [src/utils/tournamentUtils.ts] once more as programs on a heap of
    objects, followed by the vocabulary in which the specification is
    stated and by the proofs.

    Conventions of the embedding:
    - a JavaScript [number] holding a score or a counter is a [Z]
      (the data model stores integer scores); [number | null] is [option Z];
    - a loop index is a [nat];
    - a TypeScript interface is a record inside a module of the same name,
      so that [Team.id], [Match.id] and [Category.id] keep their names;
    - a JavaScript [Map] is an association list in insertion order with
      one entry per key; the object stored under a key is mutated in place
      through [Map_mutate];
    - [Date.now()] and the comparator [() => Math.random() - 0.5] belong
      to the runtime of a call and are the fields of [Runtime];
    - a React state update is a function on the state record of [App], one
      handler call being one transition;
    - where what a call changes matters, an object is a cell of a heap, a
      reference is an address, and a program is a function from the host
      and the world to a result and a world, or to nothing when it throws. *)

From Stdlib Require Import List ZArith Lia Bool Ascii String Permutation Sorted.
From Stdlib Require Import DecimalString DecimalNat.
Import ListNotations.

Local Open Scope string_scope.
Local Open Scope list_scope.
Local Open Scope Z_scope.

(** ** Data model ([src/types.ts]) *)

Module Team.
Record t := mk { id : string; name : string; playerIds : list string }.
End Team.

Inductive MatchStatus := Pending | Finished.

Module MatchSet.
Record t := mk { team1 : option Z; team2 : option Z }.
End MatchSet.

Module Category.
Record t := mk { id : string; name : string; teamIds : list string }.
End Category.

Module Match.
Record t := mk {
  id : string;
  categoryId : string;
  team1 : Team.t;
  team2 : Team.t;
  sets : list MatchSet.t;
  winner : option Team.t;
  status : MatchStatus;
  date : string }.
End Match.

Module Standings.
Record t := mk {
  team : Team.t;
  played : Z;
  wins : Z;
  losses : Z;
  points : Z;
  pointsFor : Z;
  pointsAgainst : Z;
  pointsDifference : Z }.

(** Field assignments [s.f = v] on a standings object. *)
Definition set_played (v : Z) (s : t) : t :=
  mk (team s) v (wins s) (losses s) (points s) (pointsFor s)
     (pointsAgainst s) (pointsDifference s).
Definition set_wins (v : Z) (s : t) : t :=
  mk (team s) (played s) v (losses s) (points s) (pointsFor s)
     (pointsAgainst s) (pointsDifference s).
Definition set_losses (v : Z) (s : t) : t :=
  mk (team s) (played s) (wins s) v (points s) (pointsFor s)
     (pointsAgainst s) (pointsDifference s).
Definition set_points (v : Z) (s : t) : t :=
  mk (team s) (played s) (wins s) (losses s) v (pointsFor s)
     (pointsAgainst s) (pointsDifference s).
Definition set_pointsFor (v : Z) (s : t) : t :=
  mk (team s) (played s) (wins s) (losses s) (points s) v
     (pointsAgainst s) (pointsDifference s).
Definition set_pointsAgainst (v : Z) (s : t) : t :=
  mk (team s) (played s) (wins s) (losses s) (points s) (pointsFor s)
     v (pointsDifference s).
Definition set_pointsDifference (v : Z) (s : t) : t :=
  mk (team s) (played s) (wins s) (losses s) (points s) (pointsFor s)
     (pointsAgainst s) v.
End Standings.

Definition status_eqb (a b : MatchStatus) : bool :=
  match a, b with
  | Pending, Pending | Finished, Finished => true
  | _, _ => false
  end.

(** ** The runtime of one call of [generateRoundRobinMatches]

    [dateNow k] is what the [k]-th evaluation of [Date.now()] of the call
    returns (milliseconds, an integer).  [randomSort] is
    [Array.prototype.sort] run with the comparator
    [() => Math.random() - 0.5]: the comparator is not consistent, so the
    order of the result is left to the engine and to the random draws, but
    the result holds the elements of the array. *)

Record Runtime := {
  dateNow : nat -> Z;
  randomSort : list Match.t -> list Match.t;
  randomSort_perm : forall l, Permutation (randomSort l) l }.

(** *** A concrete engine: insertion sort driven by the random draws

    [draw k] is the sign of the [k]-th value [Math.random() - 0.5]
    ([true] when it is negative).  The state threaded through the sort is
    the number of draws made so far. *)

Section InsertionEngine.
Context {A : Type}.
Variable draw : nat -> bool.

Fixpoint insertDrawn (x : A) (l : list A) (k : nat) : list A * nat :=
  match l with
  | [] => ([x], k)
  | y :: l' =>
      if draw k then (x :: y :: l', S k)
      else let '(r, k') := insertDrawn x l' (S k) in (y :: r, k')
  end.

Fixpoint sortDrawn (l : list A) (k : nat) : list A * nat :=
  match l with
  | [] => ([], k)
  | x :: l' => let '(r, k') := sortDrawn l' k in insertDrawn x r k'
  end.

End InsertionEngine.

(** ** [generateRoundRobinMatches] ([src/utils/tournamentUtils.ts], lines 3-50) *)

(** Template-literal rendering of a number: decimal digits, with a
    leading minus sign for a negative integer. *)
Definition string_of_nat (n : nat) : string :=
  NilEmpty.string_of_uint (Nat.to_uint n).
Definition string_of_Z (z : Z) : string :=
  NilZero.string_of_int (Z.to_int z).

(** [`match-${Date.now()}-${a}-${b}-${leg}`] *)
Definition matchIdOf (now : Z) (a b : nat) (leg : string) : string :=
  ("match-" ++ string_of_Z now ++ "-" ++ string_of_nat a ++ "-"
            ++ string_of_nat b ++ "-" ++ leg)%string.

Definition emptySets : list MatchSet.t :=
  [ MatchSet.mk None None; MatchSet.mk None None; MatchSet.mk None None ].

Definition newMatch (mid : string) (category : Category.t) (t1 t2 : Team.t)
  : Match.t :=
  {| Match.id := mid;
     Match.categoryId := Category.id category;
     Match.team1 := t1;
     Match.team2 := t2;
     Match.sets := emptySets;
     Match.winner := None;
     Match.status := Pending;
     Match.date := EmptyString |}.

(** The state of the two loops: the array [matches] built so far and the
    number of [Date.now()] evaluations made so far. *)
Definition GenState : Type := (list Match.t * nat)%type.

Section Generate.
Variable rt : Runtime.
Variable category : Category.t.
Variable twoLegged : bool.

(** Body of the inner loop for the indices [i < j]. *)
Definition pushPair (i : nat) (ti : Team.t) (j : nat) (tj : Team.t)
           (st : GenState) : GenState :=
  let '(matches, k) := st in
  let match1 := newMatch (matchIdOf (dateNow rt k) i j "1") category ti tj in
  let matches := matches ++ [match1] in
  if twoLegged then
    let match2 :=
      newMatch (matchIdOf (dateNow rt (S k)) j i "2") category tj ti in
    (matches ++ [match2], S (S k))
  else (matches, S k).

(** [for (let j = ...; j < teams.length; j++)], over the teams from
    index [j] on. *)
Fixpoint innerLoop (i : nat) (ti : Team.t) (j : nat) (rest : list Team.t)
         (st : GenState) : GenState :=
  match rest with
  | [] => st
  | tj :: rest' => innerLoop i ti (S j) rest' (pushPair i ti j tj st)
  end.

(** [for (let i = ...; i < teams.length; i++)], over the teams from
    index [i] on. *)
Fixpoint outerLoop (i : nat) (ts : list Team.t) (st : GenState) : GenState :=
  match ts with
  | [] => st
  | ti :: rest => outerLoop (S i) rest (innerLoop i ti (S i) rest st)
  end.

End Generate.

(** The default value [false] of [twoLegged] is left to the caller. *)
Definition generateRoundRobinMatches (rt : Runtime) (teams : list Team.t)
           (category : Category.t) (twoLegged : bool) : list Match.t :=
  if (List.length teams <? 2)%nat then []
  else randomSort rt
         (fst (outerLoop rt category twoLegged 0%nat teams ([], 0%nat))).

(** ** A JavaScript [Map] with string keys

    Entries are kept in insertion order; [Map_set] on a key that is
    present replaces the value and keeps the position of the entry. *)

Section JsMap.
Context {V : Type}.

Fixpoint Map_get (k : string) (m : list (string * V)) : option V :=
  match m with
  | [] => None
  | (k', v) :: m' => if String.eqb k' k then Some v else Map_get k m'
  end.

Fixpoint Map_set (k : string) (v : V) (m : list (string * V))
  : list (string * V) :=
  match m with
  | [] => [(k, v)]
  | (k', v') :: m' =>
      if String.eqb k' k then (k, v) :: m' else (k', v') :: Map_set k v m'
  end.

(** [new Map(entries)] *)
Definition Map_new (entries : list (string * V)) : list (string * V) :=
  fold_left (fun m e => Map_set (fst e) (snd e) m) entries [].

(** [Array.from(m.values())] *)
Definition Map_values (m : list (string * V)) : list V := map snd m.

(** In-place mutation of the object stored under [k]: the object is
    reached with [m.get(k)] and its fields are assigned.  Each key of
    [standingsMap] holds an object of its own, so a mutation through one key
    is seen through that key only; two references obtained with the same
    key are the same object. *)
Definition Map_mutate (k : string) (f : V -> V) (m : list (string * V))
  : list (string * V) :=
  match Map_get k m with
  | Some v => Map_set k (f v) m
  | None => m
  end.
End JsMap.

(** ** [Array.prototype.sort] with a consistent comparator

    The sort is stable (ECMAScript 2019), so with a consistent comparator
    its result is determined; it is computed here by insertion from the
    right. *)

Section SortBy.
Context {A : Type}.
Variable compareFn : A -> A -> Z.

Fixpoint insertBy (x : A) (l : list A) : list A :=
  match l with
  | [] => [x]
  | y :: l' => if compareFn x y <=? 0 then x :: y :: l' else y :: insertBy x l'
  end.

Fixpoint sortBy (l : list A) : list A :=
  match l with
  | [] => []
  | x :: l' => insertBy x (sortBy l')
  end.
End SortBy.

(** ** [calculateStandings] ([src/utils/tournamentUtils.ts], lines 53-146) *)

Definition initialStandings (team : Team.t) : Standings.t :=
  Standings.mk team 0 0 0 0 0 0 0.

(** The four counters of the loop over the sets of a match. *)
Record Tally := {
  team1SetWins : Z;
  team2SetWins : Z;
  team1TotalPoints : Z;
  team2TotalPoints : Z }.

Definition tallySet (acc : Tally) (set : MatchSet.t) : Tally :=
  match MatchSet.team1 set, MatchSet.team2 set with
  | Some s1, Some s2 =>
      {| team1SetWins :=
           if s1 >? s2 then team1SetWins acc + 1 else team1SetWins acc;
         team2SetWins :=
           if s1 >? s2 then team2SetWins acc
           else if s2 >? s1 then team2SetWins acc + 1 else team2SetWins acc;
         team1TotalPoints := team1TotalPoints acc + s1;
         team2TotalPoints := team2TotalPoints acc + s2 |}
  | _, _ => acc
  end.

Definition tallySets (sets : list MatchSet.t) : Tally :=
  fold_left tallySet sets (Build_Tally 0 0 0 0).

Definition StandingsMap : Type := list (string * Standings.t).

Definition winnerIdOf (w : Team.t) : string := Team.id w.

Definition loserIdOf (match_ : Match.t) (winnerId : string) : string :=
  if String.eqb winnerId (Team.id (Match.team1 match_))
  then Team.id (Match.team2 match_)
  else Team.id (Match.team1 match_).

(** The statements of the [forEach] callback after its two guards, on
    the objects [winnerStandings = standingsMap.get(winnerId)] and
    [loserStandings = standingsMap.get(loserId)]. *)
Definition chargeMatch (match_ : Match.t) (winnerId loserId : string)
           (standingsMap : StandingsMap) : StandingsMap :=
  let tl := tallySets (Match.sets match_) in
  let isTeam1Winner := String.eqb (Team.id (Match.team1 match_)) winnerId in
  let onWinner := Map_mutate winnerId in
  let onLoser := Map_mutate loserId in
  let sm := standingsMap in
  let sm := onWinner (fun s => Standings.set_played (Standings.played s + 1) s) sm in
  let sm := onWinner (fun s => Standings.set_wins (Standings.wins s + 1) s) sm in
  let sm := onLoser (fun s => Standings.set_played (Standings.played s + 1) s) sm in
  let sm := onLoser (fun s => Standings.set_losses (Standings.losses s + 1) s) sm in
  let winnerSets := Z.max (team1SetWins tl) (team2SetWins tl) in
  let loserSets := Z.min (team1SetWins tl) (team2SetWins tl) in
  let sm :=
    if (winnerSets =? 2) && (loserSets =? 0) then
      onWinner (fun s => Standings.set_points (Standings.points s + 3) s) sm
    else if (winnerSets =? 2) && (loserSets =? 1) then
      onLoser (fun s => Standings.set_points (Standings.points s + 1) s)
        (onWinner (fun s => Standings.set_points (Standings.points s + 2) s) sm)
    else sm in
  let sm :=
    if isTeam1Winner then
      let sm := onWinner (fun s => Standings.set_pointsFor
                  (Standings.pointsFor s + team1TotalPoints tl) s) sm in
      let sm := onWinner (fun s => Standings.set_pointsAgainst
                  (Standings.pointsAgainst s + team2TotalPoints tl) s) sm in
      let sm := onLoser (fun s => Standings.set_pointsFor
                  (Standings.pointsFor s + team2TotalPoints tl) s) sm in
      onLoser (fun s => Standings.set_pointsAgainst
                  (Standings.pointsAgainst s + team1TotalPoints tl) s) sm
    else
      let sm := onWinner (fun s => Standings.set_pointsFor
                  (Standings.pointsFor s + team2TotalPoints tl) s) sm in
      let sm := onWinner (fun s => Standings.set_pointsAgainst
                  (Standings.pointsAgainst s + team1TotalPoints tl) s) sm in
      let sm := onLoser (fun s => Standings.set_pointsFor
                  (Standings.pointsFor s + team1TotalPoints tl) s) sm in
      onLoser (fun s => Standings.set_pointsAgainst
                  (Standings.pointsAgainst s + team2TotalPoints tl) s) sm in
  let sm := onWinner (fun s => Standings.set_pointsDifference
              (Standings.pointsFor s - Standings.pointsAgainst s) s) sm in
  let sm := onLoser (fun s => Standings.set_pointsDifference
              (Standings.pointsFor s - Standings.pointsAgainst s) s) sm in
  (* standingsMap.set(winnerId, winnerStandings);
     standingsMap.set(loserId, loserStandings) *)
  let sm := onWinner (fun s => s) sm in
  onLoser (fun s => s) sm.

(** The callback of [relevantMatches.forEach]. *)
Definition countMatch (standingsMap : StandingsMap) (match_ : Match.t)
  : StandingsMap :=
  match Match.status match_, Match.winner match_ with
  | Finished, Some w =>
      let winnerId := winnerIdOf w in
      let loserId := loserIdOf match_ winnerId in
      match Map_get winnerId standingsMap, Map_get loserId standingsMap with
      | Some _, Some _ => chargeMatch match_ winnerId loserId standingsMap
      | _, _ => standingsMap
      end
  | _, _ => standingsMap
  end.

(** [teams.some(t => t.id === id)] *)
Definition hasTeam (teams : list Team.t) (id : string) : bool :=
  existsb (fun t => String.eqb (Team.id t) id) teams.

Definition isRelevant (teams : list Team.t) (match_ : Match.t) : bool :=
  hasTeam teams (Team.id (Match.team1 match_))
  && hasTeam teams (Team.id (Match.team2 match_)).

Definition compareStandings (a b : Standings.t) : Z :=
  if negb (Standings.points b =? Standings.points a)
  then Standings.points b - Standings.points a
  else if negb (Standings.wins b =? Standings.wins a)
  then Standings.wins b - Standings.wins a
  else if negb (Standings.pointsDifference b =? Standings.pointsDifference a)
  then Standings.pointsDifference b - Standings.pointsDifference a
  else Standings.pointsFor b - Standings.pointsFor a.

(** The map after the loop over the relevant matches, before
    [Array.from] and the sort. *)
Definition standingsMapOf (teams : list Team.t) (matches : list Match.t)
  : StandingsMap :=
  let standingsMap :=
    Map_new (map (fun team => (Team.id team, initialStandings team)) teams) in
  let relevantMatches := filter (isRelevant teams) matches in
  fold_left countMatch relevantMatches standingsMap.

Definition calculateStandings (teams : list Team.t) (matches : list Match.t)
  : list Standings.t :=
  sortBy compareStandings (Map_values (standingsMapOf teams matches)).

(** ** [handleUpdateMatch] ([src/App.tsx], lines 163-204) *)

(** [Partial<Pick<Match, 'sets' | 'date'>>]: a key that is absent is [None]. *)
Record MatchData := {
  newSets : option (list MatchSet.t);
  newDate : option string }.

(** The two counters of the loop that determines the winner. *)
Definition countSetWins (acc : Z * Z) (set : MatchSet.t) : Z * Z :=
  match MatchSet.team1 set, MatchSet.team2 set with
  | Some s1, Some s2 =>
      let '(w1, w2) := acc in
      let w1 := if s1 >? s2 then w1 + 1 else w1 in
      let w2 := if s2 >? s1 then w2 + 1 else w2 in
      (w1, w2)
  | _, _ => acc
  end.

Definition setWins (sets : list MatchSet.t) : Z * Z :=
  fold_left countSetWins sets (0, 0).

(** The callback of [prevMatches.map] for a match whose id is the given one. *)
Definition updateMatch (newMatchData : MatchData) (match_ : Match.t) : Match.t :=
  let sets := match newSets newMatchData with
              | Some s => s | None => Match.sets match_ end in
  let date := match newDate newMatchData with
              | Some d => d | None => Match.date match_ end in
  let '(team1SetWins, team2SetWins) := setWins sets in
  let winner :=
    if team1SetWins >=? 2 then Some (Match.team1 match_)
    else if team2SetWins >=? 2 then Some (Match.team2 match_)
    else None in
  let status := match winner with Some _ => Finished | None => Pending end in
  {| Match.id := Match.id match_;
     Match.categoryId := Match.categoryId match_;
     Match.team1 := Match.team1 match_;
     Match.team2 := Match.team2 match_;
     Match.sets := sets;
     Match.winner := winner;
     Match.status := status;
     Match.date := date |}.

Definition handleUpdateMatch (matchId : string) (newMatchData : MatchData)
           (prevMatches : list Match.t) : list Match.t :=
  map (fun match_ =>
         if negb (String.eqb (Match.id match_) matchId) then match_
         else updateMatch newMatchData match_)
      prevMatches.

(** ** The application state and its handlers ([src/App.tsx]) *)

Module Player.
Record t := mk {
  id : string;
  firstName : string;
  lastName : string;
  idCard : string;
  birthDate : string;
  photoUrl : option string }.
End Player.

(** [Omit<Player, 'id'>]: the optional [photoUrl] is [None] when the
    object does not have the property. *)
Record PlayerData := {
  dataFirstName : string;
  dataLastName : string;
  dataIdCard : string;
  dataBirthDate : string;
  dataPhotoUrl : option string }.

(** The state held by the component [App]: the five persisted values of
    the championship and the view state that the handlers below write.
    One handler call is one transition: the values that the handler reads
    from its closure and the values that its updater functions receive are
    those of the state it is called in. *)
Module App.
Record t := mk {
  players : list Player.t;
  teams : list Team.t;
  categories : list Category.t;
  matches : list Match.t;
  activeCategoryId : option string;
  viewingPlayerId : option string;
  maximizedWidget : option string;
  isNewChampionshipConfirmOpen : bool }.

Definition set_players (v : list Player.t) (s : t) : t :=
  mk v (teams s) (categories s) (matches s) (activeCategoryId s)
     (viewingPlayerId s) (maximizedWidget s) (isNewChampionshipConfirmOpen s).

Definition set_teams (v : list Team.t) (s : t) : t :=
  mk (players s) v (categories s) (matches s) (activeCategoryId s)
     (viewingPlayerId s) (maximizedWidget s) (isNewChampionshipConfirmOpen s).

Definition set_categories (v : list Category.t) (s : t) : t :=
  mk (players s) (teams s) v (matches s) (activeCategoryId s)
     (viewingPlayerId s) (maximizedWidget s) (isNewChampionshipConfirmOpen s).

Definition set_matches (v : list Match.t) (s : t) : t :=
  mk (players s) (teams s) (categories s) v (activeCategoryId s)
     (viewingPlayerId s) (maximizedWidget s) (isNewChampionshipConfirmOpen s).

Definition set_activeCategoryId (v : option string) (s : t) : t :=
  mk (players s) (teams s) (categories s) (matches s) v
     (viewingPlayerId s) (maximizedWidget s) (isNewChampionshipConfirmOpen s).

Definition set_viewingPlayerId (v : option string) (s : t) : t :=
  mk (players s) (teams s) (categories s) (matches s) (activeCategoryId s)
     v (maximizedWidget s) (isNewChampionshipConfirmOpen s).

Definition set_maximizedWidget (v : option string) (s : t) : t :=
  mk (players s) (teams s) (categories s) (matches s) (activeCategoryId s)
     (viewingPlayerId s) v (isNewChampionshipConfirmOpen s).
End App.

(** The state of a first start: the default values of the hooks. *)
Definition initialState : App.t :=
  App.mk [] [] [] [] None None None false.

(** [x === y] for [x : string | null] and a string [y]. *)
Definition strictEq (x : option string) (y : string) : bool :=
  match x with
  | Some x' => String.eqb x' y
  | None => false
  end.

(** [l.includes(x)] *)
Definition includes (l : list string) (x : string) : bool :=
  existsb (fun y => String.eqb y x) l.

(** *** Derived state *)

Definition activeCategory (s : App.t) : option Category.t :=
  find (fun c => strictEq (App.activeCategoryId s) (Category.id c))
       (App.categories s).

Definition activeCategoryTeams (s : App.t) : list Team.t :=
  match activeCategory s with
  | None => []
  | Some c =>
      filter (fun t => includes (Category.teamIds c) (Team.id t)) (App.teams s)
  end.

Definition activeCategoryMatches (s : App.t) : list Match.t :=
  match activeCategory s with
  | None => []
  | Some c =>
      filter (fun m => String.eqb (Match.categoryId m) (Category.id c))
             (App.matches s)
  end.

Definition standings (s : App.t) : list Standings.t :=
  match activeCategory s with
  | None => []
  | Some _ =>
      if (List.length (activeCategoryTeams s) =? 0)%nat then []
      else calculateStandings (activeCategoryTeams s) (activeCategoryMatches s)
  end.

(** *** Handlers

    [now] is the value of [Date.now()] in the call. *)

Definition handleAddPlayer (now : Z) (playerData : PlayerData) (s : App.t)
  : App.t :=
  let newPlayer :=
    Player.mk ("player-" ++ string_of_Z now)%string
              (dataFirstName playerData) (dataLastName playerData)
              (dataIdCard playerData) (dataBirthDate playerData)
              (dataPhotoUrl playerData) in
  App.set_players (App.players s ++ [newPlayer]) s.

Definition handleUpdatePlayer (id : string) (playerData : PlayerData)
           (s : App.t) : App.t :=
  App.set_players
    (map (fun p =>
            if String.eqb (Player.id p) id
            then Player.mk (Player.id p)
                   (dataFirstName playerData) (dataLastName playerData)
                   (dataIdCard playerData) (dataBirthDate playerData)
                   (match dataPhotoUrl playerData with
                    | Some u => Some u
                    | None => Player.photoUrl p
                    end)
            else p)
         (App.players s)) s.

Definition handleDeletePlayer (id : string) (s : App.t) : App.t :=
  App.set_players
    (filter (fun p => negb (String.eqb (Player.id p) id)) (App.players s))
    (App.set_teams
       (map (fun team =>
               Team.mk (Team.id team) (Team.name team)
                 (filter (fun pid => negb (String.eqb pid id))
                         (Team.playerIds team)))
            (App.teams s)) s).

Definition handleAddTeam (now : Z) (name : string) (playerIds : list string)
           (s : App.t) : App.t :=
  let newTeam := Team.mk ("team-" ++ string_of_Z now)%string name playerIds in
  App.set_teams (App.teams s ++ [newTeam]) s.

Definition handleUpdateTeam (id name : string) (playerIds : list string)
           (s : App.t) : App.t :=
  App.set_teams
    (map (fun t => if String.eqb (Team.id t) id
                   then Team.mk (Team.id t) name playerIds else t)
         (App.teams s)) s.

Definition handleDeleteTeam (id : string) (s : App.t) : App.t :=
  App.set_teams
    (filter (fun t => negb (String.eqb (Team.id t) id)) (App.teams s))
    (App.set_matches
       (filter (fun m => negb (String.eqb (Team.id (Match.team1 m)) id)
                         && negb (String.eqb (Team.id (Match.team2 m)) id))
               (App.matches s))
       (App.set_categories
          (map (fun cat =>
                  Category.mk (Category.id cat) (Category.name cat)
                    (filter (fun tid => negb (String.eqb tid id))
                            (Category.teamIds cat)))
               (App.categories s)) s)).

Definition handleAddCategory (now : Z) (name : string) (teamIds : list string)
           (s : App.t) : App.t :=
  let newCategory :=
    Category.mk ("category-" ++ string_of_Z now)%string name teamIds in
  App.set_categories (App.categories s ++ [newCategory]) s.

Definition handleUpdateCategory (id name : string) (teamIds : list string)
           (s : App.t) : App.t :=
  App.set_categories
    (map (fun c => if String.eqb (Category.id c) id
                   then Category.mk (Category.id c) name teamIds else c)
         (App.categories s)) s.

Definition handleDeleteCategory (id : string) (s : App.t) : App.t :=
  App.set_categories
    (filter (fun c => negb (String.eqb (Category.id c) id)) (App.categories s))
    (App.set_matches
       (filter (fun m => negb (String.eqb (Match.categoryId m) id))
               (App.matches s))
       (if strictEq (App.activeCategoryId s) id
        then App.set_activeCategoryId None s else s)).

Definition handleGenerateMatches (rt : Runtime) (twoLegged : bool) (s : App.t)
  : App.t :=
  match activeCategory s with
  | None => s
  | Some c =>
      let newMatches :=
        generateRoundRobinMatches rt (activeCategoryTeams s) c twoLegged in
      App.set_matches
        (filter (fun m => negb (String.eqb (Match.categoryId m) (Category.id c)))
                (App.matches s)
         ++ newMatches) s
  end.

(** The handler [handleUpdateMatch] of [App]: the state update whose
    function on the list of matches is [handleUpdateMatch] above. *)
Definition onUpdateMatch (matchId : string) (newMatchData : MatchData)
           (s : App.t) : App.t :=
  App.set_matches (handleUpdateMatch matchId newMatchData (App.matches s)) s.

Definition handleSelectCategory (id : option string) (s : App.t) : App.t :=
  App.set_activeCategoryId id s.

Definition handleViewPlayerProfile (id : string) (s : App.t) : App.t :=
  App.set_viewingPlayerId (Some id) s.

Definition handleBackToMainView (s : App.t) : App.t :=
  App.set_viewingPlayerId None s.

Definition confirmNewChampionship (s : App.t) : App.t :=
  App.mk [] [] [] [] None None None false.

Definition toggleMaximize (widgetName : string) (s : App.t) : App.t :=
  App.set_maximizedWidget
    (if strictEq (App.maximizedWidget s) widgetName
     then None else Some widgetName) s.

(** ** The match card ([MatchCard] of the match scheduler) *)

(** The key ['team1' | 'team2'] of a score. *)
Inductive ScoreKey := KeyTeam1 | KeyTeam2.

(** [s.team1 !== null && s.team2 !== null] *)
Definition isPlayed (s : MatchSet.t) : bool :=
  match MatchSet.team1 s, MatchSet.team2 s with
  | Some _, Some _ => true
  | _, _ => false
  end.

(** [s.team1 !== null && s.team2 !== null && s.team1 > s.team2] *)
Definition wonByTeam1 (s : MatchSet.t) : bool :=
  match MatchSet.team1 s, MatchSet.team2 s with
  | Some a, Some b => a >? b
  | _, _ => false
  end.

Definition wonByTeam2 (s : MatchSet.t) : bool :=
  match MatchSet.team1 s, MatchSet.team2 s with
  | Some a, Some b => b >? a
  | _, _ => false
  end.

Definition firstTwoSets (sets : list MatchSet.t) : list MatchSet.t :=
  firstn 2 sets.

Definition team1FirstTwoSetWins (sets : list MatchSet.t) : nat :=
  List.length (filter wonByTeam1 (firstTwoSets sets)).

Definition team2FirstTwoSetWins (sets : list MatchSet.t) : nat :=
  List.length (filter wonByTeam2 (firstTwoSets sets)).

Definition areFirstTwoSetsPlayed (sets : list MatchSet.t) : bool :=
  forallb isPlayed (firstTwoSets sets).

Definition isThirdSetRelevant (sets : list MatchSet.t) : bool :=
  areFirstTwoSetsPlayed sets
  && (team1FirstTwoSetWins sets =? 1)%nat
  && (team2FirstTwoSetWins sets =? 1)%nat.

(** [setIndex < 2 ? 18 : 16] *)
Definition maxScore (setIndex : nat) : Z :=
  if (setIndex <? 2)%nat then 18 else 16.

(** [set[team] = v] *)
Definition assignScore (team : ScoreKey) (v : option Z) (set : MatchSet.t)
  : MatchSet.t :=
  match team with
  | KeyTeam1 => MatchSet.mk v (MatchSet.team2 set)
  | KeyTeam2 => MatchSet.mk (MatchSet.team1 set) v
  end.

(** [l[i] = x] for an index within the list. *)
Fixpoint replaceAt {A : Type} (i : nat) (x : A) (l : list A) : list A :=
  match l, i with
  | [], _ => []
  | _ :: rest, O => x :: rest
  | y :: rest, S i' => y :: replaceAt i' x rest
  end.

(** The new value of the state [sets] of the card.  [parsed] is the value
    of [parseInt(value, 10)], [None] standing for NaN.  The result is
    [None] when [newSets[setIndex]] is undefined, where the assignment to
    its property throws. *)
Definition handleSetScoreChange (setIndex : nat) (team : ScoreKey)
           (parsed : option Z) (sets : list MatchSet.t)
  : option (list MatchSet.t) :=
  match nth_error sets setIndex with
  | None => None
  | Some set =>
      let v :=
        match parsed with
        | None => None
        | Some score =>
            let score := if score <? 0 then 0 else score in
            let score := if score >? maxScore setIndex
                         then maxScore setIndex else score in
            Some score
        end in
      Some (replaceAt setIndex (assignScore team v set) sets)
  end.

(** The update that [handleSave] sends for the match of the card. *)
Definition handleSave (sets : list MatchSet.t) (date : string) : MatchData :=
  {| newSets :=
       Some (map (fun s => MatchSet.mk (MatchSet.team1 s) (MatchSet.team2 s))
                 sets);
     newDate := Some date |}.

(** ** The two functions as programs on a heap

    The functions of [src/utils/tournamentUtils.ts] once more, this time as
    programs that allocate, read and write objects of a heap and that call
    the host ([Date.now()], [Math.random()]), so that what a call changes
    and what it asks of the host can be stated.  An object is a cell of the
    heap and a reference is the address of a cell; a new cell is put at the
    end of the heap.  The arrays [playerIds] of a team and [teamIds] of a
    category, which the two functions never reach, are kept inside the cell
    of their owner. *)

(** An address. *)
Abbreviation loc := nat.

Module MatchObj.
Record t := mk {
  id : string;
  categoryId : string;
  team1 : loc;
  team2 : loc;
  sets : loc;
  winner : option loc;
  status : MatchStatus;
  date : string }.
End MatchObj.

Module StandingsObj.
Record t := mk {
  team : loc;
  played : Z;
  wins : Z;
  losses : Z;
  points : Z;
  pointsFor : Z;
  pointsAgainst : Z;
  pointsDifference : Z }.

Definition set_played (v : Z) (s : t) : t :=
  mk (team s) v (wins s) (losses s) (points s) (pointsFor s)
     (pointsAgainst s) (pointsDifference s).
Definition set_wins (v : Z) (s : t) : t :=
  mk (team s) (played s) v (losses s) (points s) (pointsFor s)
     (pointsAgainst s) (pointsDifference s).
Definition set_losses (v : Z) (s : t) : t :=
  mk (team s) (played s) (wins s) v (points s) (pointsFor s)
     (pointsAgainst s) (pointsDifference s).
Definition set_points (v : Z) (s : t) : t :=
  mk (team s) (played s) (wins s) (losses s) v (pointsFor s)
     (pointsAgainst s) (pointsDifference s).
Definition set_pointsFor (v : Z) (s : t) : t :=
  mk (team s) (played s) (wins s) (losses s) (points s) v
     (pointsAgainst s) (pointsDifference s).
Definition set_pointsAgainst (v : Z) (s : t) : t :=
  mk (team s) (played s) (wins s) (losses s) (points s) (pointsFor s)
     v (pointsDifference s).
Definition set_pointsDifference (v : Z) (s : t) : t :=
  mk (team s) (played s) (wins s) (losses s) (points s) (pointsFor s)
     (pointsAgainst s) v.
End StandingsObj.

Inductive Obj :=
| TeamObj (t : Team.t)
| CategoryObj (c : Category.t)
| SetObj (s : MatchSet.t)
| MatchObject (m : MatchObj.t)
| StandingsObject (s : StandingsObj.t)
| EntryObj (key : string) (value : loc)
| ArrayObj (elems : list loc)
| MapObj (entries : list (string * loc)).

(** The state that a call can change: the heap, the number of
    evaluations of [Date.now()] and of sorts with the random comparator
    made so far, and what has been written to the console, to dialogs and
    to the storage of the browser. *)
Record World := {
  heap : list Obj;
  clockReads : nat;
  randomSorts : nat;
  output : list string }.

Definition setHeap (h : list Obj) (w : World) : World :=
  {| heap := h;
     clockReads := clockReads w;
     randomSorts := randomSorts w;
     output := output w |}.

(** The host: [clockAt k] is what the [k]-th evaluation of [Date.now()]
    returns; [orderAt k n] is the order in which the [k]-th sort with the
    comparator [() => Math.random() - 0.5] leaves the positions of an array
    of length [n].  The comparator does not look at the elements, so the
    order is decided by the engine and by the draws alone. *)
Record Host := {
  clockAt : nat -> Z;
  orderAt : nat -> nat -> list nat;
  orderAt_perm : forall k n, Permutation (orderAt k n) (seq 0 n) }.

(** A program: from the host and the state to a result and the state
    after it, or to nothing when the program throws. *)
Definition Js (A : Type) : Type := Host -> World -> option (A * World).

Definition ret {A : Type} (a : A) : Js A := fun _ w => Some (a, w).

Definition bind {A B : Type} (c : Js A) (k : A -> Js B) : Js B :=
  fun host w =>
    match c host w with
    | Some (a, w') => k a host w'
    | None => None
    end.

Definition throw {A : Type} : Js A := fun _ _ => None.

Declare Scope js_scope.
Delimit Scope js_scope with js.
Notation "x <- c1 ;; c2" := (bind c1 (fun x => c2))
  (at level 61, c1 at next level, right associativity) : js_scope.
Notation "c1 ;; c2" := (bind c1 (fun _ => c2))
  (at level 61, right associativity) : js_scope.
Local Open Scope js_scope.

(** *** Objects *)

Definition alloc (o : Obj) : Js loc :=
  fun _ w => Some (List.length (heap w), setHeap (heap w ++ [o]) w).

Definition load (l : loc) : Js Obj :=
  fun _ w =>
    match nth_error (heap w) l with
    | Some o => Some (o, w)
    | None => None
    end.

Definition store (l : loc) (o : Obj) : Js unit :=
  fun _ w =>
    match nth_error (heap w) l with
    | Some _ => Some (tt, setHeap (replaceAt l o (heap w)) w)
    | None => None
    end.

Definition loadTeam (l : loc) : Js Team.t :=
  o <- load l ;; match o with TeamObj t => ret t | _ => throw end.

Definition loadCategory (l : loc) : Js Category.t :=
  o <- load l ;; match o with CategoryObj c => ret c | _ => throw end.

Definition loadSet (l : loc) : Js MatchSet.t :=
  o <- load l ;; match o with SetObj s => ret s | _ => throw end.

Definition loadMatch (l : loc) : Js MatchObj.t :=
  o <- load l ;; match o with MatchObject m => ret m | _ => throw end.

Definition loadStandings (l : loc) : Js StandingsObj.t :=
  o <- load l ;; match o with StandingsObject s => ret s | _ => throw end.

Definition loadEntry (l : loc) : Js (string * loc) :=
  o <- load l ;; match o with EntryObj k v => ret (k, v) | _ => throw end.

Definition loadArray (l : loc) : Js (list loc) :=
  o <- load l ;; match o with ArrayObj es => ret es | _ => throw end.

Definition loadMap (l : loc) : Js (list (string * loc)) :=
  o <- load l ;; match o with MapObj es => ret es | _ => throw end.

(** *** The host *)

(** [Date.now()] *)
Definition Date_now : Js Z :=
  fun host w =>
    Some (clockAt host (clockReads w),
          {| heap := heap w;
             clockReads := S (clockReads w);
             randomSorts := randomSorts w;
             output := output w |}).

(** The elements of [es] at the positions [order], in that order. *)
Definition permute {A : Type} (order : list nat) (es : list A) : list A :=
  flat_map (fun i => match nth_error es i with
                     | Some x => [x]
                     | None => []
                     end) order.

(** [array.sort(() => Math.random() - 0.5)], in place. *)
Definition sortRandomly (array : loc) : Js unit :=
  es <- loadArray array ;;
  fun host w =>
    match nth_error (heap w) array with
    | Some _ =>
        Some (tt,
              {| heap :=
                   replaceAt array
                     (ArrayObj (permute (orderAt host (randomSorts w)
                                                 (List.length es)) es))
                     (heap w);
                 clockReads := clockReads w;
                 randomSorts := S (randomSorts w);
                 output := output w |})
    | None => None
    end.

(** *** Arrays and maps *)

(** [array.length] *)
Definition arrayLength (array : loc) : Js nat :=
  es <- loadArray array ;; ret (List.length es).

(** [array[i]], for an index within the array. *)
Definition arrayGet (array : loc) (i : nat) : Js loc :=
  es <- loadArray array ;;
  match nth_error es i with
  | Some l => ret l
  | None => throw
  end.

(** [array.push(l)] *)
Definition arrayPush (array : loc) (l : loc) : Js unit :=
  es <- loadArray array ;; store array (ArrayObj (es ++ [l])).

(** [map.set(k, v)] *)
Definition mapSet (map_ : loc) (k : string) (v : loc) : Js unit :=
  es <- loadMap map_ ;; store map_ (MapObj (Map_set k v es)).

(** [map.get(k)] *)
Definition mapGet (map_ : loc) (k : string) : Js (option loc) :=
  es <- loadMap map_ ;; ret (Map_get k es).

(** *** Iteration over the elements of an array *)

Section Iteration.
Context {A B : Type}.

(** [forEach] *)
Fixpoint forEach (f : A -> Js unit) (l : list A) : Js unit :=
  match l with
  | [] => ret tt
  | x :: l' => f x ;; forEach f l'
  end.

(** [map] *)
Fixpoint mapM (f : A -> Js B) (l : list A) : Js (list B) :=
  match l with
  | [] => ret []
  | x :: l' => y <- f x ;; ys <- mapM f l' ;; ret (y :: ys)
  end.

(** [filter] *)
Fixpoint filterM (p : A -> Js bool) (l : list A) : Js (list A) :=
  match l with
  | [] => ret []
  | x :: l' =>
      b <- p x ;; r <- filterM p l' ;; ret (if b then x :: r else r)
  end.

(** [some]: the callback is called until it answers true. *)
Fixpoint someM (p : A -> Js bool) (l : list A) : Js bool :=
  match l with
  | [] => ret false
  | x :: l' => b <- p x ;; if b then ret true else someM p l'
  end.

(** A [forEach] whose callback updates local variables. *)
Fixpoint foldM (f : B -> A -> Js B) (l : list A) (acc : B) : Js B :=
  match l with
  | [] => ret acc
  | x :: l' => acc' <- f acc x ;; foldM f l' acc'
  end.
End Iteration.

(** [for (let i = from; cond(i); i++) body(i)]: the condition is evaluated
    before each round.  The loop throws when [fuel] rounds do not reach the
    end. *)
Fixpoint forLoop (fuel : nat) (cond : nat -> Js bool) (body : nat -> Js unit)
         (i : nat) : Js unit :=
  match fuel with
  | O => throw
  | S fuel' =>
      b <- cond i ;;
      if b then body i ;; forLoop fuel' cond body (S i) else ret tt
  end.

(** *** [generateRoundRobinMatches] *)

(** The array literal of the three empty sets. *)
Definition newSetsH : Js loc :=
  s1 <- alloc (SetObj (MatchSet.mk None None)) ;;
  s2 <- alloc (SetObj (MatchSet.mk None None)) ;;
  s3 <- alloc (SetObj (MatchSet.mk None None)) ;;
  alloc (ArrayObj [s1; s2; s3]).

(** The object literal of a match between [teams[a]] and [teams[b]]. *)
Definition newMatchH (teams category : loc) (a b : nat) (leg : string)
  : Js loc :=
  now <- Date_now ;;
  c <- loadCategory category ;;
  t1 <- arrayGet teams a ;;
  t2 <- arrayGet teams b ;;
  sets <- newSetsH ;;
  alloc (MatchObject
           (MatchObj.mk (matchIdOf now a b leg) (Category.id c) t1 t2 sets
                        None Pending EmptyString)).

(** Body of the inner loop. *)
Definition pushPairH (teams category : loc) (twoLegged : bool) (matches : loc)
           (i j : nat) : Js unit :=
  match1 <- newMatchH teams category i j "1" ;;
  arrayPush matches match1 ;;
  if twoLegged then
    match2 <- newMatchH teams category j i "2" ;;
    arrayPush matches match2
  else ret tt.

(** [teams], [category]: the addresses of the arguments.  The result is
    the address of the returned array.  The two loops are given as many
    rounds as the array has elements when the call starts, and one more
    for the last evaluation of the condition. *)
Definition generateRoundRobinMatchesH (teams category : loc)
           (twoLegged : bool) : Js loc :=
  matches <- alloc (ArrayObj []) ;;
  n <- arrayLength teams ;;
  if (n <? 2)%nat then alloc (ArrayObj [])
  else
    forLoop (S n)
      (fun i => len <- arrayLength teams ;; ret (i <? len)%nat)
      (fun i =>
         forLoop (S n)
           (fun j => len <- arrayLength teams ;; ret (j <? len)%nat)
           (fun j => pushPairH teams category twoLegged matches i j)
           (S i))
      0%nat ;;
    sortRandomly matches ;;
    ret matches.

(** *** [calculateStandings] *)

Definition initialStandingsObj (team : loc) : StandingsObj.t :=
  StandingsObj.mk team 0 0 0 0 0 0 0.

(** [teams.some(t => t.id === match.team1.id)], and the same for team2. *)
Definition someTeamIs (side : MatchObj.t -> loc) (teams match_ : loc)
  : Js bool :=
  ts <- loadArray teams ;;
  someM (fun tl =>
           t <- loadTeam tl ;;
           m <- loadMatch match_ ;;
           s <- loadTeam (side m) ;;
           ret (String.eqb (Team.id t) (Team.id s))) ts.

(** The callback of [matches.filter]. *)
Definition isRelevantH (teams match_ : loc) : Js bool :=
  b <- someTeamIs MatchObj.team1 teams match_ ;;
  if b then someTeamIs MatchObj.team2 teams match_ else ret false.

(** [x.f += ...] and [x.f = ...] on the standings object at [l]. *)
Definition assign (l : loc) (f : StandingsObj.t -> StandingsObj.t) : Js unit :=
  s <- loadStandings l ;; store l (StandingsObject (f s)).

(** The statements of the [forEach] callback after its two guards. *)
Definition chargeMatchH (standingsMap match_ : loc) (winnerId loserId : string)
           (winnerStandings loserStandings : loc) : Js unit :=
  m <- loadMatch match_ ;;
  sets <- loadArray (MatchObj.sets m) ;;
  tl <- foldM (fun acc sl => set <- loadSet sl ;; ret (tallySet acc set))
              sets (Build_Tally 0 0 0 0) ;;
  m <- loadMatch match_ ;;
  t1 <- loadTeam (MatchObj.team1 m) ;;
  let isTeam1Winner := String.eqb (Team.id t1) winnerId in
  assign winnerStandings
    (fun s => StandingsObj.set_played (StandingsObj.played s + 1) s) ;;
  assign winnerStandings
    (fun s => StandingsObj.set_wins (StandingsObj.wins s + 1) s) ;;
  assign loserStandings
    (fun s => StandingsObj.set_played (StandingsObj.played s + 1) s) ;;
  assign loserStandings
    (fun s => StandingsObj.set_losses (StandingsObj.losses s + 1) s) ;;
  let winnerSets := Z.max (team1SetWins tl) (team2SetWins tl) in
  let loserSets := Z.min (team1SetWins tl) (team2SetWins tl) in
  (if (winnerSets =? 2) && (loserSets =? 0) then
     assign winnerStandings
       (fun s => StandingsObj.set_points (StandingsObj.points s + 3) s)
   else if (winnerSets =? 2) && (loserSets =? 1) then
     assign winnerStandings
       (fun s => StandingsObj.set_points (StandingsObj.points s + 2) s) ;;
     assign loserStandings
       (fun s => StandingsObj.set_points (StandingsObj.points s + 1) s)
   else ret tt) ;;
  (if isTeam1Winner then
     assign winnerStandings
       (fun s => StandingsObj.set_pointsFor
                   (StandingsObj.pointsFor s + team1TotalPoints tl) s) ;;
     assign winnerStandings
       (fun s => StandingsObj.set_pointsAgainst
                   (StandingsObj.pointsAgainst s + team2TotalPoints tl) s) ;;
     assign loserStandings
       (fun s => StandingsObj.set_pointsFor
                   (StandingsObj.pointsFor s + team2TotalPoints tl) s) ;;
     assign loserStandings
       (fun s => StandingsObj.set_pointsAgainst
                   (StandingsObj.pointsAgainst s + team1TotalPoints tl) s)
   else
     assign winnerStandings
       (fun s => StandingsObj.set_pointsFor
                   (StandingsObj.pointsFor s + team2TotalPoints tl) s) ;;
     assign winnerStandings
       (fun s => StandingsObj.set_pointsAgainst
                   (StandingsObj.pointsAgainst s + team1TotalPoints tl) s) ;;
     assign loserStandings
       (fun s => StandingsObj.set_pointsFor
                   (StandingsObj.pointsFor s + team1TotalPoints tl) s) ;;
     assign loserStandings
       (fun s => StandingsObj.set_pointsAgainst
                   (StandingsObj.pointsAgainst s + team2TotalPoints tl) s)) ;;
  assign winnerStandings
    (fun s => StandingsObj.set_pointsDifference
                (StandingsObj.pointsFor s - StandingsObj.pointsAgainst s) s) ;;
  assign loserStandings
    (fun s => StandingsObj.set_pointsDifference
                (StandingsObj.pointsFor s - StandingsObj.pointsAgainst s) s) ;;
  mapSet standingsMap winnerId winnerStandings ;;
  mapSet standingsMap loserId loserStandings.

(** The callback of [relevantMatches.forEach]. *)
Definition countMatchH (standingsMap match_ : loc) : Js unit :=
  m <- loadMatch match_ ;;
  match MatchObj.status m, MatchObj.winner m with
  | Finished, Some winner =>
      w <- loadTeam winner ;;
      let winnerId := Team.id w in
      t1 <- loadTeam (MatchObj.team1 m) ;;
      loser <- loadTeam (if String.eqb winnerId (Team.id t1)
                         then MatchObj.team2 m else MatchObj.team1 m) ;;
      let loserId := Team.id loser in
      winnerStandings <- mapGet standingsMap winnerId ;;
      loserStandings <- mapGet standingsMap loserId ;;
      match winnerStandings, loserStandings with
      | Some ws, Some ls =>
          chargeMatchH standingsMap match_ winnerId loserId ws ls
      | _, _ => ret tt
      end
  | _, _ => ret tt
  end.

(** The comparator of the sort, on two standings objects. *)
Definition compareStandingsObj (a b : StandingsObj.t) : Z :=
  if negb (StandingsObj.points b =? StandingsObj.points a)
  then StandingsObj.points b - StandingsObj.points a
  else if negb (StandingsObj.wins b =? StandingsObj.wins a)
  then StandingsObj.wins b - StandingsObj.wins a
  else if negb (StandingsObj.pointsDifference b
                =? StandingsObj.pointsDifference a)
  then StandingsObj.pointsDifference b - StandingsObj.pointsDifference a
  else StandingsObj.pointsFor b - StandingsObj.pointsFor a.

(** [array.sort(compareFn)], in place, on an array of standings objects. *)
Definition sortStandingsH (array : loc) : Js unit :=
  ls <- loadArray array ;;
  objs <- mapM (fun l => s <- loadStandings l ;; ret (l, s)) ls ;;
  store array
    (ArrayObj (map fst (sortBy (fun a b => compareStandingsObj (snd a) (snd b))
                               objs))).

(** [teams], [matches]: the addresses of the arguments.  The result is
    the address of the returned array. *)
Definition calculateStandingsH (teams matches : loc) : Js loc :=
  ts <- loadArray teams ;;
  entries <- mapM (fun tl =>
                     t <- loadTeam tl ;;
                     s <- alloc (StandingsObject (initialStandingsObj tl)) ;;
                     alloc (EntryObj (Team.id t) s)) ts ;;
  entriesArray <- alloc (ArrayObj entries) ;;
  standingsMap <- alloc (MapObj []) ;;
  es <- loadArray entriesArray ;;
  forEach (fun el => e <- loadEntry el ;; mapSet standingsMap (fst e) (snd e))
          es ;;
  ms <- loadArray matches ;;
  relevant <- filterM (isRelevantH teams) ms ;;
  relevantMatches <- alloc (ArrayObj relevant) ;;
  rs <- loadArray relevantMatches ;;
  forEach (countMatchH standingsMap) rs ;;
  entriesOfMap <- loadMap standingsMap ;;
  standings <- alloc (ArrayObj (map snd entriesOfMap)) ;;
  sortStandingsH standings ;;
  ret standings.

(** *** Reading values back from a heap *)

Definition getTeam (h : list Obj) (l : loc) : option Team.t :=
  match nth_error h l with Some (TeamObj t) => Some t | _ => None end.

Definition getCategory (h : list Obj) (l : loc) : option Category.t :=
  match nth_error h l with Some (CategoryObj c) => Some c | _ => None end.

Definition getSet (h : list Obj) (l : loc) : option MatchSet.t :=
  match nth_error h l with Some (SetObj s) => Some s | _ => None end.

Definition getArray (h : list Obj) (l : loc) : option (list loc) :=
  match nth_error h l with Some (ArrayObj es) => Some es | _ => None end.

Fixpoint mapO {A B : Type} (f : A -> option B) (l : list A)
  : option (list B) :=
  match l with
  | [] => Some []
  | x :: l' =>
      match f x, mapO f l' with
      | Some y, Some ys => Some (y :: ys)
      | _, _ => None
      end
  end.

(** The elements of the array at [l], each read with [f]. *)
Definition getArrayOf {B : Type} (f : list Obj -> loc -> option B)
           (h : list Obj) (l : loc) : option (list B) :=
  match getArray h l with
  | Some es => mapO (f h) es
  | None => None
  end.

Definition getTeams := getArrayOf getTeam.

Definition getMatch (h : list Obj) (l : loc) : option Match.t :=
  match nth_error h l with
  | Some (MatchObject m) =>
      match getTeam h (MatchObj.team1 m), getTeam h (MatchObj.team2 m),
            getArrayOf getSet h (MatchObj.sets m),
            match MatchObj.winner m with
            | Some w => option_map Some (getTeam h w)
            | None => Some None
            end with
      | Some t1, Some t2, Some sets, Some winner =>
          Some (Match.mk (MatchObj.id m) (MatchObj.categoryId m) t1 t2 sets
                         winner (MatchObj.status m) (MatchObj.date m))
      | _, _, _, _ => None
      end
  | _ => None
  end.

Definition getMatches := getArrayOf getMatch.

(** The standings record that the object [s] stands for when its team
    is [t]. *)
Definition toStandings (t : Team.t) (s : StandingsObj.t) : Standings.t :=
  Standings.mk t (StandingsObj.played s) (StandingsObj.wins s)
    (StandingsObj.losses s) (StandingsObj.points s) (StandingsObj.pointsFor s)
    (StandingsObj.pointsAgainst s) (StandingsObj.pointsDifference s).

Definition getStandings (h : list Obj) (l : loc) : option Standings.t :=
  match nth_error h l with
  | Some (StandingsObject s) =>
      option_map (fun t => toStandings t s) (getTeam h (StandingsObj.team s))
  | _ => None
  end.

Definition getTable := getArrayOf getStandings.

(** *** What a call returns, read back from the heap it leaves *)

Definition returnedMatches (c : Js loc) (host : Host) (w : World)
  : option (list Match.t) :=
  match c host w with
  | Some (r, w') => getMatches (heap w') r
  | None => None
  end.

Definition returnedTable (c : Js loc) (host : Host) (w : World)
  : option (list Standings.t) :=
  match c host w with
  | Some (r, w') => getTable (heap w') r
  | None => None
  end.

(** * Vocabulary of the specification and of the proofs *)

Local Open Scope nat_scope.

(** ** The fixtures in the order in which the loops push them

    A slot is a fixture before it receives its identifier: the two
    indices written into the identifier, the leg and the two teams.  The
    [n]-th slot pushed receives the [n]-th reading of the clock. *)

Record Slot := {
  slotA : nat;
  slotB : nat;
  slotSecondLeg : bool;
  slotTeam1 : Team.t;
  slotTeam2 : Team.t }.

Definition legString (second : bool) : string := if second then "2" else "1".

Definition slotKey (s : Slot) : nat * nat * bool :=
  (slotA s, slotB s, slotSecondLeg s).

Definition slotSides (s : Slot) : Team.t * Team.t := (slotTeam1 s, slotTeam2 s).

Definition sides (m : Match.t) : Team.t * Team.t :=
  (Match.team1 m, Match.team2 m).

(** The fixtures of one pair: one leg, or two legs with the sides swapped. *)
Definition legs (twoLegged : bool) (a b : Team.t) : list (Team.t * Team.t) :=
  if twoLegged then [(a, b); (b, a)] else [(a, b)].

(** All unordered pairs of positions [i < j] of a list of teams, as the
    specification enumerates them, each with its legs. *)
Definition indexPairs (twoLegged : bool) (d : Team.t) (teams : list Team.t)
  : list (Team.t * Team.t) :=
  flat_map (fun i =>
    flat_map (fun j => legs twoLegged (nth i teams d) (nth j teams d))
             (seq (S i) (List.length teams - S i)))
    (seq 0 (List.length teams)).

Section Slots.
Variable rt : Runtime.
Variable category : Category.t.
Variable twoLegged : bool.

Definition pairSlots (i : nat) (ti : Team.t) (j : nat) (tj : Team.t)
  : list Slot :=
  Build_Slot i j false ti tj
    :: (if twoLegged then [Build_Slot j i true tj ti] else []).

Fixpoint innerSlots (i : nat) (ti : Team.t) (j : nat) (rest : list Team.t)
  : list Slot :=
  match rest with
  | [] => []
  | tj :: rest' => pairSlots i ti j tj ++ innerSlots i ti (S j) rest'
  end.

Fixpoint outerSlots (i : nat) (ts : list Team.t) : list Slot :=
  match ts with
  | [] => []
  | ti :: rest => innerSlots i ti (S i) rest ++ outerSlots (S i) rest
  end.

Definition stampSlot (k : nat) (s : Slot) : Match.t :=
  newMatch (matchIdOf (dateNow rt k) (slotA s) (slotB s)
                      (legString (slotSecondLeg s)))
           category (slotTeam1 s) (slotTeam2 s).

Fixpoint stamp (k : nat) (l : list Slot) : list Match.t :=
  match l with
  | [] => []
  | s :: l' => stampSlot k s :: stamp (S k) l'
  end.

(** The sides of the slots, by structural recursion on the list of teams. *)
Fixpoint pairsOf (ts : list Team.t) : list (Team.t * Team.t) :=
  match ts with
  | [] => []
  | t :: rest => flat_map (legs twoLegged t) rest ++ pairsOf rest
  end.
End Slots.

(** ** Identifiers *)

Fixpoint hasDash (s : string) : bool :=
  match s with
  | EmptyString => false
  | String c s' => Ascii.eqb c "-" || hasDash s'
  end.

(** A match with its identifier blanked. *)
Definition withoutId (m : Match.t) : Match.t :=
  {| Match.id := EmptyString;
     Match.categoryId := Match.categoryId m;
     Match.team1 := Match.team1 m;
     Match.team2 := Match.team2 m;
     Match.sets := Match.sets m;
     Match.winner := Match.winner m;
     Match.status := Match.status m;
     Match.date := Match.date m |}.

Local Open Scope Z_scope.

(** ** Entries of a map *)

Section MapVocabulary.
Context {V : Type}.
Implicit Types (m : list (string * V)) (k : string).

Definition keysOf m : list string := map fst m.

(** The effect of a mutation on each entry. *)
Definition applyIf (b : bool) (f : V -> V) (v : V) : V :=
  if b then f v else v.

Definition onKey (target : string) (f : V -> V) (k : string) (v : V) : V :=
  applyIf (String.eqb k target) f v.

(** Entry-wise update of the values, the keys left as they are. *)
Definition mapVals (g : string -> V -> V) m : list (string * V) :=
  map (fun e => (fst e, g (fst e) (snd e))) m.

Definition mapAt (target : string) (f : V -> V) m : list (string * V) :=
  mapVals (onKey target f) m.
End MapVocabulary.

(** ** The callback, seen from one standings object

    [chargeRec match_ winnerId loserId k s] is what the statements of the
    callback do to the object [s] stored under the key [k]: each
    assignment through [winnerStandings] reaches it when [k] is
    [winnerId], each assignment through [loserStandings] when [k] is
    [loserId], and both when the two ids are the same. *)
Definition chargeRec (match_ : Match.t) (winnerId loserId : string)
           (k : string) (s : Standings.t) : Standings.t :=
  let tl := tallySets (Match.sets match_) in
  let isTeam1Winner := String.eqb (Team.id (Match.team1 match_)) winnerId in
  let onWinner := fun f s => onKey winnerId f k s in
  let onLoser := fun f s => onKey loserId f k s in
  let s := onWinner (fun s => Standings.set_played (Standings.played s + 1) s) s in
  let s := onWinner (fun s => Standings.set_wins (Standings.wins s + 1) s) s in
  let s := onLoser (fun s => Standings.set_played (Standings.played s + 1) s) s in
  let s := onLoser (fun s => Standings.set_losses (Standings.losses s + 1) s) s in
  let winnerSets := Z.max (team1SetWins tl) (team2SetWins tl) in
  let loserSets := Z.min (team1SetWins tl) (team2SetWins tl) in
  let s :=
    if (winnerSets =? 2) && (loserSets =? 0) then
      onWinner (fun s => Standings.set_points (Standings.points s + 3) s) s
    else if (winnerSets =? 2) && (loserSets =? 1) then
      onLoser (fun s => Standings.set_points (Standings.points s + 1) s)
        (onWinner (fun s => Standings.set_points (Standings.points s + 2) s) s)
    else s in
  let s :=
    if isTeam1Winner then
      let s := onWinner (fun s => Standings.set_pointsFor
                  (Standings.pointsFor s + team1TotalPoints tl) s) s in
      let s := onWinner (fun s => Standings.set_pointsAgainst
                  (Standings.pointsAgainst s + team2TotalPoints tl) s) s in
      let s := onLoser (fun s => Standings.set_pointsFor
                  (Standings.pointsFor s + team2TotalPoints tl) s) s in
      onLoser (fun s => Standings.set_pointsAgainst
                  (Standings.pointsAgainst s + team1TotalPoints tl) s) s
    else
      let s := onWinner (fun s => Standings.set_pointsFor
                  (Standings.pointsFor s + team2TotalPoints tl) s) s in
      let s := onWinner (fun s => Standings.set_pointsAgainst
                  (Standings.pointsAgainst s + team1TotalPoints tl) s) s in
      let s := onLoser (fun s => Standings.set_pointsFor
                  (Standings.pointsFor s + team1TotalPoints tl) s) s in
      onLoser (fun s => Standings.set_pointsAgainst
                  (Standings.pointsAgainst s + team2TotalPoints tl) s) s in
  let s := onWinner (fun s => Standings.set_pointsDifference
              (Standings.pointsFor s - Standings.pointsAgainst s) s) s in
  let s := onLoser (fun s => Standings.set_pointsDifference
              (Standings.pointsFor s - Standings.pointsAgainst s) s) s in
  let s := onWinner (fun s => s) s in
  onLoser (fun s => s) s.

(** A match is counted when it passes the filter and the guards of the
    callback: both teams are in the team list, the status is Finished, and
    there is a winner whose id is a key of the standings map. *)
Definition counted (teams : list Team.t) (match_ : Match.t) : bool :=
  isRelevant teams match_
  && status_eqb (Match.status match_) Finished
  && match Match.winner match_ with
     | Some w => hasTeam teams (Team.id w)
     | None => false
     end.

(** The id charged as winner and the id charged as loser (the empty
    string stands for no id when there is no winner; it is read for counted
    matches only). *)
Definition winnerIdIn (match_ : Match.t) : string :=
  match Match.winner match_ with
  | Some w => winnerIdOf w
  | None => EmptyString
  end.

Definition loserIdIn (match_ : Match.t) : string :=
  loserIdOf match_ (winnerIdIn match_).

Definition countRec (teams : list Team.t) (match_ : Match.t)
           (k : string) (s : Standings.t) : Standings.t :=
  if counted teams match_
  then chargeRec match_ (winnerIdIn match_) (loserIdIn match_) k s
  else s.

Definition recordFold (teams : list Team.t) (matches : list Match.t)
           (k : string) (s : Standings.t) : Standings.t :=
  fold_left (fun s m => countRec teams m k s) matches s.

Definition initialMap (teams : list Team.t) : StandingsMap :=
  Map_new (map (fun team => (Team.id team, initialStandings team)) teams).

(** The keys of a standings map are the ids of the teams, once each. *)
Definition keysAreTeams (teams : list Team.t) (sm : StandingsMap) : Prop :=
  NoDup (keysOf sm) /\ forall k, In k (keysOf sm) <-> hasTeam teams k = true.

(** ** Sets, tallies and awards, as the specification words them *)

(** The two scores of a set when both are present. *)
Definition bothScores (set : MatchSet.t) : option (Z * Z) :=
  match MatchSet.team1 set, MatchSet.team2 set with
  | Some a, Some b => Some (a, b)
  | _, _ => None
  end.

(** Number of sets with both scores present that team 1 (team 2) won. *)
Definition setsWon1 (sets : list MatchSet.t) : Z :=
  Z.of_nat (List.length (filter (fun set =>
    match bothScores set with Some (a, b) => a >? b | None => false end) sets)).

Definition setsWon2 (sets : list MatchSet.t) : Z :=
  Z.of_nat (List.length (filter (fun set =>
    match bothScores set with Some (a, b) => b >? a | None => false end) sets)).

(** Sum of the scores of team 1 (team 2) over the sets with both scores
    present. *)
Fixpoint scoreSum1 (sets : list MatchSet.t) : Z :=
  match sets with
  | [] => 0
  | set :: sets' =>
      match bothScores set with
      | Some (a, _) => a + scoreSum1 sets'
      | None => scoreSum1 sets'
      end
  end.

Fixpoint scoreSum2 (sets : list MatchSet.t) : Z :=
  match sets with
  | [] => 0
  | set :: sets' =>
      match bothScores set with
      | Some (_, b) => b + scoreSum2 sets'
      | None => scoreSum2 sets'
      end
  end.

(** The set tally of a match is 2 sets to 0, or 2 sets to 1. *)
Definition twoToNil (match_ : Match.t) : Prop :=
  let a := setsWon1 (Match.sets match_) in
  let b := setsWon2 (Match.sets match_) in
  (a = 2 /\ b = 0) \/ (a = 0 /\ b = 2).

Definition twoToOne (match_ : Match.t) : Prop :=
  let a := setsWon1 (Match.sets match_) in
  let b := setsWon2 (Match.sets match_) in
  (a = 2 /\ b = 1) \/ (a = 1 /\ b = 2).

Definition sumOver (f : Match.t -> Z) (matches : list Match.t) : Z :=
  fold_right (fun m acc => f m + acc) 0 matches.

(** ** What one counted match adds to each field of a record *)

Definition b2z (b : bool) : Z := if b then 1 else 0.

Definition winnerAward (match_ : Match.t) : Z :=
  let a := setsWon1 (Match.sets match_) in
  let b := setsWon2 (Match.sets match_) in
  if (Z.max a b =? 2) && (Z.min a b =? 0) then 3
  else if (Z.max a b =? 2) && (Z.min a b =? 1) then 2 else 0.

Definition loserAward (match_ : Match.t) : Z :=
  let a := setsWon1 (Match.sets match_) in
  let b := setsWon2 (Match.sets match_) in
  if (Z.max a b =? 2) && (Z.min a b =? 0) then 0
  else if (Z.max a b =? 2) && (Z.min a b =? 1) then 1 else 0.

(** The score sums booked on the winner's and on the loser's object. *)
Definition forWinnerOf (match_ : Match.t) (winnerId : string) : Z :=
  if String.eqb (Team.id (Match.team1 match_)) winnerId
  then scoreSum1 (Match.sets match_) else scoreSum2 (Match.sets match_).

Definition forLoserOf (match_ : Match.t) (winnerId : string) : Z :=
  if String.eqb (Team.id (Match.team1 match_)) winnerId
  then scoreSum2 (Match.sets match_) else scoreSum1 (Match.sets match_).

Section Deltas.
Variable teams : list Team.t.

Definition playedDelta (k : string) (m : Match.t) : Z :=
  if counted teams m
  then b2z (String.eqb k (winnerIdIn m)) + b2z (String.eqb k (loserIdIn m))
  else 0.

Definition winsDelta (k : string) (m : Match.t) : Z :=
  if counted teams m then b2z (String.eqb k (winnerIdIn m)) else 0.

Definition lossesDelta (k : string) (m : Match.t) : Z :=
  if counted teams m then b2z (String.eqb k (loserIdIn m)) else 0.

Definition pointsDelta (k : string) (m : Match.t) : Z :=
  if counted teams m
  then b2z (String.eqb k (winnerIdIn m)) * winnerAward m
       + b2z (String.eqb k (loserIdIn m)) * loserAward m
  else 0.

Definition pointsForDelta (k : string) (m : Match.t) : Z :=
  if counted teams m
  then b2z (String.eqb k (winnerIdIn m)) * forWinnerOf m (winnerIdIn m)
       + b2z (String.eqb k (loserIdIn m)) * forLoserOf m (winnerIdIn m)
  else 0.

Definition pointsAgainstDelta (k : string) (m : Match.t) : Z :=
  if counted teams m
  then b2z (String.eqb k (winnerIdIn m)) * forLoserOf m (winnerIdIn m)
       + b2z (String.eqb k (loserIdIn m)) * forWinnerOf m (winnerIdIn m)
  else 0.
End Deltas.

(** *** Looking a team up in the returned table *)

Definition standingOf (id : string) (l : list Standings.t)
  : option Standings.t :=
  find (fun s => String.eqb (Team.id (Standings.team s)) id) l.

(** [a] may stand before [b] in the table: more points; with equal points,
    more wins; with equal wins too, a larger point difference; with an
    equal point difference too, at least as many points for. *)
Definition ranksBefore (a b : Standings.t) : Prop :=
  Standings.points a > Standings.points b
  \/ (Standings.points a = Standings.points b
      /\ (Standings.wins a > Standings.wins b
          \/ (Standings.wins a = Standings.wins b
              /\ (Standings.pointsDifference a > Standings.pointsDifference b
                  \/ (Standings.pointsDifference a = Standings.pointsDifference b
                      /\ Standings.pointsFor a >= Standings.pointsFor b))))).

(** The set scores of the team with id [k] in a match, and those of its
    opponent, summed over the sets with both scores present. *)
Definition scoreFor (k : string) (m : Match.t) : Z :=
  b2z (String.eqb k (Team.id (Match.team1 m))) * scoreSum1 (Match.sets m)
  + b2z (String.eqb k (Team.id (Match.team2 m))) * scoreSum2 (Match.sets m).

Definition scoreAgainst (k : string) (m : Match.t) : Z :=
  b2z (String.eqb k (Team.id (Match.team1 m))) * scoreSum2 (Match.sets m)
  + b2z (String.eqb k (Team.id (Match.team2 m))) * scoreSum1 (Match.sets m).

(** The winner is one of the two teams of the match, by id. *)
Definition winnerIsSide (m : Match.t) : Prop :=
  forall w, Match.winner m = Some w ->
            Team.id w = Team.id (Match.team1 m)
            \/ Team.id w = Team.id (Match.team2 m).

(** ** Played, wins and losses *)

Definition chargedAsWinner (teams : list Team.t) (k : string) (m : Match.t)
  : bool :=
  counted teams m && String.eqb k (winnerIdIn m).

Definition chargedAsLoser (teams : list Team.t) (k : string) (m : Match.t)
  : bool :=
  counted teams m && String.eqb k (loserIdIn m).

Definition countOf (p : Match.t -> bool) (matches : list Match.t) : Z :=
  Z.of_nat (List.length (filter p matches)).

(** The invariant of a match: it is Finished exactly when it has a
    winner; it has a winner exactly when one of its teams has won at least
    two sets (counting the sets with both scores present); and the winner
    is such a team. *)
Definition resultConsistent (m : Match.t) : Prop :=
  (Match.status m = Finished <-> Match.winner m <> None)
  /\ (Match.winner m <> None <->
      setsWon1 (Match.sets m) >= 2 \/ setsWon2 (Match.sets m) >= 2)
  /\ (forall t, Match.winner m = Some t ->
        (t = Match.team1 m /\ setsWon1 (Match.sets m) >= 2)
        \/ (t = Match.team2 m /\ setsWon2 (Match.sets m) >= 2)).

(** ** Further vocabulary: tables, fixtures and results *)

(** [l1] is [l2] with some elements left out, the order kept. *)
Inductive Subseq {A : Type} : list A -> list A -> Prop :=
| Subseq_nil : Subseq [] []
| Subseq_skip x l1 l2 : Subseq l1 l2 -> Subseq l1 (x :: l2)
| Subseq_keep x l1 l2 : Subseq l1 l2 -> Subseq (x :: l1) (x :: l2).

(** Two records are tied: same points, wins, point difference and points
    for. *)
Definition tiedWith (a b : Standings.t) : bool :=
  (Standings.points a =? Standings.points b)
  && (Standings.wins a =? Standings.wins b)
  && (Standings.pointsDifference a =? Standings.pointsDifference b)
  && (Standings.pointsFor a =? Standings.pointsFor b).

(** The sum of a column of the table. *)
Definition totalOf (f : Standings.t -> Z) (table : list Standings.t) : Z :=
  fold_right (fun s acc => f s + acc) 0 table.

(** The sum of [g] over a list of keys. *)
Definition keySum (g : string -> Z) (keys : list string) : Z :=
  fold_right (fun k acc => g k + acc) 0 keys.

(** The set tally of a match is 2-0 or 2-1, in either direction. *)
Definition decidedTally (m : Match.t) : bool :=
  let a := setsWon1 (Match.sets m) in
  let b := setsWon2 (Match.sets m) in
  ((a =? 2) && ((b =? 0) || (b =? 1))) || ((b =? 2) && ((a =? 0) || (a =? 1))).

(** A side of a fixture is played by the team with the given id. *)
Definition isHome (id : string) (p : Team.t * Team.t) : bool :=
  String.eqb (Team.id (fst p)) id.

Definition isAway (id : string) (p : Team.t * Team.t) : bool :=
  String.eqb (Team.id (snd p)) id.

(** The winner that [handleUpdateMatch] computes from the sets of a match. *)
Definition decideWinner (m : Match.t) : option Team.t :=
  if setsWon1 (Match.sets m) >=? 2 then Some (Match.team1 m)
  else if setsWon2 (Match.sets m) >=? 2 then Some (Match.team2 m)
  else None.

(** The winner and the status of a match are those that
    [handleUpdateMatch] computes from its sets. *)
Definition settled (m : Match.t) : Prop :=
  Match.winner m = decideWinner m
  /\ Match.status m
     = match Match.winner m with Some _ => Finished | None => Pending end.

(** [{ ...match, date }] *)
Definition withDate (date : string) (m : Match.t) : Match.t :=
  {| Match.id := Match.id m;
     Match.categoryId := Match.categoryId m;
     Match.team1 := Match.team1 m;
     Match.team2 := Match.team2 m;
     Match.sets := Match.sets m;
     Match.winner := Match.winner m;
     Match.status := Match.status m;
     Match.date := date |}.

(** The update sent when only the date of a match is edited. *)
Definition dateOnly (date : string) : MatchData :=
  {| newSets := None; newDate := Some date |}.

(** The record [r] with its team replaced by [f] of it. *)
Definition retitle (f : Team.t -> Team.t) (r : Standings.t) : Standings.t :=
  Standings.mk (f (Standings.team r)) (Standings.played r) (Standings.wins r)
    (Standings.losses r) (Standings.points r) (Standings.pointsFor r)
    (Standings.pointsAgainst r) (Standings.pointsDifference r).

(** [{ ...t, name, playerIds }] for the team with the given id. *)
Definition editTeam (id name : string) (playerIds : list string) (t : Team.t)
  : Team.t :=
  if String.eqb (Team.id t) id then Team.mk (Team.id t) name playerIds else t.

(** ** Sequences of handler calls

    The calls that the user interface can make, the file load and the
    three spreadsheet imports apart. *)
Inductive Action :=
| AddPlayer (now : Z) (playerData : PlayerData)
| UpdatePlayer (id : string) (playerData : PlayerData)
| DeletePlayer (id : string)
| AddTeam (now : Z) (name : string) (playerIds : list string)
| UpdateTeam (id name : string) (playerIds : list string)
| DeleteTeam (id : string)
| AddCategory (now : Z) (name : string) (teamIds : list string)
| UpdateCategory (id name : string) (teamIds : list string)
| DeleteCategory (id : string)
| GenerateMatches (rt : Runtime) (twoLegged : bool)
| UpdateMatch (matchId : string) (newMatchData : MatchData)
| SelectCategory (id : option string)
| ViewPlayerProfile (id : string)
| BackToMainView
| NewChampionship
| ToggleMaximize (widgetName : string).

Definition perform (a : Action) (s : App.t) : App.t :=
  match a with
  | AddPlayer now d => handleAddPlayer now d s
  | UpdatePlayer id d => handleUpdatePlayer id d s
  | DeletePlayer id => handleDeletePlayer id s
  | AddTeam now name pids => handleAddTeam now name pids s
  | UpdateTeam id name pids => handleUpdateTeam id name pids s
  | DeleteTeam id => handleDeleteTeam id s
  | AddCategory now name tids => handleAddCategory now name tids s
  | UpdateCategory id name tids => handleUpdateCategory id name tids s
  | DeleteCategory id => handleDeleteCategory id s
  | GenerateMatches rt twoLegged => handleGenerateMatches rt twoLegged s
  | UpdateMatch matchId d => onUpdateMatch matchId d s
  | SelectCategory id => handleSelectCategory id s
  | ViewPlayerProfile id => handleViewPlayerProfile id s
  | BackToMainView => handleBackToMainView s
  | NewChampionship => confirmNewChampionship s
  | ToggleMaximize w => toggleMaximize w s
  end.

Definition run (actions : list Action) (s : App.t) : App.t :=
  fold_left (fun s a => perform a s) actions s.

(** Every stored match belongs to a stored category, is between stored
    teams (by id), and has a winner and a status that agree with its
    sets. *)
Definition matchesReferenced (s : App.t) : Prop :=
  Forall (fun m =>
            In (Match.categoryId m) (map Category.id (App.categories s))
            /\ In (Team.id (Match.team1 m)) (map Team.id (App.teams s))
            /\ In (Team.id (Match.team2 m)) (map Team.id (App.teams s))
            /\ resultConsistent m)
         (App.matches s).

(** ** Scores of the match card *)

(** A score is absent or within the limits of its set. *)
Definition scoreInRange (setIndex : nat) (v : option Z) : Prop :=
  match v with
  | None => True
  | Some z => 0 <= z <= maxScore setIndex
  end.

Definition scoresInRange (sets : list MatchSet.t) : Prop :=
  forall i set, nth_error sets i = Some set ->
    scoreInRange i (MatchSet.team1 set) /\ scoreInRange i (MatchSet.team2 set).

(** The score that the key reads. *)
Definition scoreAt (team : ScoreKey) (set : MatchSet.t) : option Z :=
  match team with
  | KeyTeam1 => MatchSet.team1 set
  | KeyTeam2 => MatchSet.team2 set
  end.

Definition otherKey (team : ScoreKey) : ScoreKey :=
  match team with KeyTeam1 => KeyTeam2 | KeyTeam2 => KeyTeam1 end.

(** ** Heaps in the course of a call *)

(** [h] holds the objects of [h0], at their addresses and as they were. *)
Definition keeps (h0 h : list Obj) : Prop :=
  forall l o, nth_error h0 l = Some o -> nth_error h l = Some o.

(** The standings object at the address of an entry stands for the
    record of the entry; its team is an object of the heap the call started
    with. *)
Definition cellRel (h0 h : list Obj) (e : string * loc)
           (p : string * Standings.t) : Prop :=
  fst e = fst p
  /\ exists so t,
       nth_error h (snd e) = Some (StandingsObject so)
       /\ getTeam h0 (StandingsObj.team so) = Some t
       /\ snd p = toStandings t so.

(** The heap [h] stands for the map [sm]. *)
Record Inv (h0 : list Obj) (mp : loc) (E : list (string * loc))
       (sm : StandingsMap) (h : list Obj) : Prop := {
  inv_keeps : keeps h0 h;
  inv_map : nth_error h mp = Some (MapObj E);
  inv_cells : Forall2 (cellRel h0 h) E sm }.

(** The program [c] does on the heap what [g] does on the map. *)
Definition sim (host : Host) (w0 : World) (h0 : list Obj) (mp : loc)
           (E : list (string * loc)) (c : Js unit)
           (g : StandingsMap -> StandingsMap) : Prop :=
  forall sm h, Inv h0 mp E sm h ->
    exists h', c host (setHeap h w0) = Some (tt, setHeap h' w0)
               /\ Inv h0 mp E (g sm) h'.

(** The assignment [fH] to a standings object is the update [f] of a
    record. *)
Definition compat (fH : StandingsObj.t -> StandingsObj.t)
           (f : Standings.t -> Standings.t) : Prop :=
  (forall so, StandingsObj.team (fH so) = StandingsObj.team so)
  /\ (forall t so, toStandings t (fH so) = f (toStandings t so)).

(** The standings object at [l] is the initial record of the team [t]. *)
Definition initialCell (h0 h : list Obj) (p : string * loc) (t : Team.t)
  : Prop :=
  fst p = Team.id t
  /\ exists tl,
       nth_error h (snd p) = Some (StandingsObject (initialStandingsObj tl))
       /\ getTeam h0 tl = Some t.

(** Two entries with the same key and related values. *)
Definition entryRel {V V' : Type} (Q : V -> V' -> Prop) (e : string * V)
           (p : string * V') : Prop :=
  fst e = fst p /\ Q (snd e) (snd p).

(** The team at an address of the heap the call started with. *)
Definition teamAt (h0 : list Obj) (l : loc) : Team.t :=
  match getTeam h0 l with
  | Some t => t
  | None => Team.mk EmptyString EmptyString []
  end.

(** The record that a standings object stands for. *)
Definition recordOf (h0 : list Obj) (x : loc * StandingsObj.t)
  : Standings.t :=
  toStandings (teamAt h0 (StandingsObj.team (snd x))) (snd x).

(** The world after [k] evaluations of [Date.now()] of a call that
    started after [c0] evaluations and [s0] random sorts. *)
Definition genWorld (c0 s0 : nat) (o0 : list string) (h : list Obj)
           (k : nat) : World :=
  {| heap := h; clockReads := (k + c0)%nat; randomSorts := s0; output := o0 |}.

(** The object at [ml] stands for the match [m], and the array of its
    sets is not the array [matches], which is the first object allocated
    after those of [h0]. *)
Definition matchAt (h0 h : list Obj) (ml : loc) (m : Match.t) : Prop :=
  getMatch h ml = Some m
  /\ forall mo, nth_error h ml = Some (MatchObject mo) ->
                MatchObj.sets mo <> List.length h0.

(** The heap [h] holds the array [matches] with the matches [ms]. *)
Definition GenInv (h0 : list Obj) (ms : list Match.t) (h : list Obj)
  : Prop :=
  keeps h0 h
  /\ exists mlocs,
       nth_error h (List.length h0) = Some (ArrayObj mlocs)
       /\ Forall2 (matchAt h0 h) mlocs ms.

(** The outcome of [c] is the same whatever the clock and the random
    source answer. *)
Definition hostFree {A : Type} (c : Js A) : Prop :=
  forall host host' w, c host w = c host' w.

(** ** Sample data *)

Definition teamA : Team.t := Team.mk "team-a" "Team A" ["p1"; "p2"].
Definition teamB : Team.t := Team.mk "team-b" "Team B" ["p3"; "p4"].
Definition teamC : Team.t := Team.mk "team-c" "Team C" ["p5"; "p6"].
Definition sampleCategory : Category.t :=
  Category.mk "category-1" "Primera" ["team-a"; "team-b"; "team-c"].

Definition playedSet (a b : Z) : MatchSet.t := MatchSet.mk (Some a) (Some b).

Definition finishedMatch (mid : string) (t1 t2 w : Team.t)
           (sets : list MatchSet.t) : Match.t :=
  Match.mk mid "category-1" t1 t2 sets (Some w) Finished EmptyString.

(** Team A beats Team B two sets to one: 18-10, 10-18, 11-5. *)
Definition matchAB : Match.t :=
  finishedMatch "m1" teamA teamB teamA
    [playedSet 18 10; playedSet 10 18; playedSet 11 5].

(** The example of the specification: Team A beats Team B two sets to
    one (18-10, 10-18, 11-5). *)
Definition standingA : Standings.t := Standings.mk teamA 1 1 0 2 39 33 6.
Definition standingB : Standings.t := Standings.mk teamB 1 0 1 1 33 39 (-6).

Definition pendingWithScores : Match.t :=
  Match.mk "m-pending" "category-1" teamA teamB
           [playedSet 18 3; MatchSet.mk (Some 4) None; MatchSet.mk None None]
           None Pending EmptyString.

Definition teamD : Team.t := Team.mk "team-d" "Team D" ["p7"; "p8"].

(** Team A against Team B, with Team D recorded as the winner. *)
Definition matchWonByD : Match.t :=
  finishedMatch "m-d" teamA teamB teamD [playedSet 18 10; playedSet 18 10].

(** Team A against Team B, with Team C, a team of the list, recorded as
    the winner. *)
Definition matchWonByC : Match.t :=
  finishedMatch "m-c" teamA teamB teamC [playedSet 18 10; playedSet 18 10].

(** Team A against itself: the two sides and the winner have the same id. *)
Definition selfMatch : Match.t :=
  finishedMatch "m-self" teamA teamA teamA
    [playedSet 18 10; playedSet 10 18; playedSet 11 5].

Definition pendingAB : Match.t :=
  Match.mk "m1" "category-1" teamA teamB emptySets None Pending EmptyString.

Definition resultAB : MatchData :=
  {| newSets := Some [playedSet 18 10; playedSet 10 18; playedSet 11 5];
     newDate := Some "2025-03-01" |}.

(** A state with two teams in one category, which is the active one. *)
Definition sampleState : App.t :=
  App.mk [] [teamA; teamB; teamC]
         [Category.mk "category-1" "Primera" ["team-a"; "team-b"];
          Category.mk "category-2" "Segunda" ["team-c"]]
         [matchAB;
          Match.mk "m9" "category-2" teamC teamC emptySets None Pending
                   EmptyString]
         (Some "category-1") None None false.

(** A sample heap.

    At the addresses 0 to 2 the three sample teams, at 3 the array of the
    three, at 4 the array of Team A and Team B, at 5 the sample category,
    from 6 to 10 the match of Team A against Team B (its three sets, the
    array of its sets and the match, won by the object at 0), at 11 the
    array of this match. *)
Definition sampleHeap : list Obj :=
  [ TeamObj teamA; TeamObj teamB; TeamObj teamC;
    ArrayObj [0; 1; 2]%nat;
    ArrayObj [0; 1]%nat;
    CategoryObj sampleCategory;
    SetObj (playedSet 18 10); SetObj (playedSet 10 18);
    SetObj (playedSet 11 5);
    ArrayObj [6; 7; 8]%nat;
    MatchObject (MatchObj.mk "m1" "category-1" 0%nat 1%nat 9%nat (Some 0%nat)
                             Finished EmptyString);
    ArrayObj [10]%nat ].

Definition sampleWorld : World :=
  {| heap := sampleHeap; clockReads := 0; randomSorts := 0; output := [] |}.

(** A host whose clock stands at [now] during the call and whose sort
    keeps the array as it is ([reversing = false]) or reverses it
    ([reversing = true]).  An engine that sorts by runs, as V8 does, keeps
    the array when no draw of [Math.random()] is below 0.5 and reverses it
    when every draw is. *)
Definition hostAt (now : Z) (reversing : bool) : Host :=
  {| clockAt := fun _ => now;
     orderAt := fun _ n => if reversing then rev (seq 0 n) else seq 0 n;
     orderAt_perm :=
       fun _ n =>
         if reversing as b
            return Permutation (if b then rev (seq 0 n) else seq 0 n) (seq 0 n)
         then Permutation_sym (Permutation_rev (seq 0 n))
         else Permutation_refl (seq 0 n) |}.

(** * A concrete runtime *)

Section InsertionEngineFacts.
Context {A : Type}.
Variable draw : nat -> bool.

Lemma insertDrawn_perm (x : A) (l : list A) (k : nat) :
  Permutation (fst (insertDrawn draw x l k)) (x :: l).
Proof.
  revert k; induction l as [|y l IH]; intro k; simpl.
  - apply Permutation_refl.
  - destruct (draw k); simpl.
    + apply Permutation_refl.
    + specialize (IH (S k)).
      destruct (insertDrawn draw x l (S k)) as [r k']; simpl in *.
      eapply perm_trans; [apply perm_skip, IH | apply perm_swap].
Qed.

Lemma sortDrawn_perm (l : list A) (k : nat) :
  Permutation (fst (sortDrawn draw l k)) l.
Proof.
  revert k; induction l as [|x l IH]; intro k; simpl.
  - apply perm_nil.
  - specialize (IH k).
    destruct (sortDrawn draw l k) as [r k']; simpl in *.
    eapply perm_trans; [apply insertDrawn_perm | apply perm_skip, IH].
Qed.
End InsertionEngineFacts.

Definition insertionRuntime (clock : nat -> Z) (draw : nat -> bool) : Runtime :=
  {| dateNow := clock;
     randomSort := fun l => fst (sortDrawn draw l 0%nat);
     randomSort_perm := fun l => sortDrawn_perm draw l 0%nat |}.

(** Two runtimes: the same draws and clocks one millisecond apart. *)
Definition runtimeAt (start : Z) (draw : nat -> bool) : Runtime :=
  insertionRuntime (fun k => (start + Z.of_nat k)%Z) draw.

(** * The host as the runtime of a call *)

Lemma permute_seq {A : Type} (l : list A) :
  permute (seq 0 (List.length l)) l = l.
Proof.
  unfold permute.
  assert (H : forall (pre : list A),
             flat_map (fun i => match nth_error (pre ++ l) i with
                                | Some x => [x]
                                | None => []
                                end)
                      (seq (List.length pre) (List.length l)) = l).
  { induction l as [|x l IH]; intro pre; [reflexivity|].
    cbn [List.length seq flat_map].
    rewrite nth_error_app2, Nat.sub_diag by lia. cbn [nth_error app].
    f_equal. specialize (IH (pre ++ [x])).
    rewrite <- app_assoc, length_app in IH. cbn [List.length app] in IH.
    now rewrite Nat.add_1_r in IH. }
  exact (H []).
Qed.

Lemma permute_perm {A : Type} (order : list nat) (l : list A) :
  Permutation order (seq 0 (List.length l)) -> Permutation (permute order l) l.
Proof.
  intro H. rewrite <- (permute_seq l) at 2.
  unfold permute. now apply Permutation_flat_map.
Qed.

(** The runtime of a call that starts after [c0] evaluations of
    [Date.now()] and [s0] random sorts. *)
Definition runtimeOf (host : Host) (c0 s0 : nat) : Runtime :=
  {| dateNow := fun k => clockAt host (k + c0)%nat;
     randomSort := fun l => permute (orderAt host s0 (List.length l)) l;
     randomSort_perm :=
       fun l => permute_perm _ l (orderAt_perm host s0 (List.length l)) |}.

(** * Properties of [generateRoundRobinMatches] *)

Local Open Scope nat_scope.

Section GenerateFacts.
Variable rt : Runtime.
Variable category : Category.t.
Variable twoLegged : bool.

Lemma stamp_app k l1 l2 :
  stamp rt category k (l1 ++ l2)
  = stamp rt category k l1 ++ stamp rt category (k + List.length l1) l2.
Proof.
  revert k; induction l1 as [|s l1 IH]; intro k; simpl.
  - now rewrite Nat.add_0_r.
  - rewrite IH. now rewrite Nat.add_succ_r.
Qed.

Lemma pushPair_stamp i ti j tj acc k :
  pushPair rt category twoLegged i ti j tj (acc, k)
  = (acc ++ stamp rt category k (pairSlots twoLegged i ti j tj),
     k + List.length (pairSlots twoLegged i ti j tj)).
Proof.
  unfold pushPair, pairSlots. destruct twoLegged; simpl.
  - rewrite <- app_assoc. simpl. f_equal. lia.
  - f_equal. lia.
Qed.

Lemma innerLoop_stamp i ti rest : forall j acc k,
  innerLoop rt category twoLegged i ti j rest (acc, k)
  = (acc ++ stamp rt category k (innerSlots twoLegged i ti j rest),
     k + List.length (innerSlots twoLegged i ti j rest)).
Proof.
  induction rest as [|tj rest IH]; intros j acc k.
  - simpl. now rewrite app_nil_r, Nat.add_0_r.
  - cbn [innerLoop innerSlots]. rewrite pushPair_stamp, IH.
    rewrite stamp_app, length_app, <- app_assoc. f_equal. lia.
Qed.

Lemma outerLoop_stamp ts : forall i acc k,
  outerLoop rt category twoLegged i ts (acc, k)
  = (acc ++ stamp rt category k (outerSlots twoLegged i ts),
     k + List.length (outerSlots twoLegged i ts)).
Proof.
  induction ts as [|ti rest IH]; intros i acc k.
  - simpl. now rewrite app_nil_r, Nat.add_0_r.
  - cbn [outerLoop outerSlots]. rewrite innerLoop_stamp, IH.
    rewrite stamp_app, length_app, <- app_assoc. f_equal. lia.
Qed.

Lemma stamp_sides l : forall k,
  map sides (stamp rt category k l) = map slotSides l.
Proof. induction l as [|s l IH]; intro k; simpl; [|rewrite IH]; reflexivity. Qed.

Lemma stamp_length l : forall k,
  List.length (stamp rt category k l) = List.length l.
Proof. induction l as [|s l IH]; intro k; simpl; [|rewrite IH]; reflexivity. Qed.

Lemma innerSlots_sides i ti rest : forall j,
  map slotSides (innerSlots twoLegged i ti j rest)
  = flat_map (legs twoLegged ti) rest.
Proof.
  induction rest as [|tj rest IH]; intro j; simpl; [reflexivity|].
  rewrite map_app, IH. f_equal.
  unfold pairSlots, legs. now destruct twoLegged.
Qed.

Lemma outerSlots_sides ts : forall i,
  map slotSides (outerSlots twoLegged i ts) = pairsOf twoLegged ts.
Proof.
  induction ts as [|ti rest IH]; intro i; simpl; [reflexivity|].
  now rewrite map_app, innerSlots_sides, IH.
Qed.

Lemma flat_map_seq_shift {B : Type} (f : nat -> list B) a n :
  flat_map f (seq (S a) n) = flat_map (fun j => f (S j)) (seq a n).
Proof.
  rewrite <- seq_shift. induction (seq a n) as [|x l IH]; simpl; [|rewrite IH];
    reflexivity.
Qed.

Lemma flat_map_nth_seq {B : Type} (f : Team.t -> list B) d (l : list Team.t) :
  flat_map (fun j => f (nth j l d)) (seq 0 (List.length l)) = flat_map f l.
Proof.
  induction l as [|t l IH]; [reflexivity|].
  cbn [List.length seq flat_map nth]. rewrite flat_map_seq_shift.
  cbn [nth]. now rewrite IH.
Qed.

Lemma pairsOf_indexPairs d ts :
  pairsOf twoLegged ts = indexPairs twoLegged d ts.
Proof.
  unfold indexPairs. induction ts as [|t rest IH]; [reflexivity|].
  cbn [pairsOf List.length seq flat_map]. f_equal.
  - cbn [Nat.sub]. rewrite Nat.sub_0_r, flat_map_seq_shift.
    cbn [nth]. symmetry. apply (flat_map_nth_seq (legs twoLegged t)).
  - rewrite IH, flat_map_seq_shift.
    apply flat_map_ext; intro i.
    cbn [Nat.sub]. now rewrite (flat_map_seq_shift _ (S i)).
Qed.

Lemma legs_length a b :
  List.length (legs twoLegged a b) = if twoLegged then 2 else 1.
Proof. unfold legs. now destruct twoLegged. Qed.

Lemma flat_map_legs_length t rest :
  List.length (flat_map (legs twoLegged t) rest)
  = (if twoLegged then 2 else 1) * List.length rest.
Proof.
  induction rest as [|u rest IH]; simpl; [lia|].
  rewrite length_app, IH, legs_length. lia.
Qed.

Lemma pairsOf_length ts :
  2 * List.length (pairsOf twoLegged ts)
  = (if twoLegged then 2 else 1) * (List.length ts * (List.length ts - 1)).
Proof.
  induction ts as [|t rest IH]; simpl List.length; [lia|].
  cbn [pairsOf]. rewrite length_app, flat_map_legs_length.
  destruct twoLegged; nia.
Qed.

Lemma generate_unfold teams :
  generateRoundRobinMatches rt teams category twoLegged
  = if List.length teams <? 2 then []
    else randomSort rt (stamp rt category 0 (outerSlots twoLegged 0 teams)).
Proof.
  unfold generateRoundRobinMatches. now rewrite outerLoop_stamp.
Qed.

Lemma generate_perm teams :
  Permutation (generateRoundRobinMatches rt teams category twoLegged)
              (stamp rt category 0 (outerSlots twoLegged 0 teams)).
Proof.
  rewrite generate_unfold.
  destruct (Nat.ltb_spec (List.length teams) 2) as [H|H].
  - destruct teams as [|t [|u r]]; simpl in *; try lia; constructor.
  - apply randomSort_perm.
Qed.

End GenerateFacts.

(** C1. For [N] input teams, [generateRoundRobinMatches] returns
    [N*(N-1)/2] matches when [twoLegged] is false and [N*(N-1)] when it is
    true; the sides (team1, team2) of the returned matches are, up to order,
    those of the unordered pairs of positions [i < j], once per pair, and
    with [twoLegged] twice per pair with the sides swapped in the second
    leg; for [N < 2] the result is the empty list. *)
Theorem generateRoundRobinMatches_pairs :
  forall (rt : Runtime) (category : Category.t) (twoLegged : bool)
         (teams : list Team.t) (d : Team.t),
    let N := List.length teams in
    let r := generateRoundRobinMatches rt teams category twoLegged in
    List.length r = (if twoLegged then N * (N - 1) else N * (N - 1) / 2)
    /\ Permutation (map sides r) (indexPairs twoLegged d teams)
    /\ (N < 2 -> r = []).
Proof.
  intros rt category twoLegged teams d N r.
  pose proof (generate_perm rt category twoLegged teams) as HP.
  fold r in HP. split; [|split].
  - rewrite (Permutation_length HP), stamp_length.
    rewrite <- (length_map (slotSides)), outerSlots_sides.
    pose proof (pairsOf_length twoLegged teams) as HL. fold N in HL.
    destruct twoLegged.
    + lia.
    + rewrite Nat.mul_1_l in HL. rewrite <- HL.
      now rewrite Nat.mul_comm, Nat.div_mul.
  - rewrite <- (pairsOf_indexPairs twoLegged d).
    rewrite <- (outerSlots_sides twoLegged teams 0).
    rewrite <- (stamp_sides rt category _ 0).
    now apply Permutation_map.
  - intro H. subst r. unfold generateRoundRobinMatches.
    apply Nat.ltb_lt in H. fold N. now rewrite H.
Qed.

(** ** Identifiers *)

Lemma string_append_assoc (a b c : string) :
  ((a ++ b) ++ c = a ++ (b ++ c))%string.
Proof. induction a as [|x a IH]; simpl; [|rewrite IH]; reflexivity. Qed.

Lemma hasDash_app_dash (u v : string) : hasDash (u ++ String "-" v) = true.
Proof.
  induction u as [|c u IH]; simpl; [reflexivity|].
  rewrite IH. apply orb_true_r.
Qed.

(** A string is split in one way only at its last dash. *)
Lemma append_dash_inj (a : string) : forall (b x y : string),
  hasDash x = false -> hasDash y = false ->
  (a ++ String "-" x = b ++ String "-" y)%string -> a = b /\ x = y.
Proof.
  induction a as [|c a IH]; intros [|c' b] x y Hx Hy E; simpl in E.
  - injection E as E. now split.
  - injection E as _ E. rewrite E, hasDash_app_dash in Hx. discriminate.
  - injection E as _ E. rewrite <- E, hasDash_app_dash in Hy. discriminate.
  - injection E as Ec E. destruct (IH b x y Hx Hy E) as [-> ->].
    now rewrite Ec.
Qed.

Lemma string_of_uint_noDash d : hasDash (NilEmpty.string_of_uint d) = false.
Proof. induction d; simpl; assumption || reflexivity. Qed.

Lemma string_of_nat_noDash n : hasDash (string_of_nat n) = false.
Proof. apply string_of_uint_noDash. Qed.

Lemma string_of_nat_inj n n' : string_of_nat n = string_of_nat n' -> n = n'.
Proof.
  unfold string_of_nat. intro E.
  apply Unsigned.to_uint_inj.
  pose proof (NilEmpty.usu (Nat.to_uint n)) as H1.
  pose proof (NilEmpty.usu (Nat.to_uint n')) as H2.
  rewrite E in H1. rewrite H1 in H2. now injection H2.
Qed.

Lemma legString_noDash l : hasDash (legString l) = false.
Proof. now destruct l. Qed.

Lemma legString_inj l l' : legString l = legString l' -> l = l'.
Proof. destruct l, l'; simpl; intro E; try reflexivity; discriminate. Qed.

Lemma matchIdOf_split now a b leg :
  matchIdOf now a b leg
  = (((("match-" ++ string_of_Z now) ++ String "-" (string_of_nat a))
        ++ String "-" (string_of_nat b)) ++ String "-" leg)%string.
Proof.
  unfold matchIdOf. rewrite !string_append_assoc. reflexivity.
Qed.

(** The identifier determines the two indices and the leg, whatever the
    clock readings were. *)
Lemma matchIdOf_inj now now' a a' b b' l l' :
  matchIdOf now a b (legString l) = matchIdOf now' a' b' (legString l') ->
  (a, b, l) = (a', b', l').
Proof.
  rewrite !matchIdOf_split. intro E.
  apply append_dash_inj in E; try apply legString_noDash.
  destruct E as [E El]. apply legString_inj in El.
  apply append_dash_inj in E; try apply string_of_nat_noDash.
  destruct E as [E Eb]. apply string_of_nat_inj in Eb.
  apply append_dash_inj in E; try apply string_of_nat_noDash.
  destruct E as [_ Ea]. apply string_of_nat_inj in Ea.
  now subst.
Qed.

Section GenerateIds.
Variable rt : Runtime.
Variable category : Category.t.
Variable twoLegged : bool.

Lemma innerSlots_bounds i ti rest : forall j s,
  In s (innerSlots twoLegged i ti j rest) ->
  (slotSecondLeg s = false /\ slotA s = i /\ j <= slotB s)
  \/ (slotSecondLeg s = true /\ slotB s = i /\ j <= slotA s).
Proof.
  induction rest as [|tj rest IH]; intros j s H; cbn [innerSlots] in H;
    [contradiction|].
  apply in_app_or in H. destruct H as [H|H].
  - unfold pairSlots in H. destruct H as [<-|H]; [left; simpl; lia|].
    destruct twoLegged; [|contradiction].
    destruct H as [<-|[]]. right; simpl; lia.
  - apply IH in H. destruct H as [[? [? ?]]|[? [? ?]]]; [left|right];
      repeat split; auto; lia.
Qed.

Lemma outerSlots_bounds ts : forall i s,
  In s (outerSlots twoLegged i ts) ->
  (slotSecondLeg s = false /\ i <= slotA s)
  \/ (slotSecondLeg s = true /\ i <= slotB s).
Proof.
  induction ts as [|ti rest IH]; intros i s H; simpl in H; [contradiction|].
  apply in_app_or in H. destruct H as [H|H].
  - apply innerSlots_bounds in H.
    destruct H as [[? [? ?]]|[? [? ?]]]; [left|right]; split; auto; lia.
  - apply IH in H.
    destruct H as [[? ?]|[? ?]]; [left|right]; split; auto; lia.
Qed.

Lemma innerSlots_NoDup i ti rest : forall j,
  NoDup (map slotKey (innerSlots twoLegged i ti j rest)).
Proof.
  induction rest as [|tj rest IH]; intro j; cbn [innerSlots];
    [constructor|].
  rewrite map_app. apply NoDup_app.
  - unfold pairSlots. destruct twoLegged; simpl.
    + constructor; [|constructor; [intros []|constructor]].
      intros [E|[]]. discriminate.
    + constructor; [intros []|constructor].
  - apply IH.
  - intros key H1 H2.
    apply in_map_iff in H2. destruct H2 as [s [<- Hs]].
    apply innerSlots_bounds in Hs.
    apply in_map_iff in H1. destruct H1 as [p [E Hp]].
    unfold slotKey in E. injection E as EA EB EL.
    unfold pairSlots in Hp. destruct Hp as [<-|Hp]; simpl in *.
    + destruct Hs as [[? [? ?]]|[? [? ?]]]; [lia|congruence].
    + destruct twoLegged; [|contradiction].
      destruct Hp as [<-|[]]; simpl in *.
      destruct Hs as [[? [? ?]]|[? [? ?]]]; [congruence|lia].
Qed.

Lemma outerSlots_NoDup ts : forall i,
  NoDup (map slotKey (outerSlots twoLegged i ts)).
Proof.
  induction ts as [|ti rest IH]; intro i; simpl; [constructor|].
  rewrite map_app. apply NoDup_app.
  - apply innerSlots_NoDup.
  - apply IH.
  - intros key H1 H2.
    apply in_map_iff in H2. destruct H2 as [s [<- Hs]].
    apply outerSlots_bounds in Hs.
    apply in_map_iff in H1. destruct H1 as [p [E Hp]].
    apply innerSlots_bounds in Hp.
    unfold slotKey in E. injection E as EA EB EL.
    destruct Hp as [[? [? ?]]|[? [? ?]]], Hs as [[? ?]|[? ?]];
      try congruence; lia.
Qed.

Lemma in_stamp l : forall k m,
  In m (stamp rt category k l) ->
  exists k' s, In s l /\ m = stampSlot rt category k' s.
Proof.
  induction l as [|s l IH]; intros k m H; simpl in H; [contradiction|].
  destruct H as [<-|H].
  - exists k, s. split; [now left|reflexivity].
  - destruct (IH _ _ H) as [k' [s' [Hs ->]]].
    exists k', s'. split; [now right|reflexivity].
Qed.

Lemma stamp_NoDup l : NoDup (map slotKey l) ->
  forall k, NoDup (map Match.id (stamp rt category k l)).
Proof.
  induction l as [|s l IH]; intros Hnd k; simpl; [constructor|].
  simpl in Hnd. apply NoDup_cons_iff in Hnd. destruct Hnd as [Hnotin Hnd].
  constructor; [|now apply IH].
  intro Hin. apply in_map_iff in Hin. destruct Hin as [m [E Hm]].
  apply in_stamp in Hm. destruct Hm as [k' [s' [Hs' ->]]].
  simpl in E. apply matchIdOf_inj in E.
  apply Hnotin. apply in_map_iff. exists s'. split; [exact E|exact Hs'].
Qed.
End GenerateIds.

(** C9. Every match returned by [generateRoundRobinMatches] has exactly
    three sets, each with both scores unset, no winner, status Pending, an
    empty date and the id of the given category as its categoryId; and no
    two matches of the returned list have the same identifier. *)
Theorem generateRoundRobinMatches_fresh :
  forall (rt : Runtime) (category : Category.t) (twoLegged : bool)
         (teams : list Team.t),
    let r := generateRoundRobinMatches rt teams category twoLegged in
    Forall (fun m =>
              List.length (Match.sets m) = 3
              /\ Forall (fun s => MatchSet.team1 s = None
                                  /\ MatchSet.team2 s = None) (Match.sets m)
              /\ Match.winner m = None
              /\ Match.status m = Pending
              /\ Match.date m = EmptyString
              /\ Match.categoryId m = Category.id category) r
    /\ NoDup (map Match.id r).
Proof.
  intros rt category twoLegged teams r.
  pose proof (generate_perm rt category twoLegged teams) as HP. fold r in HP.
  split.
  - apply Forall_forall. intros m Hm.
    apply (Permutation_in _ HP) in Hm. apply in_stamp in Hm.
    destruct Hm as [k [s [_ ->]]]. simpl.
    repeat split; repeat constructor.
  - apply Permutation_sym in HP.
    apply (Permutation_NoDup (Permutation_map Match.id HP)).
    apply stamp_NoDup, outerSlots_NoDup.
Qed.

(** * Properties of the map and of the sort *)

Local Open Scope Z_scope.

Section JsMapFacts.
Context {V : Type}.
Implicit Types (m : list (string * V)) (k : string).

Lemma Map_get_None k m : Map_get k m = None <-> ~ In k (keysOf m).
Proof.
  induction m as [|[k' v] m IH]; simpl.
  - split; [intros _ []|reflexivity].
  - destruct (String.eqb_spec k' k) as [->|Hne].
    + split; [discriminate|]. intro H. exfalso. apply H. now left.
    + rewrite IH. split.
      * intros H [E|Hin]; [now apply Hne|now apply H].
      * intros H Hin. apply H. now right.
Qed.

Lemma Map_get_Some_in k m : In k (keysOf m) -> exists v, Map_get k m = Some v.
Proof.
  intro H. destruct (Map_get k m) as [v|] eqn:E; [now exists v|].
  apply Map_get_None in E. contradiction.
Qed.

Lemma Map_set_keys_in k v m k' :
  In k' (keysOf (Map_set k v m)) <-> k' = k \/ In k' (keysOf m).
Proof.
  induction m as [|[k0 v0] m IH]; simpl.
  - split; [intros [<-|[]]; now left | intros [->|[]]; now left].
  - destruct (String.eqb_spec k0 k) as [->|Hne]; simpl.
    + unfold keysOf. intuition congruence.
    + rewrite IH. unfold keysOf. tauto.
Qed.

Lemma Map_set_NoDup k v m : NoDup (keysOf m) -> NoDup (keysOf (Map_set k v m)).
Proof.
  induction m as [|[k0 v0] m IH]; simpl; intro H.
  - constructor; [intros []|constructor].
  - apply NoDup_cons_iff in H. destruct H as [Hn Hd].
    destruct (String.eqb_spec k0 k) as [->|Hne]; simpl.
    + now constructor.
    + constructor; [|now apply IH].
      fold (keysOf (Map_set k v m)). rewrite Map_set_keys_in.
      intros [E|Hin]; [now apply Hne|now apply Hn].
Qed.

Lemma Map_set_in k v m k' v' :
  In (k', v') (Map_set k v m) -> (k' = k /\ v' = v) \/ In (k', v') m.
Proof.
  induction m as [|[k0 v0] m IH]; simpl.
  - intros [E|[]]. injection E as <- <-. now left.
  - destruct (String.eqb_spec k0 k) as [->|Hne]; simpl.
    + intros [E|H]; [injection E as <- <-; now left|auto].
    + intros [E|H]; [auto|]. destruct (IH H); auto.
Qed.

Lemma Map_new_from (entries : list (string * V)) : forall m,
  NoDup (keysOf m) ->
  let r := fold_left (fun m e => Map_set (fst e) (snd e) m) entries m in
  NoDup (keysOf r)
  /\ (forall k, In k (keysOf r) <-> In k (keysOf m) \/ In k (map fst entries))
  /\ (forall e, In e r -> In e m \/ In e entries).
Proof.
  induction entries as [|[k v] entries IH]; intros m Hnd; simpl.
  - repeat split; auto; tauto.
  - destruct (IH (Map_set k v m) (Map_set_NoDup k v m Hnd)) as [H1 [H2 H3]].
    split; [exact H1|split].
    + intro k'. rewrite H2, Map_set_keys_in. intuition.
    + intros [k' v'] He. destruct (H3 _ He) as [H|H]; [|auto].
      apply Map_set_in in H. destruct H as [[-> ->]|H]; auto.
Qed.

Lemma Map_new_NoDup (entries : list (string * V)) :
  NoDup (keysOf (Map_new entries)).
Proof. apply (Map_new_from entries []). constructor. Qed.

Lemma Map_new_keys (entries : list (string * V)) k :
  In k (keysOf (Map_new entries)) <-> In k (map fst entries).
Proof.
  destruct (Map_new_from entries [] (NoDup_nil _)) as [_ [H _]].
  unfold Map_new. rewrite H. simpl. tauto.
Qed.

Lemma Map_new_in (entries : list (string * V)) e :
  In e (Map_new entries) -> In e entries.
Proof.
  destruct (Map_new_from entries [] (NoDup_nil _)) as [_ [_ H]].
  intro He. destruct (H e He) as [[]|]; assumption.
Qed.

Lemma mapVals_mapVals g h m :
  mapVals g (mapVals h m) = mapVals (fun k v => g k (h k v)) m.
Proof. unfold mapVals. rewrite map_map. reflexivity. Qed.

Lemma mapVals_ext g h m :
  (forall k v, g k v = h k v) -> mapVals g m = mapVals h m.
Proof.
  intro H. unfold mapVals. apply map_ext. intros [k v]. simpl. now rewrite H.
Qed.

Lemma mapAt_keys target f m : keysOf (mapAt target f m) = keysOf m.
Proof. unfold keysOf, mapAt, mapVals. rewrite map_map. reflexivity. Qed.

Lemma mapAt_absent target f m : ~ In target (keysOf m) -> mapAt target f m = m.
Proof.
  induction m as [|[k v] m IH]; simpl; intro H; [reflexivity|].
  unfold onKey at 1, applyIf. simpl.
  destruct (String.eqb_spec k target) as [->|Hne]; [exfalso; apply H; now left|].
  f_equal. apply IH. intro Hin. apply H. now right.
Qed.

Lemma Map_mutate_mapAt target f m :
  NoDup (keysOf m) -> Map_mutate target f m = mapAt target f m.
Proof.
  unfold Map_mutate.
  induction m as [|[k v] m IH]; simpl; intro Hnd; [reflexivity|].
  apply NoDup_cons_iff in Hnd. destruct Hnd as [Hn Hd].
  unfold onKey at 1, applyIf. simpl.
  destruct (String.eqb_spec k target) as [->|Hne].
  - f_equal. symmetry. now apply mapAt_absent.
  - specialize (IH Hd). destruct (Map_get target m) as [v'|] eqn:E.
    + simpl. apply String.eqb_neq in Hne. rewrite ?Hne. now f_equal.
    + now f_equal.
Qed.

End JsMapFacts.

Section SortByFacts.
Context {A : Type}.
Variable compareFn : A -> A -> Z.

Lemma insertBy_perm x l : Permutation (insertBy compareFn x l) (x :: l).
Proof.
  induction l as [|y l IH]; simpl; [apply Permutation_refl|].
  destruct (compareFn x y <=? 0); [apply Permutation_refl|].
  eapply perm_trans; [apply perm_skip, IH | apply perm_swap].
Qed.

Lemma sortBy_perm l : Permutation (sortBy compareFn l) l.
Proof.
  induction l as [|x l IH]; simpl; [apply perm_nil|].
  eapply perm_trans; [apply insertBy_perm | apply perm_skip, IH].
Qed.

(** With a comparator that is total and transitive, the result is sorted. *)
Hypothesis compare_total : forall x y, 0 < compareFn x y -> compareFn y x <= 0.
Hypothesis compare_trans :
  forall x y z, compareFn x y <= 0 -> compareFn y z <= 0 -> compareFn x z <= 0.

Lemma insertBy_sorted x l :
  StronglySorted (fun a b => compareFn a b <= 0) l ->
  StronglySorted (fun a b => compareFn a b <= 0) (insertBy compareFn x l).
Proof.
  induction l as [|y l IH]; simpl; intro H.
  - constructor; constructor.
  - apply StronglySorted_inv in H. destruct H as [Hs Hall].
    destruct (Z.leb_spec (compareFn x y) 0) as [Hle|Hgt].
    + constructor; [constructor; assumption|].
      constructor; [exact Hle|].
      apply Forall_forall. intros z Hz.
      rewrite Forall_forall in Hall. eauto.
    + constructor; [now apply IH|].
      apply Forall_forall. intros z Hz.
      apply (Permutation_in _ (insertBy_perm x l)) in Hz.
      destruct Hz as [<-|Hz]; [now apply compare_total|].
      rewrite Forall_forall in Hall. now apply Hall.
Qed.

Lemma sortBy_sorted l :
  StronglySorted (fun a b => compareFn a b <= 0) (sortBy compareFn l).
Proof.
  induction l as [|x l IH]; simpl; [constructor|now apply insertBy_sorted].
Qed.
End SortByFacts.

(** * Properties of [calculateStandings] *)

(** Turns the innermost mutation of the goal into its entry-wise form. *)
Ltac mutate_step :=
  match goal with
  | |- context [Map_mutate ?t ?f ?m] =>
      lazymatch m with
      | context [@Map_mutate] => fail
      | _ => rewrite (Map_mutate_mapAt t f m)
               by (rewrite ?mapAt_keys; assumption)
      end
  end.

Lemma chargeMatch_map match_ winnerId loserId (sm : StandingsMap) :
  NoDup (keysOf sm) ->
  chargeMatch match_ winnerId loserId sm
  = map (fun e => (fst e, chargeRec match_ winnerId loserId (fst e) (snd e))) sm.
Proof.
  intro Hnd.
  change (chargeMatch match_ winnerId loserId sm
          = mapVals (chargeRec match_ winnerId loserId) sm).
  unfold chargeMatch, chargeRec. cbv zeta.
  set (tl := tallySets (Match.sets match_)).
  destruct (String.eqb (Team.id (Match.team1 match_)) winnerId);
    (destruct ((Z.max (team1SetWins tl) (team2SetWins tl) =? 2)
               && (Z.min (team1SetWins tl) (team2SetWins tl) =? 0));
     [|destruct ((Z.max (team1SetWins tl) (team2SetWins tl) =? 2)
                 && (Z.min (team1SetWins tl) (team2SetWins tl) =? 1))]);
    repeat mutate_step;
    unfold mapAt; rewrite !mapVals_mapVals; apply mapVals_ext;
    intros k s; reflexivity.
Qed.

Lemma hasTeam_In teams id :
  hasTeam teams id = true <-> In id (map Team.id teams).
Proof.
  unfold hasTeam. rewrite existsb_exists, in_map_iff.
  split; intros [t [H1 H2]]; exists t.
  - apply String.eqb_eq in H2. now split.
  - split; [assumption|now apply String.eqb_eq].
Qed.

Lemma initialMap_keys teams k :
  In k (keysOf (initialMap teams)) <-> hasTeam teams k = true.
Proof.
  unfold initialMap. rewrite Map_new_keys, map_map, hasTeam_In. reflexivity.
Qed.

Lemma initialMap_in teams k s :
  In (k, s) (initialMap teams) ->
  exists t, In t teams /\ k = Team.id t /\ s = initialStandings t.
Proof.
  intro H. apply Map_new_in, in_map_iff in H.
  destruct H as [t [E Ht]]. injection E as <- <-. now exists t.
Qed.

Section StandingsFold.
Variable teams : list Team.t.

Lemma Map_get_hasTeam sm k :
  keysAreTeams teams sm ->
  (hasTeam teams k = true -> exists v, Map_get k sm = Some v)
  /\ (hasTeam teams k = false -> Map_get k sm = None).
Proof.
  intros [_ Hk]. split; intro H.
  - apply Map_get_Some_in, Hk, H.
  - apply Map_get_None. rewrite Hk, H. discriminate.
Qed.

Lemma loserIdOf_relevant match_ winnerId :
  isRelevant teams match_ = true ->
  hasTeam teams (loserIdOf match_ winnerId) = true.
Proof.
  unfold isRelevant, loserIdOf. intro H. apply andb_prop in H.
  destruct H. now destruct (String.eqb _ _).
Qed.

(** One step of the loop, for a match that passed the filter. *)
Lemma countMatch_map sm match_ :
  keysAreTeams teams sm -> isRelevant teams match_ = true ->
  countMatch sm match_
  = map (fun e => (fst e, countRec teams match_ (fst e) (snd e))) sm.
Proof.
  intros Hk Hrel. unfold countMatch, countRec, counted, loserIdIn, winnerIdIn.
  rewrite Hrel. simpl andb.
  assert (Hid : sm = map (fun e : string * Standings.t => (fst e, snd e)) sm).
  { rewrite <- (map_id sm) at 1. apply map_ext. now intros []. }
  destruct (Match.status match_); simpl; [exact Hid|].
  destruct (Match.winner match_) as [w|]; [|exact Hid].
  unfold winnerIdOf.
  destruct (hasTeam teams (Team.id w)) eqn:Hw.
  - destruct (proj1 (Map_get_hasTeam sm _ Hk) Hw) as [v ->].
    destruct (proj1 (Map_get_hasTeam sm _ Hk)
                (loserIdOf_relevant match_ (Team.id w) Hrel)) as [v' ->].
    apply chargeMatch_map, Hk.
  - rewrite (proj2 (Map_get_hasTeam sm _ Hk) Hw). exact Hid.
Qed.

Lemma countRec_irrelevant match_ k s :
  isRelevant teams match_ = false -> countRec teams match_ k s = s.
Proof. unfold countRec, counted. now intros ->. Qed.

Lemma fold_countMatch_map matches : forall sm,
  keysAreTeams teams sm ->
  fold_left countMatch (filter (isRelevant teams) matches) sm
  = map (fun e => (fst e, recordFold teams matches (fst e) (snd e))) sm.
Proof.
  unfold recordFold.
  induction matches as [|m matches IH]; intros sm Hk; simpl.
  - rewrite <- (map_id sm) at 1. apply map_ext. now intros [].
  - destruct (isRelevant teams m) eqn:Hrel; simpl.
    + rewrite (countMatch_map sm m Hk Hrel), IH.
      * rewrite map_map. reflexivity.
      * destruct Hk as [Hnd Hk]. unfold keysAreTeams, keysOf.
        rewrite map_map. simpl. split; assumption.
    + rewrite IH by exact Hk. apply map_ext. intros [k s]. simpl.
      now rewrite countRec_irrelevant.
Qed.

Lemma initialMap_keysAreTeams : keysAreTeams teams (initialMap teams).
Proof.
  split; [apply Map_new_NoDup|apply initialMap_keys].
Qed.

Lemma standingsMapOf_records matches :
  standingsMapOf teams matches
  = map (fun e => (fst e, recordFold teams matches (fst e) (snd e)))
        (initialMap teams).
Proof.
  unfold standingsMapOf. apply fold_countMatch_map, initialMap_keysAreTeams.
Qed.

(** Every returned record is the record of a team of the list, folded
    over the matches from its initial value. *)
Lemma calculateStandings_in matches s :
  In s (calculateStandings teams matches) <->
  exists t, In (Team.id t, initialStandings t) (initialMap teams)
            /\ s = recordFold teams matches (Team.id t) (initialStandings t).
Proof.
  unfold calculateStandings.
  split.
  - intro H. apply (Permutation_in _ (sortBy_perm _ _)) in H.
    unfold Map_values in H. rewrite standingsMapOf_records, map_map in H.
    apply in_map_iff in H. destruct H as [[k s0] [E He]]. simpl in E.
    destruct (initialMap_in _ _ _ He) as [t [_ [-> ->]]].
    exists t. split; [exact He|now symmetry].
  - intros [t [He ->]].
    apply (Permutation_in _ (Permutation_sym (sortBy_perm _ _))).
    unfold Map_values. rewrite standingsMapOf_records, map_map.
    apply in_map_iff. now exists (Team.id t, initialStandings t).
Qed.
End StandingsFold.

Lemma sumOver_app f l1 l2 : sumOver f (l1 ++ l2) = sumOver f l1 + sumOver f l2.
Proof. induction l1 as [|m l1 IH]; simpl; [|rewrite IH]; lia. Qed.

Lemma sumOver_insert f l1 m l2 :
  sumOver f (l1 ++ m :: l2) = sumOver f (l1 ++ l2) + f m.
Proof. rewrite !sumOver_app. simpl. lia. Qed.

Lemma sumOver_ext_in f g l :
  (forall m, In m l -> f m = g m) -> sumOver f l = sumOver g l.
Proof.
  induction l as [|m l IH]; simpl; intro H; [reflexivity|].
  rewrite (H m) by now left. rewrite IH; [reflexivity|].
  intros m' Hm'. apply H. now right.
Qed.

Lemma sumOver_filter (p : Match.t -> bool) f l :
  sumOver (fun m => if p m then f m else 0) l = sumOver f (filter p l).
Proof.
  induction l as [|m l IH]; simpl; [reflexivity|].
  destruct (p m); simpl; rewrite IH; lia.
Qed.

Lemma tallySets_from sets : forall acc,
  fold_left tallySet sets acc
  = {| team1SetWins := team1SetWins acc + setsWon1 sets;
       team2SetWins := team2SetWins acc + setsWon2 sets;
       team1TotalPoints := team1TotalPoints acc + scoreSum1 sets;
       team2TotalPoints := team2TotalPoints acc + scoreSum2 sets |}.
Proof.
  unfold setsWon1, setsWon2.
  induction sets as [|[s1 s2] sets IH]; intros [w1 w2 p1 p2].
  - simpl. f_equal; lia.
  - cbn [fold_left]. rewrite IH. unfold tallySet.
    cbn [filter scoreSum1 scoreSum2]. unfold bothScores.
    cbn [MatchSet.team1 MatchSet.team2].
    destruct s1 as [a|], s2 as [b|];
      cbn [team1SetWins team2SetWins team1TotalPoints team2TotalPoints];
      try reflexivity.
    destruct (Z.gtb_spec a b), (Z.gtb_spec b a); try lia;
      cbn [List.length]; f_equal; lia.
Qed.

Lemma tallySets_spec sets :
  tallySets sets
  = {| team1SetWins := setsWon1 sets;
       team2SetWins := setsWon2 sets;
       team1TotalPoints := scoreSum1 sets;
       team2TotalPoints := scoreSum2 sets |}.
Proof. unfold tallySets. now rewrite tallySets_from. Qed.

Lemma setsWon1_nonneg sets : 0 <= setsWon1 sets.
Proof. unfold setsWon1. lia. Qed.

Lemma setsWon2_nonneg sets : 0 <= setsWon2 sets.
Proof. unfold setsWon2. lia. Qed.

Lemma chargeRec_fields match_ winnerId loserId k s :
  let s' := chargeRec match_ winnerId loserId k s in
  let w := String.eqb k winnerId in
  let l := String.eqb k loserId in
  Standings.team s' = Standings.team s
  /\ Standings.played s' = Standings.played s + b2z w + b2z l
  /\ Standings.wins s' = Standings.wins s + b2z w
  /\ Standings.losses s' = Standings.losses s + b2z l
  /\ Standings.points s'
     = Standings.points s + b2z w * winnerAward match_ + b2z l * loserAward match_
  /\ Standings.pointsFor s'
     = Standings.pointsFor s + b2z w * forWinnerOf match_ winnerId
       + b2z l * forLoserOf match_ winnerId
  /\ Standings.pointsAgainst s'
     = Standings.pointsAgainst s + b2z w * forLoserOf match_ winnerId
       + b2z l * forWinnerOf match_ winnerId
  /\ Standings.pointsDifference s'
     = if w || l then Standings.pointsFor s' - Standings.pointsAgainst s'
       else Standings.pointsDifference s.
Proof.
  destruct s as [t0 pl0 w0 l0 pt0 pf0 pa0 pd0].
  unfold chargeRec, winnerAward, loserAward, forWinnerOf, forLoserOf.
  rewrite tallySets_spec. cbv zeta.
  cbn [team1SetWins team2SetWins team1TotalPoints team2TotalPoints].
  unfold onKey.
  destruct (String.eqb k winnerId), (String.eqb k loserId);
    destruct ((Z.max _ _ =? 2) && (Z.min _ _ =? 0));
    try destruct ((Z.max _ _ =? 2) && (Z.min _ _ =? 1));
    destruct (String.eqb (Team.id (Match.team1 match_)) winnerId);
    cbv beta iota delta
        [applyIf orb b2z
         Standings.set_played Standings.set_wins Standings.set_losses
         Standings.set_points Standings.set_pointsFor
         Standings.set_pointsAgainst Standings.set_pointsDifference
         Standings.team Standings.played Standings.wins Standings.losses
         Standings.points Standings.pointsFor Standings.pointsAgainst
         Standings.pointsDifference];
    repeat split; lia.
Qed.

Section RecordFacts.
Variable teams : list Team.t.

Lemma countRec_fields m k s :
  let s' := countRec teams m k s in
  Standings.team s' = Standings.team s
  /\ Standings.played s' = Standings.played s + playedDelta teams k m
  /\ Standings.wins s' = Standings.wins s + winsDelta teams k m
  /\ Standings.losses s' = Standings.losses s + lossesDelta teams k m
  /\ Standings.points s' = Standings.points s + pointsDelta teams k m
  /\ Standings.pointsFor s' = Standings.pointsFor s + pointsForDelta teams k m
  /\ Standings.pointsAgainst s'
     = Standings.pointsAgainst s + pointsAgainstDelta teams k m
  /\ (Standings.pointsDifference s
      = Standings.pointsFor s - Standings.pointsAgainst s ->
      Standings.pointsDifference s'
      = Standings.pointsFor s' - Standings.pointsAgainst s').
Proof.
  unfold countRec, playedDelta, winsDelta, lossesDelta, pointsDelta,
    pointsForDelta, pointsAgainstDelta.
  destruct (counted teams m).
  - destruct (chargeRec_fields m (winnerIdIn m) (loserIdIn m) k s)
      as (H1 & H2 & H3 & H4 & H5 & H6 & H7 & H8).
    cbv zeta in *. do 7 (split; [first [assumption|lia]|]).
    intro Hd. rewrite H8.
    destruct (String.eqb k (winnerIdIn m) || String.eqb k (loserIdIn m)) eqn:E;
      [reflexivity|].
    apply orb_false_elim in E. destruct E as [E1 E2].
    rewrite H6, H7, E1, E2, Hd. simpl. lia.
  - cbv zeta. split; [reflexivity|]. do 6 (split; [lia|]). auto.
Qed.

(** A field that each match moves by a delta ends at the sum of the
    deltas. *)
Lemma recordFold_sum (fld : Standings.t -> Z) (delta : string -> Match.t -> Z) :
  (forall m k s, fld (countRec teams m k s) = fld s + delta k m) ->
  forall matches k s,
    fld (recordFold teams matches k s) = fld s + sumOver (delta k) matches.
Proof.
  intros H matches k. unfold recordFold.
  induction matches as [|m matches IH]; intro s; simpl; [lia|].
  rewrite IH, H. lia.
Qed.

Lemma recordFold_team matches k : forall s,
  Standings.team (recordFold teams matches k s) = Standings.team s.
Proof.
  unfold recordFold. induction matches as [|m matches IH]; intro s; simpl;
    [reflexivity|].
  rewrite IH. apply countRec_fields.
Qed.

Lemma recordFold_difference matches k : forall s,
  Standings.pointsDifference s
  = Standings.pointsFor s - Standings.pointsAgainst s ->
  Standings.pointsDifference (recordFold teams matches k s)
  = Standings.pointsFor (recordFold teams matches k s)
    - Standings.pointsAgainst (recordFold teams matches k s).
Proof.
  unfold recordFold. induction matches as [|m matches IH]; intros s H; simpl;
    [exact H|].
  apply IH. now apply countRec_fields.
Qed.

Lemma recordFold_played matches k s :
  Standings.played (recordFold teams matches k s)
  = Standings.played s + sumOver (playedDelta teams k) matches.
Proof. apply recordFold_sum. intros. apply countRec_fields. Qed.

Lemma recordFold_wins matches k s :
  Standings.wins (recordFold teams matches k s)
  = Standings.wins s + sumOver (winsDelta teams k) matches.
Proof. apply recordFold_sum. intros. apply countRec_fields. Qed.

Lemma recordFold_losses matches k s :
  Standings.losses (recordFold teams matches k s)
  = Standings.losses s + sumOver (lossesDelta teams k) matches.
Proof. apply recordFold_sum. intros. apply countRec_fields. Qed.

Lemma recordFold_points matches k s :
  Standings.points (recordFold teams matches k s)
  = Standings.points s + sumOver (pointsDelta teams k) matches.
Proof. apply recordFold_sum. intros. apply countRec_fields. Qed.

Lemma recordFold_pointsFor matches k s :
  Standings.pointsFor (recordFold teams matches k s)
  = Standings.pointsFor s + sumOver (pointsForDelta teams k) matches.
Proof. apply recordFold_sum. intros. apply countRec_fields. Qed.

Lemma recordFold_pointsAgainst matches k s :
  Standings.pointsAgainst (recordFold teams matches k s)
  = Standings.pointsAgainst s + sumOver (pointsAgainstDelta teams k) matches.
Proof. apply recordFold_sum. intros. apply countRec_fields. Qed.

Lemma find_unique (l : list Standings.t) : forall x k,
  NoDup (map (fun s => Team.id (Standings.team s)) l) ->
  In x l -> Team.id (Standings.team x) = k -> standingOf k l = Some x.
Proof.
  unfold standingOf.
  induction l as [|y l IH]; intros x k Hnd Hin Hk; simpl; [contradiction|].
  simpl in Hnd. apply NoDup_cons_iff in Hnd. destruct Hnd as [Hn Hd].
  destruct Hin as [->|Hin].
  - rewrite Hk, String.eqb_refl. reflexivity.
  - destruct (String.eqb_spec (Team.id (Standings.team y)) k) as [E|_].
    + exfalso. apply Hn. rewrite E, <- Hk.
      apply in_map_iff. now exists x.
    + now apply IH.
Qed.

Lemma calculateStandings_ids matches :
  Permutation (map (fun s => Team.id (Standings.team s))
                   (calculateStandings teams matches))
              (keysOf (initialMap teams)).
Proof.
  unfold calculateStandings.
  eapply perm_trans; [apply Permutation_map, sortBy_perm|].
  unfold Map_values. rewrite standingsMapOf_records, !map_map.
  unfold keysOf. erewrite map_ext_in; [apply Permutation_refl|].
  intros [k s] He. simpl. rewrite recordFold_team.
  destruct (initialMap_in _ _ _ He) as [t [_ [-> ->]]]. reflexivity.
Qed.

Lemma standingOf_calculateStandings k :
  hasTeam teams k = true ->
  exists t, In t teams /\ Team.id t = k /\
    forall matches,
      standingOf k (calculateStandings teams matches)
      = Some (recordFold teams matches k (initialStandings t)).
Proof.
  intro H. apply initialMap_keys in H. apply in_map_iff in H.
  destruct H as [[k' s0] [E He]]. simpl in E. subst k'.
  destruct (initialMap_in _ _ _ He) as [t [Ht [-> ->]]].
  exists t. split; [exact Ht|split; [reflexivity|]].
  intro matches. apply find_unique.
  - apply (Permutation_NoDup
             (Permutation_sym (calculateStandings_ids matches))).
    apply Map_new_NoDup.
  - apply calculateStandings_in. now exists t.
  - now rewrite recordFold_team.
Qed.
End RecordFacts.

(** * The claims about [calculateStandings] *)

Lemma compareStandings_ranks a b :
  compareStandings a b <= 0 <-> ranksBefore a b.
Proof.
  unfold compareStandings, ranksBefore.
  destruct (Z.eqb_spec (Standings.points b) (Standings.points a));
    destruct (Z.eqb_spec (Standings.wins b) (Standings.wins a));
    destruct (Z.eqb_spec (Standings.pointsDifference b)
                         (Standings.pointsDifference a));
    simpl; lia.
Qed.

Lemma compareStandings_total a b :
  0 < compareStandings a b -> compareStandings b a <= 0.
Proof.
  unfold compareStandings.
  destruct (Z.eqb_spec (Standings.points b) (Standings.points a));
    destruct (Z.eqb_spec (Standings.wins b) (Standings.wins a));
    destruct (Z.eqb_spec (Standings.pointsDifference b)
                         (Standings.pointsDifference a));
    destruct (Z.eqb_spec (Standings.points a) (Standings.points b));
    destruct (Z.eqb_spec (Standings.wins a) (Standings.wins b));
    destruct (Z.eqb_spec (Standings.pointsDifference a)
                         (Standings.pointsDifference b));
    simpl; lia.
Qed.

Lemma compareStandings_trans a b c :
  compareStandings a b <= 0 -> compareStandings b c <= 0 ->
  compareStandings a c <= 0.
Proof. rewrite !compareStandings_ranks. unfold ranksBefore. lia. Qed.

Lemma StronglySorted_impl {A : Type} (R R' : A -> A -> Prop) l :
  (forall a b, R a b -> R' a b) -> StronglySorted R l -> StronglySorted R' l.
Proof.
  intros H Hs. induction Hs as [|a l Hs IH Hall]; constructor; [exact IH|].
  eapply Forall_impl; [|exact Hall]. intros b Hb. now apply H.
Qed.

(** C2. The list returned by [calculateStandings] is sorted by descending
    points; records with equal points by descending wins; records further
    tied by descending pointsDifference; records still tied by descending
    pointsFor: every record of the list ranks before every record that
    comes after it. *)
Theorem calculateStandings_sorted :
  forall (teams : list Team.t) (matches : list Match.t),
    StronglySorted ranksBefore (calculateStandings teams matches).
Proof.
  intros teams matches. unfold calculateStandings.
  apply (StronglySorted_impl (fun a b => compareStandings a b <= 0)).
  - intros a b. apply compareStandings_ranks.
  - apply sortBy_sorted.
    + apply compareStandings_total.
    + apply compareStandings_trans.
Qed.

(** C5. A match counts toward the statistics only if both of its teams
    are in the team list, its status is Finished and it has a winner: a
    match that fails one of the three, such as a Pending match with scores
    recorded, leaves the whole table as it is without the match. *)
Theorem calculateStandings_ignores_unqualified :
  forall (teams : list Team.t) (before : list Match.t) (m : Match.t)
         (after : list Match.t),
    hasTeam teams (Team.id (Match.team1 m)) = false
    \/ hasTeam teams (Team.id (Match.team2 m)) = false
    \/ Match.status m <> Finished
    \/ Match.winner m = None ->
    calculateStandings teams (before ++ m :: after)
    = calculateStandings teams (before ++ after).
Proof.
  intros teams before m after H.
  unfold calculateStandings, standingsMapOf. do 2 f_equal.
  rewrite !filter_app, !fold_left_app. cbn [filter].
  destruct (isRelevant teams m) eqn:Hrel; [|reflexivity].
  cbn [fold_left]. f_equal.
  unfold isRelevant in Hrel. apply andb_prop in Hrel. destruct Hrel as [R1 R2].
  unfold countMatch.
  destruct H as [H|[H|[H|H]]]; try congruence.
  - destruct (Match.status m); [reflexivity|congruence].
  - rewrite H. now destruct (Match.status m).
Qed.

(** The identifiers of a two-legged schedule for three teams, with a
    clock that advances by one millisecond at each reading and draws that
    alternate. *)
Example generateRoundRobinMatches_sample :
  map Match.id
      (generateRoundRobinMatches (runtimeAt 1000 Nat.even)
                                 [teamA; teamB; teamC] sampleCategory true)
  = ["match-1004-1-2-1"; "match-1000-0-1-1"; "match-1001-1-0-2";
     "match-1002-0-2-1"; "match-1003-2-0-2"; "match-1005-2-1-2"]%string.
Proof. vm_compute. reflexivity. Qed.

(** Recording 18-10, 10-18, 11-5 on the pending match of Team A and
    Team B finishes it with Team A as the winner. *)
Example handleUpdateMatch_sample :
  handleUpdateMatch "m1" resultAB [pendingAB]
  = [ Match.mk "m1" "category-1" teamA teamB
               [playedSet 18 10; playedSet 10 18; playedSet 11 5]
               (Some teamA) Finished "2025-03-01" ].
Proof. vm_compute. reflexivity. Qed.

Example calculateStandings_sample :
  calculateStandings [teamA; teamB] [matchAB] = [standingA; standingB].
Proof. vm_compute. reflexivity. Qed.

Lemma calculateStandings_ignores_unqualified_witness :
  Match.status pendingWithScores <> Finished
  /\ calculateStandings [teamA; teamB] ([matchAB] ++ pendingWithScores :: [])
     = calculateStandings [teamA; teamB] ([matchAB] ++ []).
Proof.
  split; [discriminate|].
  apply (calculateStandings_ignores_unqualified
           [teamA; teamB] [matchAB] pendingWithScores []).
  right; right; left. discriminate.
Defined.

Lemma fold_keysAreTeams teams matches :
  keysAreTeams teams
    (fold_left countMatch (filter (isRelevant teams) matches)
               (initialMap teams)).
Proof.
  rewrite fold_countMatch_map by apply initialMap_keysAreTeams.
  destruct (initialMap_keysAreTeams teams) as [Hnd Hk].
  unfold keysAreTeams, keysOf. rewrite map_map. simpl. now split.
Qed.

(** C6, as the code has it. A match whose winner's team id is the id of
    no team of the given list (so that it is neither the id of team1 nor
    that of team2 when these are in the list) is skipped: the table is the
    one computed without the match. *)
Theorem calculateStandings_skips_unknown_winner :
  forall (teams : list Team.t) (before : list Match.t) (m : Match.t)
         (after : list Match.t) (w : Team.t),
    Match.winner m = Some w ->
    hasTeam teams (Team.id w) = false ->
    calculateStandings teams (before ++ m :: after)
    = calculateStandings teams (before ++ after).
Proof.
  intros teams before m after w Hw Hno.
  unfold calculateStandings, standingsMapOf. do 2 f_equal.
  rewrite !filter_app, !fold_left_app. cbn [filter].
  destruct (isRelevant teams m) eqn:Hrel; [|reflexivity].
  cbn [fold_left]. f_equal.
  pose proof (fold_keysAreTeams teams before) as Hk.
  unfold initialMap in Hk.
  set (sm := fold_left countMatch (filter (isRelevant teams) before) _) in *.
  unfold countMatch. rewrite Hw. unfold winnerIdOf.
  rewrite (proj2 (Map_get_hasTeam teams sm _ Hk) Hno).
  now destruct (Match.status m).
Qed.

Lemma calculateStandings_skips_unknown_winner_witness :
  hasTeam [teamA; teamB] (Team.id teamD) = false
  /\ calculateStandings [teamA; teamB] ([] ++ matchWonByD :: [matchAB])
     = calculateStandings [teamA; teamB] ([] ++ [matchAB]).
Proof.
  split; [reflexivity|].
  apply (calculateStandings_skips_unknown_winner
           [teamA; teamB] [] matchWonByD [matchAB] teamD); reflexivity.
Defined.

(** C6, as stated, fails: a Finished match whose winner is neither of its
    two teams but is a team of the list is not skipped; the winner is
    given a win and three points, and team1 a loss. *)
Lemma third_team_winner_not_skipped :
  Match.status matchWonByC = Finished
  /\ Match.winner matchWonByC = Some teamC
  /\ Team.id teamC <> Team.id (Match.team1 matchWonByC)
  /\ Team.id teamC <> Team.id (Match.team2 matchWonByC)
  /\ calculateStandings [teamA; teamB; teamC] [matchWonByC]
     <> calculateStandings [teamA; teamB; teamC] []
  /\ option_map Standings.wins
       (standingOf "team-c"
          (calculateStandings [teamA; teamB; teamC] [matchWonByC])) = Some 1
  /\ option_map Standings.losses
       (standingOf "team-a"
          (calculateStandings [teamA; teamB; teamC] [matchWonByC])) = Some 1.
Proof.
  split; [reflexivity|]. split; [reflexivity|].
  split; [discriminate|]. split; [discriminate|].
  split; [vm_compute; discriminate|].
  split; vm_compute; reflexivity.
Qed.

(** ** Points awarded by one match *)

Lemma awards_twoToNil m :
  twoToNil m -> winnerAward m = 3 /\ loserAward m = 0.
Proof.
  unfold twoToNil, winnerAward, loserAward. cbv zeta.
  intros [[-> ->]|[-> ->]]; split; reflexivity.
Qed.

Lemma awards_twoToOne m :
  twoToOne m -> winnerAward m = 2 /\ loserAward m = 1.
Proof.
  unfold twoToOne, winnerAward, loserAward. cbv zeta.
  intros [[-> ->]|[-> ->]]; split; reflexivity.
Qed.

Lemma awards_other m :
  ~ twoToNil m -> ~ twoToOne m -> winnerAward m = 0 /\ loserAward m = 0.
Proof.
  unfold twoToNil, twoToOne, winnerAward, loserAward. cbv zeta.
  pose proof (setsWon1_nonneg (Match.sets m)).
  pose proof (setsWon2_nonneg (Match.sets m)).
  intros H1 H2.
  set (a := setsWon1 (Match.sets m)) in *.
  set (b := setsWon2 (Match.sets m)) in *.
  destruct (Z.eqb_spec (Z.max a b) 2);
    destruct (Z.eqb_spec (Z.min a b) 0);
    destruct (Z.eqb_spec (Z.min a b) 1);
    simpl; split; try reflexivity; exfalso; lia.
Qed.

Lemma counted_winner teams m w :
  counted teams m = true -> Match.winner m = Some w ->
  winnerIdIn m = Team.id w
  /\ loserIdIn m = loserIdOf m (Team.id w)
  /\ hasTeam teams (Team.id w) = true
  /\ hasTeam teams (loserIdOf m (Team.id w)) = true.
Proof.
  unfold counted, loserIdIn, winnerIdIn, winnerIdOf. intros Hc Hw.
  rewrite Hw in *. apply andb_prop in Hc. destruct Hc as [Hc Hin].
  apply andb_prop in Hc. destruct Hc as [Hrel _].
  repeat split; try assumption. now apply loserIdOf_relevant.
Qed.

(** C3, as the code has it. For a match that [calculateStandings] counts
    and whose winner and loser have different team ids, compare the table
    with the match and the table without it: the winner has one more win
    and the loser one more loss; if the set tally is 2 sets to 0 the winner
    has 3 more points and the loser the same points; if it is 2 sets to 1
    the winner has 2 more points and the loser 1 more; for any other tally
    both have the same points. *)
Theorem counted_match_awards :
  forall (teams : list Team.t) (before after : list Match.t) (m : Match.t)
         (w : Team.t),
    counted teams m = true ->
    Match.winner m = Some w ->
    Team.id w <> loserIdOf m (Team.id w) ->
    exists sw sw' sl sl',
      standingOf (Team.id w) (calculateStandings teams (before ++ after))
      = Some sw
      /\ standingOf (Team.id w)
           (calculateStandings teams (before ++ m :: after)) = Some sw'
      /\ standingOf (loserIdOf m (Team.id w))
           (calculateStandings teams (before ++ after)) = Some sl
      /\ standingOf (loserIdOf m (Team.id w))
           (calculateStandings teams (before ++ m :: after)) = Some sl'
      /\ Standings.wins sw' = Standings.wins sw + 1
      /\ Standings.losses sl' = Standings.losses sl + 1
      /\ (twoToNil m ->
          Standings.points sw' = Standings.points sw + 3
          /\ Standings.points sl' = Standings.points sl)
      /\ (twoToOne m ->
          Standings.points sw' = Standings.points sw + 2
          /\ Standings.points sl' = Standings.points sl + 1)
      /\ (~ twoToNil m -> ~ twoToOne m ->
          Standings.points sw' = Standings.points sw
          /\ Standings.points sl' = Standings.points sl).
Proof.
  intros teams before after m w Hc Hw Hne.
  destruct (counted_winner teams m w Hc Hw) as (Ewid & Elid & Hinw & Hinl).
  destruct (standingOf_calculateStandings teams _ Hinw) as (tw & _ & _ & Sw).
  destruct (standingOf_calculateStandings teams _ Hinl) as (tl & _ & _ & Sl).
  do 4 eexists. rewrite !Sw, !Sl.
  do 4 (split; [reflexivity|]).
  rewrite !recordFold_wins, !recordFold_losses, !recordFold_points.
  rewrite !sumOver_insert.
  unfold winsDelta, lossesDelta, pointsDelta. rewrite Hc, Ewid, Elid.
  rewrite !String.eqb_refl.
  apply String.eqb_neq in Hne. rewrite Hne.
  rewrite String.eqb_sym in Hne. rewrite Hne. cbn [b2z].
  split; [lia|split; [lia|]].
  split; [|split].
  - intro H. destruct (awards_twoToNil m H) as [-> ->]. lia.
  - intro H. destruct (awards_twoToOne m H) as [-> ->]. lia.
  - intros H1 H2. destruct (awards_other m H1 H2) as [-> ->]. lia.
Qed.

Lemma counted_match_awards_witness :
  counted [teamA; teamB] matchAB = true
  /\ exists sw sw' sl sl',
      standingOf "team-a" (calculateStandings [teamA; teamB] ([] ++ []))
      = Some sw
      /\ standingOf "team-a"
           (calculateStandings [teamA; teamB] ([] ++ matchAB :: [])) = Some sw'
      /\ standingOf "team-b" (calculateStandings [teamA; teamB] ([] ++ []))
         = Some sl
      /\ standingOf "team-b"
           (calculateStandings [teamA; teamB] ([] ++ matchAB :: [])) = Some sl'
      /\ Standings.wins sw' = Standings.wins sw + 1
      /\ Standings.losses sl' = Standings.losses sl + 1
      /\ (twoToNil matchAB ->
          Standings.points sw' = Standings.points sw + 3
          /\ Standings.points sl' = Standings.points sl)
      /\ (twoToOne matchAB ->
          Standings.points sw' = Standings.points sw + 2
          /\ Standings.points sl' = Standings.points sl + 1)
      /\ (~ twoToNil matchAB -> ~ twoToOne matchAB ->
          Standings.points sw' = Standings.points sw
          /\ Standings.points sl' = Standings.points sl).
Proof.
  split; [reflexivity|].
  apply (counted_match_awards [teamA; teamB] [] [] matchAB teamA);
    [reflexivity|reflexivity|discriminate].
Defined.

(** C3, as stated, fails for a counted match whose two teams have the
    same id: with a tally of 2 sets to 1 the record of the winner, which is
    also the record of the loser, gains 3 points, not 2 and not 1. *)
Lemma self_match_awards_three :
  counted [teamA] selfMatch = true
  /\ Match.status selfMatch = Finished
  /\ Match.winner selfMatch = Some teamA
  /\ twoToOne selfMatch
  /\ exists s s',
      standingOf "team-a" (calculateStandings [teamA] []) = Some s
      /\ standingOf "team-a" (calculateStandings [teamA] [selfMatch]) = Some s'
      /\ Standings.points s' = Standings.points s + 3
      /\ Standings.points s' <> Standings.points s + 2
      /\ Standings.points s' <> Standings.points s + 1.
Proof.
  split; [reflexivity|]. split; [reflexivity|]. split; [reflexivity|].
  split; [left; split; reflexivity|].
  eexists. eexists.
  split; [vm_compute; reflexivity|]. split; [vm_compute; reflexivity|].
  simpl. repeat split; discriminate.
Qed.

(** ** Points for and points against *)

Lemma side_winner_deltas teams k m :
  counted teams m = true -> winnerIsSide m ->
  pointsForDelta teams k m = scoreFor k m
  /\ pointsAgainstDelta teams k m = scoreAgainst k m.
Proof.
  intros Hc Hside.
  unfold pointsForDelta, pointsAgainstDelta, scoreFor, scoreAgainst,
    forWinnerOf, forLoserOf, loserIdIn, winnerIdIn, loserIdOf, winnerIdOf.
  rewrite Hc. unfold counted in Hc.
  destruct (Match.winner m) as [w|] eqn:Hw;
    [|rewrite andb_false_r in Hc; discriminate].
  destruct (String.eqb_spec (Team.id w) (Team.id (Match.team1 m))) as [E|Hne].
  - rewrite E, String.eqb_refl. split; lia.
  - destruct (Hside w Hw) as [E|E]; [contradiction|].
    rewrite (proj2 (String.eqb_neq _ _) (not_eq_sym Hne)). split; rewrite E; lia.
Qed.

(** C4, as the code has it. In every returned record pointsDifference is
    pointsFor minus pointsAgainst. When the winner of every counted match
    is one of its two teams, pointsFor of a record is the sum, over the
    counted matches and over the sets with both scores present, of the set
    scores of the record's team, and pointsAgainst the sum of the set
    scores of its opponent; a set with a missing score adds nothing. *)
Theorem calculateStandings_score_sums :
  forall (teams : list Team.t) (matches : list Match.t),
    (forall s, In s (calculateStandings teams matches) ->
       Standings.pointsDifference s
       = Standings.pointsFor s - Standings.pointsAgainst s)
    /\ ((forall m, In m matches -> counted teams m = true -> winnerIsSide m) ->
        forall s, In s (calculateStandings teams matches) ->
          Standings.pointsFor s
          = sumOver (scoreFor (Team.id (Standings.team s)))
                    (filter (counted teams) matches)
          /\ Standings.pointsAgainst s
             = sumOver (scoreAgainst (Team.id (Standings.team s)))
                       (filter (counted teams) matches)).
Proof.
  intros teams matches. split.
  - intros s Hs. apply calculateStandings_in in Hs.
    destruct Hs as [t [_ ->]]. now apply recordFold_difference.
  - intros Hside s Hs. apply calculateStandings_in in Hs.
    destruct Hs as [t [_ ->]].
    rewrite recordFold_team, recordFold_pointsFor, recordFold_pointsAgainst.
    cbn [initialStandings Standings.team Standings.pointsFor
         Standings.pointsAgainst].
    rewrite <- !sumOver_filter. split.
    + rewrite Z.add_0_l. apply sumOver_ext_in. intros m Hm.
      destruct (counted teams m) eqn:Hc.
      * now apply side_winner_deltas, Hside.
      * unfold pointsForDelta. now rewrite Hc.
    + rewrite Z.add_0_l. apply sumOver_ext_in. intros m Hm.
      destruct (counted teams m) eqn:Hc.
      * now apply side_winner_deltas, Hside.
      * unfold pointsAgainstDelta. now rewrite Hc.
Qed.

Lemma matchAB_winnerIsSide :
  forall m, In m [matchAB] -> counted [teamA; teamB] m = true -> winnerIsSide m.
Proof.
  intros m [<-|[]] _ w Hw. injection Hw as <-. now left.
Defined.

Lemma calculateStandings_score_sums_witness :
  Standings.pointsFor standingA
  = sumOver (scoreFor "team-a") (filter (counted [teamA; teamB]) [matchAB])
  /\ Standings.pointsAgainst standingA
     = sumOver (scoreAgainst "team-a")
               (filter (counted [teamA; teamB]) [matchAB]).
Proof.
  apply (proj2 (calculateStandings_score_sums [teamA; teamB] [matchAB])
               matchAB_winnerIsSide standingA).
  rewrite calculateStandings_sample. left. reflexivity.
Defined.

(** C4, as stated, fails when the winner of a counted match is a third
    team of the list: the set scores of team2 are booked on the winner, so
    the record of team2 (Team B, 20 points scored) keeps pointsFor 0. *)
Lemma third_team_winner_takes_scores :
  counted [teamA; teamB; teamC] matchWonByC = true
  /\ exists s,
      standingOf "team-b"
        (calculateStandings [teamA; teamB; teamC] [matchWonByC]) = Some s
      /\ Team.id (Standings.team s) = "team-b"%string
      /\ Standings.pointsFor s = 0
      /\ sumOver (scoreFor "team-b")
                 (filter (counted [teamA; teamB; teamC]) [matchWonByC]) = 20
      /\ Standings.pointsFor s
         <> sumOver (scoreFor (Team.id (Standings.team s)))
                    (filter (counted [teamA; teamB; teamC]) [matchWonByC]).
Proof.
  split; [reflexivity|]. eexists.
  split; [vm_compute; reflexivity|].
  repeat split; vm_compute; discriminate.
Qed.

(** ** Played, wins and losses *)

Lemma sumOver_count p matches :
  sumOver (fun m => b2z (p m)) matches = countOf p matches.
Proof.
  unfold countOf. induction matches as [|m matches IH]; [reflexivity|].
  cbn [sumOver fold_right filter]. fold (sumOver (fun m => b2z (p m)) matches).
  rewrite IH. destruct (p m); cbn [b2z List.length]; lia.
Qed.

Lemma sumOver_plus f g matches :
  sumOver (fun m => f m + g m) matches = sumOver f matches + sumOver g matches.
Proof. induction matches as [|m matches IH]; simpl; [|rewrite IH]; lia. Qed.

(** C10, as the code has it. In every returned record wins + losses =
    played; wins is the number of counted matches that charged the
    record's team as winner, losses the number that charged it as loser,
    and played the sum of the two numbers.  When no counted match has the
    same id as winner and as loser, played is the number of counted matches
    that charged the team as winner or loser. *)
Theorem calculateStandings_played :
  forall (teams : list Team.t) (matches : list Match.t) (s : Standings.t),
    In s (calculateStandings teams matches) ->
    let k := Team.id (Standings.team s) in
    Standings.wins s + Standings.losses s = Standings.played s
    /\ Standings.wins s = countOf (chargedAsWinner teams k) matches
    /\ Standings.losses s = countOf (chargedAsLoser teams k) matches
    /\ Standings.played s
       = countOf (chargedAsWinner teams k) matches
         + countOf (chargedAsLoser teams k) matches
    /\ ((forall m, In m matches -> counted teams m = true ->
                   winnerIdIn m <> loserIdIn m) ->
        Standings.played s
        = countOf (fun m => chargedAsWinner teams k m
                            || chargedAsLoser teams k m) matches).
Proof.
  intros teams matches s Hs k. apply calculateStandings_in in Hs.
  destruct Hs as [t [_ E]]. subst k. rewrite E.
  rewrite recordFold_team, recordFold_wins, recordFold_losses,
    recordFold_played.
  cbn [initialStandings Standings.team Standings.wins Standings.losses
       Standings.played].
  rewrite !Z.add_0_l.
  assert (HW : sumOver (winsDelta teams (Team.id t)) matches
               = countOf (chargedAsWinner teams (Team.id t)) matches).
  { rewrite <- sumOver_count. apply sumOver_ext_in. intros m _.
    unfold winsDelta, chargedAsWinner. now destruct (counted teams m). }
  assert (HL : sumOver (lossesDelta teams (Team.id t)) matches
               = countOf (chargedAsLoser teams (Team.id t)) matches).
  { rewrite <- sumOver_count. apply sumOver_ext_in. intros m _.
    unfold lossesDelta, chargedAsLoser. now destruct (counted teams m). }
  assert (HP : sumOver (playedDelta teams (Team.id t)) matches
               = sumOver (winsDelta teams (Team.id t)) matches
                 + sumOver (lossesDelta teams (Team.id t)) matches).
  { rewrite <- sumOver_plus. apply sumOver_ext_in. intros m _.
    unfold playedDelta, winsDelta, lossesDelta.
    now destruct (counted teams m). }
  rewrite HP, HW, HL. repeat split; try reflexivity.
  intro Hdistinct. rewrite <- HW, <- HL, <- HP, <- sumOver_count.
  apply sumOver_ext_in. intros m Hm.
  unfold playedDelta, chargedAsWinner, chargedAsLoser.
  destruct (counted teams m) eqn:Hc; [|reflexivity]. simpl.
  specialize (Hdistinct m Hm Hc).
  destruct (String.eqb_spec (Team.id t) (winnerIdIn m)) as [E1|_];
    destruct (String.eqb_spec (Team.id t) (loserIdIn m)) as [E2|_];
    try reflexivity.
  exfalso. apply Hdistinct. congruence.
Qed.

Lemma calculateStandings_played_witness :
  In standingA (calculateStandings [teamA; teamB] [matchAB])
  /\ Standings.wins standingA + Standings.losses standingA
     = Standings.played standingA
  /\ Standings.wins standingA
     = countOf (chargedAsWinner [teamA; teamB] "team-a") [matchAB]
  /\ Standings.losses standingA
     = countOf (chargedAsLoser [teamA; teamB] "team-a") [matchAB].
Proof.
  assert (H : In standingA (calculateStandings [teamA; teamB] [matchAB]))
    by (rewrite calculateStandings_sample; left; reflexivity).
  split; [exact H|].
  destruct (calculateStandings_played [teamA; teamB] [matchAB] _ H)
    as (H1 & H2 & H3 & _).
  exact (conj H1 (conj H2 H3)).
Defined.

(** C10, as stated, fails for a counted match whose two teams have the
    same id: the record is charged as winner and as loser by the one match,
    so played is 2 while one counted match charged the team. *)
Lemma self_match_played_twice :
  counted [teamA] selfMatch = true
  /\ exists s,
      In s (calculateStandings [teamA] [selfMatch])
      /\ Team.id (Standings.team s) = "team-a"%string
      /\ Standings.played s = 2
      /\ Standings.wins s + Standings.losses s = 2
      /\ countOf (fun m => chargedAsWinner [teamA] "team-a" m
                           || chargedAsLoser [teamA] "team-a" m)
                 [selfMatch] = 1.
Proof.
  split; [reflexivity|].
  exists (Standings.mk teamA 2 1 1 3 72 72 0).
  split; [vm_compute; left; reflexivity|].
  repeat split.
Qed.

(** * [handleUpdateMatch] *)

Lemma setWins_from sets : forall w1 w2,
  fold_left countSetWins sets (w1, w2)
  = (w1 + setsWon1 sets, w2 + setsWon2 sets).
Proof.
  unfold setsWon1, setsWon2.
  induction sets as [|[s1 s2] sets IH]; intros w1 w2.
  - simpl. f_equal; lia.
  - destruct s1 as [a|], s2 as [b|];
      cbn [fold_left filter countSetWins bothScores
           MatchSet.team1 MatchSet.team2];
      try apply IH.
    rewrite IH.
    destruct (Z.gtb_spec a b), (Z.gtb_spec b a); try lia;
      cbn [List.length]; f_equal; lia.
Qed.

Lemma setWins_spec sets : setWins sets = (setsWon1 sets, setsWon2 sets).
Proof. unfold setWins. now rewrite setWins_from. Qed.

Lemma updateMatch_consistent newMatchData m :
  resultConsistent (updateMatch newMatchData m).
Proof.
  unfold resultConsistent, updateMatch.
  set (sets := match newSets newMatchData with
               | Some s => s | None => Match.sets m end).
  rewrite setWins_spec. cbn [Match.status Match.winner Match.sets
                             Match.team1 Match.team2].
  destruct (Z.geb_spec (setsWon1 sets) 2) as [H1|H1];
    [|destruct (Z.geb_spec (setsWon2 sets) 2) as [H2|H2]].
  - repeat split; try discriminate; try (intros; left; lia).
    intros t E. injection E as <-. left. split; [reflexivity|lia].
  - repeat split; try discriminate; try (intros; right; lia).
    intros t E. injection E as <-. right. split; [reflexivity|lia].
  - repeat split; try discriminate; try congruence; try lia.
Qed.

Lemma updateMatch_same newMatchData m :
  Match.id (updateMatch newMatchData m) = Match.id m
  /\ Match.team1 (updateMatch newMatchData m) = Match.team1 m
  /\ Match.team2 (updateMatch newMatchData m) = Match.team2 m.
Proof.
  unfold updateMatch. rewrite setWins_spec. repeat split.
Qed.

(** C7. After [handleUpdateMatch], every match of the list that has the
    given id is Finished if and only if its winner is non-null, and its
    winner, when non-null, is the one of team1 and team2 that has won at
    least 2 of the sets with both scores present; every other match of the
    list is the match that was there before.  Hence, if every match was
    consistent before the update, every match is consistent after it. *)
Theorem handleUpdateMatch_consistent :
  forall (matchId : string) (newMatchData : MatchData)
         (prevMatches : list Match.t),
    Forall2 (fun old new =>
               if String.eqb (Match.id old) matchId
               then resultConsistent new
                    /\ Match.id new = Match.id old
                    /\ Match.team1 new = Match.team1 old
                    /\ Match.team2 new = Match.team2 old
               else new = old)
            prevMatches (handleUpdateMatch matchId newMatchData prevMatches)
    /\ (Forall resultConsistent prevMatches ->
        Forall resultConsistent
               (handleUpdateMatch matchId newMatchData prevMatches)).
Proof.
  intros matchId newMatchData prevMatches. unfold handleUpdateMatch. split.
  - induction prevMatches as [|m l IH]; simpl; constructor; [|exact IH].
    destruct (String.eqb (Match.id m) matchId); simpl; [|reflexivity].
    split; [apply updateMatch_consistent|apply updateMatch_same].
  - intro H. apply Forall_map. eapply Forall_impl; [|exact H].
    intros m Hm. simpl.
    destruct (String.eqb (Match.id m) matchId); simpl;
      [apply updateMatch_consistent|exact Hm].
Qed.

Lemma pendingAB_consistent : Forall resultConsistent [pendingAB].
Proof.
  constructor; [|constructor].
  unfold resultConsistent, setsWon1, setsWon2. simpl.
  repeat split; try discriminate; try congruence; try lia.
Defined.

Lemma handleUpdateMatch_consistent_witness :
  Forall resultConsistent (handleUpdateMatch "m1" resultAB [pendingAB]).
Proof.
  exact (proj2 (handleUpdateMatch_consistent "m1" resultAB [pendingAB])
               pendingAB_consistent).
Defined.

(** * The fixtures without their identifiers, and their teams *)

Local Open Scope nat_scope.

Lemma stamp_withoutId rt category l : forall k,
  map withoutId (stamp rt category k l)
  = map (fun s => newMatch EmptyString category (slotTeam1 s) (slotTeam2 s)) l.
Proof.
  induction l as [|s l IH]; intro k; simpl; [reflexivity|].
  now rewrite IH.
Qed.

Lemma innerSlots_teams twoLegged i ti rest : forall j s,
  In s (innerSlots twoLegged i ti j rest) ->
  In (slotTeam1 s) (ti :: rest) /\ In (slotTeam2 s) (ti :: rest).
Proof.
  induction rest as [|tj rest IH]; intros j s H; cbn [innerSlots] in H;
    [contradiction|].
  apply in_app_or in H. destruct H as [H|H].
  - unfold pairSlots in H. destruct H as [<-|H]; [simpl; auto|].
    destruct twoLegged; [|contradiction].
    destruct H as [<-|[]]. simpl. auto.
  - apply IH in H. simpl in *. intuition.
Qed.

Lemma outerSlots_teams twoLegged ts : forall i s,
  In s (outerSlots twoLegged i ts) ->
  In (slotTeam1 s) ts /\ In (slotTeam2 s) ts.
Proof.
  induction ts as [|ti rest IH]; intros i s H; simpl in H; [contradiction|].
  apply in_app_or in H. destruct H as [H|H].
  - now apply innerSlots_teams in H.
  - apply IH in H. simpl. intuition.
Qed.

Lemma generateRoundRobinMatches_pairs_witness :
  List.length [teamA] < 2
  /\ generateRoundRobinMatches (runtimeAt 1700000000000 (fun _ => true))
                               [teamA] sampleCategory true = [].
Proof.
  split; [simpl; lia|].
  apply (generateRoundRobinMatches_pairs
           (runtimeAt 1700000000000 (fun _ => true)) sampleCategory true
           [teamA] teamA).
  simpl; lia.
Defined.

(** * Further properties of [calculateStandings] *)

Local Open Scope Z_scope.

(** ** One record per team *)

Lemma Map_set_fresh {V : Type} (k : string) (v : V) (m : list (string * V)) :
  ~ In k (keysOf m) -> Map_set k v m = m ++ [(k, v)].
Proof.
  induction m as [|[k0 v0] m IH]; simpl; intro H; [reflexivity|].
  destruct (String.eqb_spec k0 k) as [->|Hne]; [exfalso; apply H; now left|].
  f_equal. apply IH. intro Hin. apply H. now right.
Qed.

Lemma Map_new_from_distinct {V : Type} (entries : list (string * V)) :
  forall m, NoDup (keysOf m ++ map fst entries) ->
  fold_left (fun m e => Map_set (fst e) (snd e) m) entries m = m ++ entries.
Proof.
  induction entries as [|[k v] entries IH]; intros m Hnd; simpl.
  - now rewrite app_nil_r.
  - simpl in Hnd. rewrite Map_set_fresh.
    + rewrite IH.
      * now rewrite <- app_assoc.
      * unfold keysOf in *. rewrite map_app. simpl. rewrite <- app_assoc.
        exact Hnd.
    + apply NoDup_remove_2 in Hnd. intro Hin. apply Hnd.
      apply in_or_app. now left.
Qed.

(** [new Map(entries)] keeps the entries as they are when their keys are
    pairwise distinct. *)
Lemma Map_new_distinct {V : Type} (entries : list (string * V)) :
  NoDup (map fst entries) -> Map_new entries = entries.
Proof.
  intro H. unfold Map_new. now rewrite Map_new_from_distinct.
Qed.

Lemma initialMap_distinct teams :
  NoDup (map Team.id teams) ->
  initialMap teams = map (fun t => (Team.id t, initialStandings t)) teams.
Proof.
  intro H. unfold initialMap. apply Map_new_distinct.
  now rewrite map_map.
Qed.

(** With distinct team ids, the records before the sort are those of the
    teams, in the order of the team list. *)
Lemma Map_values_distinct teams matches :
  NoDup (map Team.id teams) ->
  Map_values (standingsMapOf teams matches)
  = map (fun t => recordFold teams matches (Team.id t) (initialStandings t))
        teams.
Proof.
  intro H. unfold Map_values.
  rewrite standingsMapOf_records, initialMap_distinct by exact H.
  rewrite !map_map. reflexivity.
Qed.

(** X1. The returned table has one record per team id of the list: its team
    ids are pairwise distinct and are those of the list; when the ids of the
    list are pairwise distinct, its teams are the teams of the list, each
    once. *)
Theorem calculateStandings_one_record_per_team :
  forall (teams : list Team.t) (matches : list Match.t),
    let ids := map (fun s => Team.id (Standings.team s))
                   (calculateStandings teams matches) in
    NoDup ids
    /\ (forall id, In id ids <-> In id (map Team.id teams))
    /\ (NoDup (map Team.id teams) ->
        Permutation (map Standings.team (calculateStandings teams matches))
                    teams).
Proof.
  intros teams matches ids.
  pose proof (calculateStandings_ids teams matches) as HP. fold ids in HP.
  split; [|split].
  - apply (Permutation_NoDup (Permutation_sym HP)), Map_new_NoDup.
  - intro id. split; intro H.
    + apply (Permutation_in _ HP) in H.
      apply initialMap_keys in H. now apply hasTeam_In.
    + apply (Permutation_in _ (Permutation_sym HP)).
      apply initialMap_keys. now apply hasTeam_In.
  - intro Hnd. unfold calculateStandings.
    eapply perm_trans; [apply Permutation_map, sortBy_perm|].
    rewrite Map_values_distinct by exact Hnd.
    rewrite map_map. erewrite map_ext; [rewrite map_id; apply Permutation_refl|].
    intro t. now rewrite recordFold_team.
Qed.

Lemma calculateStandings_one_record_per_team_witness :
  NoDup (map Team.id [teamA; teamB])
  /\ Permutation
       (map Standings.team (calculateStandings [teamA; teamB] [matchAB]))
       [teamA; teamB].
Proof.
  assert (H : NoDup (map Team.id [teamA; teamB])).
  { simpl. constructor; [intros [E|[]]; discriminate|].
    constructor; [intros []|constructor]. }
  split; [exact H|].
  apply (calculateStandings_one_record_per_team [teamA; teamB] [matchAB]), H.
Defined.

(** ** Ties keep the order of the team list *)

Section SortByStable.
Context {A : Type}.
Variable compareFn : A -> A -> Z.

Lemma sortBy_sorted_id (l : list A) :
  StronglySorted (fun a b => compareFn a b <= 0) l -> sortBy compareFn l = l.
Proof.
  induction 1 as [|x l Hs IH Hall]; simpl; [reflexivity|].
  rewrite IH. destruct l as [|y l]; [reflexivity|]. simpl.
  apply Forall_inv in Hall. apply Z.leb_le in Hall. now rewrite Hall.
Qed.

Variable tied : A -> bool.
Hypothesis tied_compare :
  forall x y, tied x = true -> tied y = true -> compareFn x y <= 0.

Lemma insertBy_stable x l :
  filter tied (insertBy compareFn x l) = filter tied (x :: l).
Proof.
  induction l as [|y l IH]; [reflexivity|]. cbn [insertBy].
  destruct (Z.leb_spec (compareFn x y) 0) as [Hle|Hgt]; [reflexivity|].
  cbn [filter] in *. rewrite IH.
  destruct (tied x) eqn:Ex, (tied y) eqn:Ey; try reflexivity.
  pose proof (tied_compare x y Ex Ey). lia.
Qed.

Lemma sortBy_stable l : filter tied (sortBy compareFn l) = filter tied l.
Proof.
  induction l as [|x l IH]; [reflexivity|]. cbn [sortBy].
  rewrite insertBy_stable. cbn [filter]. now rewrite IH.
Qed.
End SortByStable.

Lemma Subseq_filter_map {A B : Type} (g : A -> B) (f : B -> A) (p : B -> bool)
      (l : list A) :
  (forall x, f (g x) = x) -> Subseq (map f (filter p (map g l))) l.
Proof.
  intro H. induction l as [|x l IH]; simpl; [constructor|].
  destruct (p (g x)); simpl.
  - rewrite H. now constructor.
  - now constructor.
Qed.

Lemma tiedWith_compare z x y :
  tiedWith z x = true -> tiedWith z y = true -> compareStandings x y <= 0.
Proof.
  unfold tiedWith. intros Hx Hy.
  repeat (apply andb_prop in Hx; destruct Hx as [Hx ?]).
  repeat (apply andb_prop in Hy; destruct Hy as [Hy ?]).
  apply compareStandings_ranks. unfold ranksBefore. lia.
Qed.

(** X2. The sort is stable: when the team ids of the list are pairwise
    distinct, the records of the table that are tied with a given record
    (same points, wins, point difference and points for) stand in the order
    in which their teams stand in the team list. *)
Theorem calculateStandings_ties_in_list_order :
  forall (teams : list Team.t) (matches : list Match.t) (z : Standings.t),
    NoDup (map Team.id teams) ->
    Subseq (map Standings.team
                (filter (tiedWith z) (calculateStandings teams matches)))
           teams.
Proof.
  intros teams matches z Hnd. unfold calculateStandings.
  rewrite (sortBy_stable compareStandings (tiedWith z) (tiedWith_compare z)).
  rewrite Map_values_distinct by exact Hnd.
  apply Subseq_filter_map. intro t. apply recordFold_team.
Qed.

Lemma teamsAB_distinct : NoDup (map Team.id [teamA; teamB]).
Proof.
  simpl. constructor; [intros [E|[]]; discriminate|].
  constructor; [intros []|constructor].
Defined.

Lemma calculateStandings_ties_in_list_order_witness :
  Subseq (map Standings.team
              (filter (tiedWith (initialStandings teamA))
                      (calculateStandings [teamA; teamB] [])))
         [teamA; teamB].
Proof.
  apply (calculateStandings_ties_in_list_order
           [teamA; teamB] [] (initialStandings teamA) teamsAB_distinct).
Defined.

Lemma recordFold_uncounted teams matches k s :
  (forall m, In m matches -> counted teams m = false) ->
  recordFold teams matches k s = s.
Proof.
  unfold recordFold. revert s.
  induction matches as [|m matches IH]; intros s H; simpl; [reflexivity|].
  unfold countRec at 2. rewrite (H m) by now left.
  apply IH. intros m' Hm'. apply H. now right.
Qed.

Lemma initialStandings_sorted teams :
  StronglySorted (fun a b => compareStandings a b <= 0)
                 (map initialStandings teams).
Proof.
  induction teams as [|t teams IH]; simpl; constructor; [exact IH|].
  apply Forall_forall. intros s Hs. apply in_map_iff in Hs.
  destruct Hs as [t' [<- _]]. reflexivity.
Qed.

(** X3. When no match of the list is counted (in particular for the empty
    match list) and the team ids are pairwise distinct, the table is the
    list of the teams, in the order given, with every statistic at 0. *)
Theorem calculateStandings_without_results :
  forall (teams : list Team.t) (matches : list Match.t),
    NoDup (map Team.id teams) ->
    (forall m, In m matches -> counted teams m = false) ->
    calculateStandings teams matches = map initialStandings teams.
Proof.
  intros teams matches Hnd Hno. unfold calculateStandings.
  rewrite Map_values_distinct by exact Hnd.
  erewrite map_ext; [|intro t; apply recordFold_uncounted, Hno].
  apply sortBy_sorted_id, initialStandings_sorted.
Qed.

Lemma calculateStandings_without_results_witness :
  calculateStandings [teamA; teamB] [pendingWithScores]
  = map initialStandings [teamA; teamB].
Proof.
  apply (calculateStandings_without_results
           [teamA; teamB] [pendingWithScores] teamsAB_distinct).
  intros m [<-|[]]. reflexivity.
Defined.

(** ** The order of the matches does not matter *)

Lemma sumOver_perm f l l' : Permutation l l' -> sumOver f l = sumOver f l'.
Proof. induction 1; simpl; lia. Qed.

(** The record of a team, from its initial value, in closed form. *)
Lemma recordFold_initial teams matches k t :
  recordFold teams matches k (initialStandings t)
  = Standings.mk t
      (sumOver (playedDelta teams k) matches)
      (sumOver (winsDelta teams k) matches)
      (sumOver (lossesDelta teams k) matches)
      (sumOver (pointsDelta teams k) matches)
      (sumOver (pointsForDelta teams k) matches)
      (sumOver (pointsAgainstDelta teams k) matches)
      (sumOver (pointsForDelta teams k) matches
       - sumOver (pointsAgainstDelta teams k) matches).
Proof.
  pose proof (recordFold_team teams matches k (initialStandings t)) as H1.
  pose proof (recordFold_played teams matches k (initialStandings t)) as H2.
  pose proof (recordFold_wins teams matches k (initialStandings t)) as H3.
  pose proof (recordFold_losses teams matches k (initialStandings t)) as H4.
  pose proof (recordFold_points teams matches k (initialStandings t)) as H5.
  pose proof (recordFold_pointsFor teams matches k (initialStandings t)) as H6.
  pose proof (recordFold_pointsAgainst teams matches k (initialStandings t))
    as H7.
  pose proof (recordFold_difference teams matches k (initialStandings t)
                                    eq_refl) as H8.
  rewrite H6, H7 in H8.
  destruct (recordFold teams matches k (initialStandings t)).
  cbn in *. subst. f_equal.
Qed.

(** X4. The table does not depend on the order of the match list. *)
Theorem calculateStandings_match_order :
  forall (teams : list Team.t) (matches matches' : list Match.t),
    Permutation matches matches' ->
    calculateStandings teams matches = calculateStandings teams matches'.
Proof.
  intros teams matches matches' HP. unfold calculateStandings, Map_values.
  rewrite !standingsMapOf_records, !map_map. f_equal.
  apply map_ext_in. intros [k s] He. cbn [fst snd].
  destruct (initialMap_in _ _ _ He) as [t [_ [-> ->]]].
  rewrite !recordFold_initial.
  now rewrite !(sumOver_perm _ _ _ HP).
Qed.

Lemma calculateStandings_match_order_witness :
  calculateStandings [teamA; teamB] [matchAB; pendingWithScores]
  = calculateStandings [teamA; teamB] [pendingWithScores; matchAB].
Proof.
  apply (calculateStandings_match_order
           [teamA; teamB] [matchAB; pendingWithScores]
           [pendingWithScores; matchAB]).
  apply perm_swap.
Defined.

(** ** Totals over the table *)

Lemma totalOf_perm f l l' : Permutation l l' -> totalOf f l = totalOf f l'.
Proof. induction 1; simpl; lia. Qed.

Lemma keySum_ext g h keys :
  (forall k, In k keys -> g k = h k) -> keySum g keys = keySum h keys.
Proof.
  induction keys as [|k keys IH]; simpl; intro H; [reflexivity|].
  rewrite (H k) by now left. rewrite IH; [reflexivity|].
  intros k' Hk'. apply H. now right.
Qed.

Lemma keySum_zero keys : keySum (fun _ => 0) keys = 0.
Proof. induction keys as [|k keys IH]; simpl; lia. Qed.

Lemma keySum_linear a b g h keys :
  keySum (fun k => g k * a + h k * b) keys
  = keySum g keys * a + keySum h keys * b.
Proof. induction keys as [|k keys IH]; simpl; [|rewrite IH]; lia. Qed.

Lemma keySum_absent x keys :
  ~ In x keys -> keySum (fun k => b2z (String.eqb k x)) keys = 0.
Proof.
  induction keys as [|k keys IH]; simpl; intro H; [reflexivity|].
  destruct (String.eqb_spec k x) as [->|_]; [exfalso; apply H; now left|].
  rewrite IH; [reflexivity|]. intro Hin. apply H. now right.
Qed.

(** A key that is present once is counted once. *)
Lemma keySum_present x keys :
  NoDup keys -> In x keys -> keySum (fun k => b2z (String.eqb k x)) keys = 1.
Proof.
  induction keys as [|k keys IH]; simpl; intros Hnd Hin; [contradiction|].
  apply NoDup_cons_iff in Hnd. destruct Hnd as [Hn Hd].
  destruct (String.eqb_spec k x) as [->|Hne].
  - rewrite keySum_absent by exact Hn. reflexivity.
  - destruct Hin as [E|Hin]; [contradiction|]. rewrite IH by assumption.
    reflexivity.
Qed.

Lemma mapVals_keys {V : Type} (g : string -> V -> V) (m : list (string * V)) :
  keysOf (mapVals g m) = keysOf m.
Proof. unfold keysOf, mapVals. rewrite map_map. reflexivity. Qed.

Section Totals.
Variable teams : list Team.t.
Variable fld : Standings.t -> Z.
Variable delta : string -> Match.t -> Z.
Hypothesis fld_step :
  forall m k s, fld (countRec teams m k s) = fld s + delta k m.

Lemma totalOf_step m (sm : StandingsMap) :
  totalOf fld (Map_values (mapVals (countRec teams m) sm))
  = totalOf fld (Map_values sm) + keySum (fun k => delta k m) (keysOf sm).
Proof.
  induction sm as [|[k s] sm IH]; [reflexivity|].
  change (fld (countRec teams m k s)
          + totalOf fld (Map_values (mapVals (countRec teams m) sm))
          = fld s + totalOf fld (Map_values sm)
            + (delta k m + keySum (fun k => delta k m) (keysOf sm))).
  rewrite IH, fld_step. lia.
Qed.

Lemma totalOf_fold matches : forall (sm : StandingsMap),
  totalOf fld (Map_values (mapVals (recordFold teams matches) sm))
  = totalOf fld (Map_values sm)
    + sumOver (fun m => keySum (fun k => delta k m) (keysOf sm)) matches.
Proof.
  induction matches as [|m matches IH]; intro sm.
  - cbn [sumOver fold_right]. rewrite Z.add_0_r. f_equal.
    unfold Map_values, mapVals. rewrite map_map. apply map_ext.
    now intros [k s].
  - change (mapVals (recordFold teams (m :: matches)) sm)
      with (mapVals (fun k s => recordFold teams matches k
                                            (countRec teams m k s)) sm).
    rewrite <- (mapVals_mapVals (recordFold teams matches)
                                (countRec teams m) sm).
    rewrite IH, mapVals_keys, totalOf_step.
    unfold sumOver. cbn [fold_right]. lia.
Qed.

(** The total of a column that starts at 0 is the sum, over the matches,
    of what each match adds to the column. *)
Lemma totalOf_calculateStandings matches :
  (forall t, fld (initialStandings t) = 0) ->
  totalOf fld (calculateStandings teams matches)
  = sumOver (fun m => keySum (fun k => delta k m) (keysOf (initialMap teams)))
            matches.
Proof.
  intro Hzero. unfold calculateStandings.
  rewrite (totalOf_perm _ _ _ (sortBy_perm _ _)).
  rewrite standingsMapOf_records.
  change (map (fun e => (fst e, recordFold teams matches (fst e) (snd e)))
              (initialMap teams))
    with (mapVals (recordFold teams matches) (initialMap teams)).
  rewrite totalOf_fold.
  assert (H0 : totalOf fld (Map_values (initialMap teams)) = 0).
  { assert (Hall : forall e, In e (initialMap teams) -> fld (snd e) = 0).
    { intros [k s] He. destruct (initialMap_in _ _ _ He) as [t [_ [_ ->]]].
      apply Hzero. }
    induction (initialMap teams) as [|e sm IH]; [reflexivity|].
    cbn [Map_values map totalOf fold_right].
    rewrite (Hall e) by now left.
    unfold Map_values, totalOf in IH. rewrite IH; [reflexivity|].
    intros e' He'. apply Hall. now right. }
  rewrite H0. lia.
Qed.
End Totals.

Lemma counted_ids_in teams m :
  counted teams m = true ->
  In (winnerIdIn m) (keysOf (initialMap teams))
  /\ In (loserIdIn m) (keysOf (initialMap teams)).
Proof.
  intro Hc. assert (Hc' := Hc). unfold counted in Hc'.
  destruct (Match.winner m) as [w|] eqn:Hw;
    [|rewrite andb_false_r in Hc'; discriminate].
  destruct (counted_winner teams m w Hc Hw) as (-> & -> & H1 & H2).
  split; now apply initialMap_keys.
Qed.

(** What one match adds to a column, summed over the records of the
    table: the share of the winner plus the share of the loser when the
    match is counted, nothing otherwise. *)
Lemma keySum_shares teams m (a b : Z) :
  keySum (fun k => if counted teams m
                   then b2z (String.eqb k (winnerIdIn m)) * a
                        + b2z (String.eqb k (loserIdIn m)) * b
                   else 0)
         (keysOf (initialMap teams))
  = if counted teams m then a + b else 0.
Proof.
  destruct (counted teams m) eqn:Hc; [|apply keySum_zero].
  destruct (counted_ids_in teams m Hc) as [Hw Hl].
  rewrite keySum_linear.
  rewrite !keySum_present by (apply Map_new_NoDup || assumption). lia.
Qed.

Lemma awards_sum m :
  winnerAward m + loserAward m = if decidedTally m then 3 else 0.
Proof.
  unfold winnerAward, loserAward, decidedTally. cbv zeta.
  pose proof (setsWon1_nonneg (Match.sets m)).
  pose proof (setsWon2_nonneg (Match.sets m)).
  set (a := setsWon1 (Match.sets m)) in *.
  set (b := setsWon2 (Match.sets m)) in *.
  destruct (Z.eqb_spec (Z.max a b) 2), (Z.eqb_spec (Z.min a b) 0),
    (Z.eqb_spec (Z.min a b) 1); cbn [andb];
    destruct (Z.eqb_spec a 2), (Z.eqb_spec b 2); cbn [andb orb]; try lia;
    destruct (Z.eqb_spec b 0), (Z.eqb_spec b 1), (Z.eqb_spec a 0),
      (Z.eqb_spec a 1); cbn [andb orb]; lia.
Qed.

Lemma forWinner_forLoser m winnerId :
  forWinnerOf m winnerId + forLoserOf m winnerId
  = scoreSum1 (Match.sets m) + scoreSum2 (Match.sets m).
Proof.
  unfold forWinnerOf, forLoserOf. destruct (String.eqb _ _); lia.
Qed.

Lemma sumOver_if_counted teams (f : Match.t -> Z) matches :
  sumOver (fun m => if counted teams m then f m else 0) matches
  = sumOver f (filter (counted teams) matches).
Proof. apply sumOver_filter. Qed.

Lemma sumOver_const_counted teams (c : Z) matches :
  sumOver (fun m => if counted teams m then c else 0) matches
  = c * countOf (counted teams) matches.
Proof.
  unfold countOf. induction matches as [|m matches IH]; [simpl; lia|].
  cbn [sumOver fold_right filter].
  fold (sumOver (fun m => if counted teams m then c else 0) matches).
  rewrite IH. destruct (counted teams m); cbn [List.length]; lia.
Qed.

Lemma keySum_winsDelta teams m :
  keySum (fun k => winsDelta teams k m) (keysOf (initialMap teams))
  = if counted teams m then 1 else 0.
Proof.
  etransitivity; [|etransitivity; [apply (keySum_shares teams m 1 0)|]].
  - apply keySum_ext. intros k _.
    unfold winsDelta. destruct (counted teams m); lia.
  - now destruct (counted teams m).
Qed.

Lemma keySum_lossesDelta teams m :
  keySum (fun k => lossesDelta teams k m) (keysOf (initialMap teams))
  = if counted teams m then 1 else 0.
Proof.
  etransitivity; [|etransitivity; [apply (keySum_shares teams m 0 1)|]].
  - apply keySum_ext. intros k _.
    unfold lossesDelta. destruct (counted teams m); lia.
  - now destruct (counted teams m).
Qed.

Lemma keySum_playedDelta teams m :
  keySum (fun k => playedDelta teams k m) (keysOf (initialMap teams))
  = if counted teams m then 2 else 0.
Proof.
  etransitivity; [|etransitivity; [apply (keySum_shares teams m 1 1)|]].
  - apply keySum_ext. intros k _.
    unfold playedDelta. destruct (counted teams m); lia.
  - now destruct (counted teams m).
Qed.

(** X5. Every counted match is one win, one loss and two matches played:
    over the whole table the wins and the losses both add up to the number
    of counted matches, and the matches played to twice that number. *)
Theorem calculateStandings_totals :
  forall (teams : list Team.t) (matches : list Match.t),
    let table := calculateStandings teams matches in
    totalOf Standings.wins table = countOf (counted teams) matches
    /\ totalOf Standings.losses table = countOf (counted teams) matches
    /\ totalOf Standings.played table = 2 * countOf (counted teams) matches.
Proof.
  intros teams matches table. subst table. split; [|split].
  - rewrite (totalOf_calculateStandings teams _ (winsDelta teams))
      by (intros; apply countRec_fields || reflexivity).
    rewrite <- (Z.mul_1_l (countOf _ _)), <- sumOver_const_counted.
    apply sumOver_ext_in. intros m _. apply keySum_winsDelta.
  - rewrite (totalOf_calculateStandings teams _ (lossesDelta teams))
      by (intros; apply countRec_fields || reflexivity).
    rewrite <- (Z.mul_1_l (countOf _ _)), <- sumOver_const_counted.
    apply sumOver_ext_in. intros m _. apply keySum_lossesDelta.
  - rewrite (totalOf_calculateStandings teams _ (playedDelta teams))
      by (intros; apply countRec_fields || reflexivity).
    rewrite <- sumOver_const_counted.
    apply sumOver_ext_in. intros m _. apply keySum_playedDelta.
Qed.

Lemma totalOf_difference (table : list Standings.t) :
  (forall s, In s table ->
     Standings.pointsDifference s
     = Standings.pointsFor s - Standings.pointsAgainst s) ->
  totalOf Standings.pointsDifference table
  = totalOf Standings.pointsFor table - totalOf Standings.pointsAgainst table.
Proof.
  induction table as [|s table IH]; simpl; intro H; [reflexivity|].
  rewrite (H s) by now left. rewrite IH; [lia|].
  intros s' Hs'. apply H. now right.
Qed.

(** X6. The points scored are booked twice, once for and once against: over
    the whole table pointsFor and pointsAgainst both add up to the points
    scored in the complete sets of the counted matches, and the point
    differences add up to 0. *)
Theorem calculateStandings_zero_sum :
  forall (teams : list Team.t) (matches : list Match.t),
    let table := calculateStandings teams matches in
    let scored m := scoreSum1 (Match.sets m) + scoreSum2 (Match.sets m) in
    totalOf Standings.pointsFor table
    = sumOver scored (filter (counted teams) matches)
    /\ totalOf Standings.pointsAgainst table
       = sumOver scored (filter (counted teams) matches)
    /\ totalOf Standings.pointsDifference table = 0.
Proof.
  intros teams matches table scored. subst table.
  assert (HF : totalOf Standings.pointsFor (calculateStandings teams matches)
               = sumOver scored (filter (counted teams) matches)).
  { rewrite (totalOf_calculateStandings teams _ (pointsForDelta teams))
      by (intros; apply countRec_fields || reflexivity).
    rewrite <- sumOver_if_counted. apply sumOver_ext_in. intros m _.
    unfold scored. rewrite <- (forWinner_forLoser m (winnerIdIn m)).
    unfold pointsForDelta. apply keySum_shares. }
  assert (HA : totalOf Standings.pointsAgainst
                       (calculateStandings teams matches)
               = sumOver scored (filter (counted teams) matches)).
  { rewrite (totalOf_calculateStandings teams _ (pointsAgainstDelta teams))
      by (intros; apply countRec_fields || reflexivity).
    rewrite <- sumOver_if_counted. apply sumOver_ext_in. intros m _.
    unfold scored. rewrite <- (forWinner_forLoser m (winnerIdIn m)).
    rewrite Z.add_comm.
    unfold pointsAgainstDelta. apply keySum_shares. }
  split; [exact HF|split; [exact HA|]].
  rewrite totalOf_difference; [lia|].
  intros s Hs. apply calculateStandings_in in Hs.
  destruct Hs as [t [_ ->]]. now apply recordFold_difference.
Qed.

(** X7. A counted match whose set tally is 2-0 or 2-1 hands out 3 points in
    all, any other counted match none: the points of the table add up to 3
    times the number of counted matches with such a tally. *)
Theorem calculateStandings_points_total :
  forall (teams : list Team.t) (matches : list Match.t),
    totalOf Standings.points (calculateStandings teams matches)
    = 3 * countOf (fun m => counted teams m && decidedTally m) matches.
Proof.
  intros teams matches.
  rewrite (totalOf_calculateStandings teams _ (pointsDelta teams))
    by (intros; apply countRec_fields || reflexivity).
  unfold countOf.
  induction matches as [|m matches IH]; [reflexivity|].
  cbn [sumOver fold_right filter].
  fold (sumOver (fun m => keySum (fun k => pointsDelta teams k m)
                                 (keysOf (initialMap teams))) matches).
  rewrite IH.
  assert (E : keySum (fun k => pointsDelta teams k m)
                     (keysOf (initialMap teams))
              = if counted teams m && decidedTally m then 3 else 0).
  { unfold pointsDelta. rewrite keySum_shares, awards_sum.
    now destruct (counted teams m), (decidedTally m). }
  rewrite E.
  destruct (counted teams m && decidedTally m); cbn [List.length]; lia.
Qed.

(** ** Bounds on a record *)

Lemma sumOver_le f g matches :
  (forall m, f m <= g m) -> sumOver f matches <= sumOver g matches.
Proof.
  intro H. induction matches as [|m matches IH]; simpl; [lia|].
  specialize (H m). lia.
Qed.

Lemma sumOver_nonneg f matches : (forall m, 0 <= f m) -> 0 <= sumOver f matches.
Proof.
  intro H. induction matches as [|m matches IH]; simpl; [lia|].
  specialize (H m). lia.
Qed.

Lemma sumOver_affine (c : Z) f g matches :
  sumOver (fun m => c * f m + g m) matches
  = c * sumOver f matches + sumOver g matches.
Proof.
  unfold sumOver. induction matches as [|m matches IH]; cbn [fold_right];
    [|rewrite IH]; lia.
Qed.

Lemma awards_bounds m :
  0 <= winnerAward m <= 3 /\ 0 <= loserAward m <= 1.
Proof.
  unfold winnerAward, loserAward. cbv zeta.
  destruct (_ && _); [lia|]. destruct (_ && _); lia.
Qed.

(** X8. In every record of the table the wins, the losses and the points are
    not negative, and the points are at most three per win plus one per
    loss. *)
Theorem calculateStandings_points_bound :
  forall (teams : list Team.t) (matches : list Match.t) (s : Standings.t),
    In s (calculateStandings teams matches) ->
    0 <= Standings.wins s
    /\ 0 <= Standings.losses s
    /\ 0 <= Standings.points s <= 3 * Standings.wins s + Standings.losses s.
Proof.
  intros teams matches s Hs. apply calculateStandings_in in Hs.
  destruct Hs as [t [_ ->]]. rewrite recordFold_initial.
  cbn [Standings.wins Standings.losses Standings.points].
  set (k := Team.id t).
  assert (Hw : forall m, 0 <= winsDelta teams k m).
  { intro m. unfold winsDelta, b2z.
    destruct (counted teams m), (String.eqb k (winnerIdIn m)); lia. }
  assert (Hl : forall m, 0 <= lossesDelta teams k m).
  { intro m. unfold lossesDelta, b2z.
    destruct (counted teams m), (String.eqb k (loserIdIn m)); lia. }
  assert (Hp : forall m, 0 <= pointsDelta teams k m
                         <= 3 * winsDelta teams k m + lossesDelta teams k m).
  { intro m. unfold pointsDelta, winsDelta, lossesDelta, b2z.
    pose proof (awards_bounds m).
    destruct (counted teams m), (String.eqb k (winnerIdIn m)),
      (String.eqb k (loserIdIn m)); lia. }
  split; [now apply sumOver_nonneg|split; [now apply sumOver_nonneg|]].
  split; [apply sumOver_nonneg; intro m; apply Hp|].
  transitivity (sumOver (fun m => 3 * winsDelta teams k m
                                  + lossesDelta teams k m) matches).
  - apply sumOver_le. intro m. apply Hp.
  - rewrite sumOver_affine. lia.
Qed.

Lemma calculateStandings_points_bound_witness :
  0 <= Standings.wins standingA
  /\ 0 <= Standings.losses standingA
  /\ 0 <= Standings.points standingA
     <= 3 * Standings.wins standingA + Standings.losses standingA.
Proof.
  apply (calculateStandings_points_bound [teamA; teamB] [matchAB] standingA).
  rewrite calculateStandings_sample. left. reflexivity.
Defined.

(** * Further properties of [generateRoundRobinMatches] *)

Local Open Scope nat_scope.

Lemma filter_length_perm {A : Type} (p : A -> bool) (l l' : list A) :
  Permutation l l' -> List.length (filter p l) = List.length (filter p l').
Proof.
  induction 1 as [|x l l' HP IH|x y l|l l' l'' H1 IH1 H2 IH2]; simpl.
  - reflexivity.
  - destruct (p x); simpl; now rewrite IH.
  - destruct (p x), (p y); reflexivity.
  - now rewrite IH1.
Qed.

Lemma filter_none {A : Type} (p : A -> bool) (l : list A) :
  (forall x, In x l -> p x = false) -> filter p l = [].
Proof.
  induction l as [|x l IH]; simpl; intro H; [reflexivity|].
  rewrite (H x) by now left. apply IH. intros y Hy. apply H. now right.
Qed.

Section RoundRobinCounts.
Variable twoLegged : bool.

Lemma legs_home_hit t u id :
  Team.id t = id -> Team.id u <> id ->
  List.length (filter (isHome id) (legs twoLegged t u)) = 1
  /\ List.length (filter (isAway id) (legs twoLegged t u))
     = (if twoLegged then 1 else 0).
Proof.
  intros Ht Hu. unfold legs, isHome, isAway.
  apply String.eqb_eq in Ht. apply String.eqb_neq in Hu.
  destruct twoLegged; simpl; now rewrite Ht, Hu.
Qed.

Lemma legs_away_hit t u id :
  Team.id t <> id -> Team.id u = id ->
  List.length (filter (isAway id) (legs twoLegged t u)) = 1
  /\ List.length (filter (isHome id) (legs twoLegged t u))
     = (if twoLegged then 1 else 0).
Proof.
  intros Ht Hu. unfold legs, isHome, isAway.
  apply String.eqb_neq in Ht. apply String.eqb_eq in Hu.
  destruct twoLegged; simpl; now rewrite Ht, Hu.
Qed.

Lemma legs_miss t u id :
  Team.id t <> id -> Team.id u <> id ->
  filter (isHome id) (legs twoLegged t u) = []
  /\ filter (isAway id) (legs twoLegged t u) = [].
Proof.
  intros Ht Hu. unfold legs, isHome, isAway.
  apply String.eqb_neq in Ht. apply String.eqb_neq in Hu.
  destruct twoLegged; simpl; now rewrite Ht, Hu.
Qed.

(** The fixtures of [t] against the teams of [rest], seen from a team of
    [rest] and from [t]. *)
Lemma flat_map_legs_other t rest id :
  Team.id t <> id -> NoDup (map Team.id rest) -> In id (map Team.id rest) ->
  List.length (filter (isAway id) (flat_map (legs twoLegged t) rest)) = 1
  /\ List.length (filter (isHome id) (flat_map (legs twoLegged t) rest))
     = (if twoLegged then 1 else 0).
Proof.
  intros Ht. induction rest as [|u rest IH]; simpl; intros Hnd Hin;
    [contradiction|].
  apply NoDup_cons_iff in Hnd. destruct Hnd as [Hn Hd].
  rewrite !filter_app, !length_app.
  destruct (String.eqb_spec (Team.id u) id) as [E|Hne].
  - destruct (legs_away_hit t u id Ht E) as [-> ->].
    assert (Hrest : forall v, In v rest -> Team.id v <> id).
    { intros v Hv Ev. apply Hn. rewrite E, <- Ev. now apply in_map. }
    assert (H0 : filter (isAway id) (flat_map (legs twoLegged t) rest) = []
                 /\ filter (isHome id) (flat_map (legs twoLegged t) rest) = []).
    { clear IH Hin Hd Hn. induction rest as [|v rest IH]; simpl; [now split|].
      rewrite !filter_app.
      destruct (legs_miss t v id Ht (Hrest v (or_introl eq_refl))) as [-> ->].
      simpl. apply IH. intros w Hw. apply Hrest. now right. }
    destruct H0 as [-> ->]. simpl. split; [reflexivity|lia].
  - destruct Hin as [E|Hin]; [contradiction|].
    destruct (legs_miss t u id Ht Hne) as [-> ->]. simpl.
    now apply IH.
Qed.

Lemma flat_map_legs_self t rest id :
  Team.id t = id -> ~ In id (map Team.id rest) ->
  List.length (filter (isHome id) (flat_map (legs twoLegged t) rest))
  = List.length rest
  /\ List.length (filter (isAway id) (flat_map (legs twoLegged t) rest))
     = (if twoLegged then List.length rest else 0).
Proof.
  intros Ht. induction rest as [|u rest IH]; simpl; intro Hn.
  - split; [reflexivity|now destruct twoLegged].
  - rewrite !filter_app, !length_app.
    assert (Hu : Team.id u <> id) by (intro E; apply Hn; now left).
    destruct (legs_home_hit t u id Ht Hu) as [-> ->].
    destruct IH as [-> ->]; [intro H; apply Hn; now right|].
    split; [reflexivity|now destruct twoLegged].
Qed.

(** Home and away fixtures of a team in the whole schedule. *)
Lemma pairsOf_counts id : forall ts,
  NoDup (map Team.id ts) -> In id (map Team.id ts) ->
  List.length (filter (isHome id) (pairsOf twoLegged ts))
  + List.length (filter (isAway id) (pairsOf twoLegged ts))
  = (if twoLegged then 2 else 1) * (List.length ts - 1)
  /\ (twoLegged = true ->
      List.length (filter (isHome id) (pairsOf twoLegged ts))
      = List.length ts - 1
      /\ List.length (filter (isAway id) (pairsOf twoLegged ts))
         = List.length ts - 1).
Proof.
  induction ts as [|t rest IH]; intros Hnd Hin; [contradiction|].
  simpl in Hnd. apply NoDup_cons_iff in Hnd. destruct Hnd as [Hn Hd].
  cbn [pairsOf List.length]. rewrite !filter_app, !length_app.
  rewrite Nat.sub_succ, Nat.sub_0_r.
  destruct (String.eqb_spec (Team.id t) id) as [E|Hne].
  - rewrite E in Hn.
    destruct (flat_map_legs_self t rest id E Hn) as [-> ->].
    assert (H0 : forall q, In q (pairsOf twoLegged rest) ->
                           isHome id q = false /\ isAway id q = false).
    { clear IH Hin Hd. intros q Hq.
      assert (Hq' : In (fst q) rest /\ In (snd q) rest).
      { clear Hn. revert q Hq.
        induction rest as [|u rest IH]; intros q Hq; [contradiction|].
        cbn [pairsOf] in Hq. apply in_app_or in Hq. destruct Hq as [Hq|Hq].
        - apply in_flat_map in Hq. destruct Hq as [v [Hv Hq]].
          unfold legs in Hq. destruct twoLegged.
          + destruct Hq as [<-|[<-|[]]]; simpl; auto.
          + destruct Hq as [<-|[]]; simpl; auto.
        - destruct (IH q Hq). split; now right. }
      destruct Hq' as [H1 H2]. unfold isHome, isAway.
      split; apply String.eqb_neq; intro Eq; apply Hn; rewrite <- Eq;
        now apply in_map. }
    assert (Hh : filter (isHome id) (pairsOf twoLegged rest) = []).
    { apply filter_none. intros q Hq. apply H0, Hq. }
    assert (Ha : filter (isAway id) (pairsOf twoLegged rest) = []).
    { apply filter_none. intros q Hq. apply H0, Hq. }
    rewrite Hh, Ha. simpl. split; [destruct twoLegged; lia|].
    intros ->. lia.
  - destruct Hin as [E|Hin]; [contradiction|].
    destruct (flat_map_legs_other t rest id Hne Hd Hin) as [Ea Eh].
    destruct (IH Hd Hin) as [IH1 IH2].
    assert (Hlen : 1 <= List.length rest).
    { destruct rest; [contradiction|simpl; lia]. }
    rewrite Ea, Eh. split.
    + destruct twoLegged; lia.
    + intros ->. destruct (IH2 eq_refl). lia.
Qed.
End RoundRobinCounts.

Lemma pairsOf_in twoLegged ts q :
  In q (pairsOf twoLegged ts) -> In (fst q) ts /\ In (snd q) ts.
Proof.
  induction ts as [|u rest IH]; intro Hq; [contradiction|].
  cbn [pairsOf] in Hq. apply in_app_or in Hq. destruct Hq as [Hq|Hq].
  - apply in_flat_map in Hq. destruct Hq as [v [Hv Hq]].
    unfold legs in Hq. destruct twoLegged.
    + destruct Hq as [<-|[<-|[]]]; simpl; auto.
    + destruct Hq as [<-|[]]; simpl; auto.
  - destruct (IH Hq). split; now right.
Qed.

Lemma pairsOf_distinct twoLegged ts q :
  NoDup (map Team.id ts) -> In q (pairsOf twoLegged ts) ->
  Team.id (fst q) <> Team.id (snd q).
Proof.
  induction ts as [|u rest IH]; intros Hnd Hq; [contradiction|].
  simpl in Hnd. apply NoDup_cons_iff in Hnd. destruct Hnd as [Hn Hd].
  cbn [pairsOf] in Hq. apply in_app_or in Hq. destruct Hq as [Hq|Hq].
  - apply in_flat_map in Hq. destruct Hq as [v [Hv Hq]].
    assert (Huv : Team.id u <> Team.id v).
    { intro E. apply Hn. rewrite E. now apply in_map. }
    unfold legs in Hq. destruct twoLegged.
    + destruct Hq as [<-|[<-|[]]]; simpl; auto.
    + destruct Hq as [<-|[]]; simpl; auto.
  - now apply IH.
Qed.

Lemma generate_sides rt teams category twoLegged :
  Permutation
    (map sides (generateRoundRobinMatches rt teams category twoLegged))
    (pairsOf twoLegged teams).
Proof.
  rewrite <- (outerSlots_sides twoLegged teams 0).
  rewrite <- (stamp_sides rt category _ 0).
  apply Permutation_map, generate_perm.
Qed.

(** X9. When the ids of the teams are pairwise distinct, no generated match
    opposes a team to itself: its two teams are teams of the list with
    different ids. *)
Theorem generateRoundRobinMatches_no_self_match :
  forall (rt : Runtime) (teams : list Team.t) (category : Category.t)
         (twoLegged : bool),
    NoDup (map Team.id teams) ->
    Forall (fun m => Team.id (Match.team1 m) <> Team.id (Match.team2 m))
           (generateRoundRobinMatches rt teams category twoLegged).
Proof.
  intros rt teams category twoLegged Hnd. apply Forall_forall. intros m Hm.
  apply (in_map sides) in Hm.
  apply (Permutation_in _ (generate_sides rt teams category twoLegged)) in Hm.
  apply (pairsOf_distinct twoLegged teams (sides m) Hnd Hm).
Qed.

Lemma teamsABC_distinct : NoDup (map Team.id [teamA; teamB; teamC]).
Proof.
  simpl. constructor; [intros [E|[E|[]]]; discriminate|].
  constructor; [intros [E|[]]; discriminate|].
  constructor; [intros []|constructor].
Defined.

Lemma generateRoundRobinMatches_no_self_match_witness :
  Forall (fun m => Team.id (Match.team1 m) <> Team.id (Match.team2 m))
         (generateRoundRobinMatches (runtimeAt 1000 Nat.even)
                                    [teamA; teamB; teamC] sampleCategory true).
Proof.
  apply (generateRoundRobinMatches_no_self_match
           (runtimeAt 1000 Nat.even) [teamA; teamB; teamC] sampleCategory true
           teamsABC_distinct).
Defined.

Lemma filter_map_length {A B : Type} (f : A -> B) (p : B -> bool) (l : list A) :
  List.length (filter p (map f l)) = List.length (filter (fun x => p (f x)) l).
Proof.
  induction l as [|x l IH]; simpl; [reflexivity|].
  destruct (p (f x)); simpl; now rewrite IH.
Qed.

(** X10. When the ids of the teams are pairwise distinct, every team of the
    list is in [N - 1] of the generated matches, and with two legs in
    [2 * (N - 1)] of them: [N - 1] times as team1 and [N - 1] times as
    team2. *)
Theorem generateRoundRobinMatches_matches_per_team :
  forall (rt : Runtime) (teams : list Team.t) (category : Category.t)
         (twoLegged : bool) (t : Team.t),
    NoDup (map Team.id teams) ->
    In t teams ->
    let r := generateRoundRobinMatches rt teams category twoLegged in
    let home := filter (fun m => String.eqb (Team.id (Match.team1 m))
                                            (Team.id t)) r in
    let away := filter (fun m => String.eqb (Team.id (Match.team2 m))
                                            (Team.id t)) r in
    let either := filter (fun m =>
                    String.eqb (Team.id (Match.team1 m)) (Team.id t)
                    || String.eqb (Team.id (Match.team2 m)) (Team.id t)) r in
    List.length either
    = (if twoLegged then 2 else 1) * (List.length teams - 1)
    /\ List.length home + List.length away = List.length either
    /\ (twoLegged = true ->
        List.length home = List.length teams - 1
        /\ List.length away = List.length teams - 1).
Proof.
  intros rt teams category twoLegged t Hnd Ht r home away either.
  pose proof (generate_sides rt teams category twoLegged) as HP. fold r in HP.
  assert (Hid : In (Team.id t) (map Team.id teams)) by now apply in_map.
  destruct (pairsOf_counts twoLegged (Team.id t) teams Hnd Hid) as [Hsum H2].
  assert (Hh : List.length home
               = List.length (filter (isHome (Team.id t))
                                     (pairsOf twoLegged teams))).
  { rewrite <- (filter_length_perm _ _ _ HP), filter_map_length.
    reflexivity. }
  assert (Ha : List.length away
               = List.length (filter (isAway (Team.id t))
                                     (pairsOf twoLegged teams))).
  { rewrite <- (filter_length_perm _ _ _ HP), filter_map_length.
    reflexivity. }
  assert (He : List.length home + List.length away = List.length either).
  { assert (Hself : Forall (fun m => Team.id (Match.team1 m)
                                     <> Team.id (Match.team2 m)) r).
    { apply Forall_forall. intros m Hm. apply (in_map sides) in Hm.
      apply (Permutation_in _ HP) in Hm.
      apply (pairsOf_distinct twoLegged teams (sides m) Hnd Hm). }
    subst home away either. clear HP Hh Ha.
    induction r as [|m r IH]; [reflexivity|].
    apply Forall_cons_iff in Hself. destruct Hself as [Hm Hr].
    specialize (IH Hr). cbn [filter].
    destruct (String.eqb_spec (Team.id (Match.team1 m)) (Team.id t)) as [E1|_];
      destruct (String.eqb_spec (Team.id (Match.team2 m)) (Team.id t))
        as [E2|_]; cbn [orb List.length]; try lia.
    exfalso. apply Hm. congruence. }
  split; [lia|split; [exact He|]].
  intro Htl. destruct (H2 Htl). lia.
Qed.

Lemma generateRoundRobinMatches_matches_per_team_witness :
  List.length
    (filter (fun m => String.eqb (Team.id (Match.team1 m)) (Team.id teamB)
                      || String.eqb (Team.id (Match.team2 m)) (Team.id teamB))
            (generateRoundRobinMatches (runtimeAt 1000 Nat.even)
                                       [teamA; teamB; teamC] sampleCategory
                                       true))
  = 2 * (List.length [teamA; teamB; teamC] - 1).
Proof.
  apply (generateRoundRobinMatches_matches_per_team
           (runtimeAt 1000 Nat.even) [teamA; teamB; teamC] sampleCategory true
           teamB teamsABC_distinct).
  right. left. reflexivity.
Defined.

(** * Further properties of [handleUpdateMatch] *)

Local Open Scope Z_scope.

Lemma updateMatch_unfold newMatchData m :
  updateMatch newMatchData m
  = let sets := match newSets newMatchData with
                | Some s => s | None => Match.sets m end in
    let date := match newDate newMatchData with
                | Some d => d | None => Match.date m end in
    let winner :=
      if setsWon1 sets >=? 2 then Some (Match.team1 m)
      else if setsWon2 sets >=? 2 then Some (Match.team2 m)
      else None in
    Match.mk (Match.id m) (Match.categoryId m) (Match.team1 m)
             (Match.team2 m) sets winner
             (match winner with Some _ => Finished | None => Pending end)
             date.
Proof. unfold updateMatch. rewrite setWins_spec. reflexivity. Qed.

Lemma updateMatch_settled newMatchData m : settled (updateMatch newMatchData m).
Proof.
  rewrite updateMatch_unfold. unfold settled, decideWinner. cbv zeta.
  cbn [Match.winner Match.status Match.sets Match.team1 Match.team2].
  split; reflexivity.
Qed.

Lemma updateMatch_idempotent newMatchData m :
  updateMatch newMatchData (updateMatch newMatchData m)
  = updateMatch newMatchData m.
Proof.
  rewrite (updateMatch_unfold newMatchData (updateMatch newMatchData m)).
  rewrite (updateMatch_unfold newMatchData m). cbv zeta.
  cbn [Match.id Match.categoryId Match.team1 Match.team2 Match.sets
       Match.date].
  destruct (newSets newMatchData), (newDate newMatchData); reflexivity.
Qed.

(** X11. Sending the same update twice gives the list that sending it once
    gives. *)
Theorem handleUpdateMatch_idempotent :
  forall (matchId : string) (newMatchData : MatchData)
         (prevMatches : list Match.t),
    handleUpdateMatch matchId newMatchData
      (handleUpdateMatch matchId newMatchData prevMatches)
    = handleUpdateMatch matchId newMatchData prevMatches.
Proof.
  intros matchId newMatchData prevMatches. unfold handleUpdateMatch.
  rewrite map_map. apply map_ext. intro m.
  destruct (String.eqb (Match.id m) matchId) eqn:E; cbn [negb].
  - rewrite (proj1 (updateMatch_same newMatchData m)), E. cbn [negb].
    apply updateMatch_idempotent.
  - now rewrite E.
Qed.

(** X12. An update for an id that no match of the list has leaves the list as
    it is. *)
Theorem handleUpdateMatch_unknown_id :
  forall (matchId : string) (newMatchData : MatchData)
         (prevMatches : list Match.t),
    ~ In matchId (map Match.id prevMatches) ->
    handleUpdateMatch matchId newMatchData prevMatches = prevMatches.
Proof.
  intros matchId newMatchData prevMatches Hn. unfold handleUpdateMatch.
  rewrite <- (map_id prevMatches) at 2. apply map_ext_in. intros m Hm.
  destruct (String.eqb_spec (Match.id m) matchId) as [E|_]; [|reflexivity].
  exfalso. apply Hn. rewrite <- E. now apply in_map.
Qed.

Lemma handleUpdateMatch_unknown_id_witness :
  handleUpdateMatch "m2" resultAB [pendingAB] = [pendingAB].
Proof.
  apply (handleUpdateMatch_unknown_id "m2" resultAB [pendingAB]).
  intros [E|[]]. discriminate.
Defined.

(** X13. A generated match is settled, every updated match is settled, and a
    date-only update of a settled match changes its date and nothing else:
    editing the date of a match never changes its sets, winner or status. *)
Theorem dateOnly_update_keeps_result :
  (forall mid category t1 t2, settled (newMatch mid category t1 t2))
  /\ (forall newMatchData m, settled (updateMatch newMatchData m))
  /\ (forall (matchId date : string) (prevMatches : list Match.t),
        Forall settled prevMatches ->
        handleUpdateMatch matchId (dateOnly date) prevMatches
        = map (fun m => if String.eqb (Match.id m) matchId
                        then withDate date m else m) prevMatches).
Proof.
  split; [|split].
  - intros mid category t1 t2. split; reflexivity.
  - apply updateMatch_settled.
  - intros matchId date prevMatches Hall. unfold handleUpdateMatch.
    apply map_ext_in. intros m Hm.
    rewrite Forall_forall in Hall. destruct (Hall m Hm) as [Hw Hs].
    destruct (String.eqb (Match.id m) matchId); cbn [negb]; [|reflexivity].
    rewrite updateMatch_unfold. cbv zeta. cbn [dateOnly newSets newDate].
    unfold withDate. unfold decideWinner in Hw. rewrite <- Hw, <- Hs.
    reflexivity.
Qed.

Lemma dateOnly_update_keeps_result_witness :
  handleUpdateMatch "m1" (dateOnly "2025-03-02")
                    [updateMatch resultAB pendingAB]
  = map (fun m => if String.eqb (Match.id m) "m1"
                  then withDate "2025-03-02" m else m)
        [updateMatch resultAB pendingAB].
Proof.
  destruct dateOnly_update_keeps_result as (_ & H2 & H3).
  apply H3. constructor; [apply H2|constructor].
Defined.

Lemma setsWon_length sets :
  setsWon1 sets + setsWon2 sets <= Z.of_nat (List.length sets).
Proof.
  unfold setsWon1, setsWon2.
  induction sets as [|set sets IH]; [simpl; lia|].
  cbn [filter List.length].
  destruct (bothScores set) as [[a b]|]; [|lia].
  destruct (Z.gtb_spec a b), (Z.gtb_spec b a); cbn [List.length]; lia.
Qed.

(** X14. Best of three: after an update that leaves the match with at most
    three sets, a team that has won two of the sets with both scores
    present is the winner, and there is no winner when neither team has.
    (With more sets both teams can have two, and team1 is then the
    winner.) *)
Theorem handleUpdateMatch_best_of_three :
  forall (newMatchData : MatchData) (m : Match.t),
    let m' := updateMatch newMatchData m in
    (List.length (Match.sets m') <= 3)%nat ->
    (setsWon1 (Match.sets m') >= 2 -> Match.winner m' = Some (Match.team1 m))
    /\ (setsWon2 (Match.sets m') >= 2 ->
        Match.winner m' = Some (Match.team2 m))
    /\ (setsWon1 (Match.sets m') < 2 -> setsWon2 (Match.sets m') < 2 ->
        Match.winner m' = None /\ Match.status m' = Pending).
Proof.
  intros newMatchData m m' Hlen. subst m'.
  rewrite updateMatch_unfold in *. cbv zeta in *.
  cbn [Match.sets Match.winner Match.status] in *.
  set (sets := match newSets newMatchData with
               | Some s => s | None => Match.sets m end) in *.
  pose proof (setsWon_length sets) as Hb.
  pose proof (setsWon1_nonneg sets). pose proof (setsWon2_nonneg sets).
  destruct (Z.geb_spec (setsWon1 sets) 2), (Z.geb_spec (setsWon2 sets) 2);
    repeat split; intros; try reflexivity; lia.
Qed.

Lemma handleUpdateMatch_best_of_three_witness :
  Match.winner (updateMatch resultAB pendingAB) = Some teamA.
Proof.
  apply (handleUpdateMatch_best_of_three resultAB pendingAB).
  - simpl. lia.
  - vm_compute. discriminate.
Defined.

(** * Properties of the handlers of [App] *)

Lemma generated_match rt teams category twoLegged m :
  In m (generateRoundRobinMatches rt teams category twoLegged) ->
  exists mid t1 t2,
    m = newMatch mid category t1 t2 /\ In t1 teams /\ In t2 teams.
Proof.
  intro H.
  apply (Permutation_in _ (generate_perm rt category twoLegged teams)) in H.
  destruct (in_stamp _ _ _ _ _ H) as [k [s [Hs ->]]].
  apply outerSlots_teams in Hs. destruct Hs as [H1 H2].
  unfold stampSlot. eauto 6.
Qed.

Lemma newMatch_consistent mid category t1 t2 :
  resultConsistent (newMatch mid category t1 t2).
Proof.
  unfold resultConsistent, setsWon1, setsWon2. simpl.
  repeat split; try discriminate; try congruence; try lia.
Qed.

Lemma updateMatch_categoryId newMatchData m :
  Match.categoryId (updateMatch newMatchData m) = Match.categoryId m.
Proof. rewrite updateMatch_unfold. reflexivity. Qed.

Lemma in_map_filter {A : Type} (f : A -> string) (id x : string)
      (l : list A) :
  In x (map f l) -> x <> id ->
  In x (map f (filter (fun a => negb (String.eqb (f a) id)) l)).
Proof.
  intros H Hx. apply in_map_iff in H. destruct H as [a [<- Ha]].
  apply in_map, filter_In. split; [exact Ha|].
  now destruct (String.eqb_spec (f a) id).
Qed.

Lemma teams_map_ids (f : Team.t -> Team.t) (l : list Team.t) :
  (forall t, Team.id (f t) = Team.id t) ->
  map Team.id (map f l) = map Team.id l.
Proof. intro H. rewrite map_map. apply map_ext, H. Qed.

Lemma categories_map_ids (f : Category.t -> Category.t)
      (l : list Category.t) :
  (forall c, Category.id (f c) = Category.id c) ->
  map Category.id (map f l) = map Category.id l.
Proof. intro H. rewrite map_map. apply map_ext, H. Qed.

Ltac app_unfold :=
  cbv beta iota zeta delta
      [perform handleAddPlayer handleUpdatePlayer handleDeletePlayer
       handleAddTeam handleUpdateTeam handleDeleteTeam handleAddCategory
       handleUpdateCategory handleDeleteCategory onUpdateMatch
       handleSelectCategory handleViewPlayerProfile handleBackToMainView
       confirmNewChampionship toggleMaximize
       App.set_players App.set_teams App.set_categories App.set_matches
       App.set_activeCategoryId App.set_viewingPlayerId
       App.set_maximizedWidget
       App.players App.teams App.categories App.matches
       App.activeCategoryId App.viewingPlayerId App.maximizedWidget
       App.isNewChampionshipConfirmOpen].

Ltac split4 := split; [|split; [|split]].

Lemma perform_matchesReferenced a s :
  matchesReferenced s -> matchesReferenced (perform a s).
Proof.
  unfold matchesReferenced. destruct s as [ps ts cs ms ac vp mw nc].
  destruct a; intro H.
  - exact H.
  - exact H.
  - app_unfold. rewrite teams_map_ids by reflexivity. exact H.
  - app_unfold. rewrite map_app. eapply Forall_impl; [|exact H].
    intros m (Hc & H1 & H2 & Hr). split4; auto using in_or_app.
  - app_unfold. rewrite teams_map_ids; [exact H|].
    intro t. now destruct (String.eqb (Team.id t) id).
  - app_unfold. rewrite categories_map_ids by reflexivity.
    apply Forall_forall. intros m Hm. apply filter_In in Hm.
    destruct Hm as [Hm Hf]. rewrite Forall_forall in H.
    destruct (H m Hm) as (Hc & H1 & H2 & Hr).
    apply andb_prop in Hf. destruct Hf as [F1 F2].
    split4; auto.
    + apply in_map_filter; [exact H1|].
      intros E. rewrite E, String.eqb_refl in F1. discriminate.
    + apply in_map_filter; [exact H2|].
      intros E. rewrite E, String.eqb_refl in F2. discriminate.
  - app_unfold. rewrite map_app. eapply Forall_impl; [|exact H].
    intros m (Hc & H1 & H2 & Hr). split4; auto using in_or_app.
  - app_unfold. rewrite categories_map_ids; [exact H|].
    intro c. now destruct (String.eqb (Category.id c) id).
  - app_unfold.
    assert (Hgoal :
      Forall (fun m =>
        In (Match.categoryId m)
           (map Category.id
              (filter (fun c => negb (String.eqb (Category.id c) id)) cs))
        /\ In (Team.id (Match.team1 m)) (map Team.id ts)
        /\ In (Team.id (Match.team2 m)) (map Team.id ts)
        /\ resultConsistent m)
        (filter (fun m => negb (String.eqb (Match.categoryId m) id)) ms)).
    { apply Forall_forall. intros m Hm. apply filter_In in Hm.
      destruct Hm as [Hm Hf]. rewrite Forall_forall in H.
      destruct (H m Hm) as (Hc & H1 & H2 & Hr).
      split4; auto.
      apply in_map_filter; [exact Hc|].
      intros E. rewrite E, String.eqb_refl in Hf. discriminate. }
    destruct (strictEq ac id); exact Hgoal.
  - cbv beta iota delta [perform handleGenerateMatches].
    destruct (activeCategory _) as [c|] eqn:Hac; [|exact H].
    cbv zeta. app_unfold. apply Forall_app. split.
    + apply Forall_forall. intros m Hm. apply filter_In in Hm.
      rewrite Forall_forall in H. now apply H.
    + apply Forall_forall. intros m Hm.
      destruct (generated_match _ _ _ _ _ Hm) as (mid & t1 & t2 & -> & I1 & I2).
      unfold activeCategory in Hac. apply find_some in Hac.
      destruct Hac as [Hc _]. revert Hc I1 I2. app_unfold. intros Hc I1 I2.
      unfold activeCategoryTeams in I1, I2.
      destruct (activeCategory _); [|contradiction].
      apply filter_In in I1, I2. revert I1 I2. app_unfold. intros [I1 _] [I2 _].
      cbn [newMatch Match.categoryId Match.team1 Match.team2].
      split4.
      * now apply in_map.
      * now apply in_map.
      * now apply in_map.
      * apply newMatch_consistent.
  - app_unfold. unfold handleUpdateMatch. apply Forall_forall.
    intros m' Hm'. apply in_map_iff in Hm'. destruct Hm' as [m [<- Hm]].
    rewrite Forall_forall in H. destruct (H m Hm) as (Hc & H1 & H2 & Hr).
    destruct (negb (String.eqb (Match.id m) matchId)); [auto|].
    rewrite updateMatch_categoryId.
    destruct (updateMatch_same newMatchData m) as (_ & -> & ->).
    split4; auto using updateMatch_consistent.
  - exact H.
  - exact H.
  - exact H.
  - constructor.
  - exact H.
Qed.

(** X15. From a first start, after any sequence of calls of the handlers of
    [App] (the file load and the spreadsheet imports apart), every stored
    match belongs to a stored category, its two teams have the ids of
    stored teams, it is Finished exactly when it has a winner, and its
    winner is one of its two teams that has won at least two sets. *)
Theorem reachable_matches_referenced :
  forall actions : list Action,
    matchesReferenced (run actions initialState).
Proof.
  intro actions. unfold run.
  assert (H : matchesReferenced initialState) by constructor.
  revert H. generalize initialState.
  induction actions as [|a actions IH]; intros s H; simpl; [exact H|].
  apply IH, perform_matchesReferenced, H.
Qed.

Lemma filter_all {A : Type} (p : A -> bool) (l : list A) :
  (forall x, In x l -> p x = true) -> filter p l = l.
Proof.
  induction l as [|x l IH]; simpl; intro H; [reflexivity|].
  rewrite (H x) by now left. f_equal. apply IH. intros y Hy. apply H.
  now right.
Qed.

Lemma filter_filter_implied {A : Type} (p q : A -> bool) (l : list A) :
  (forall x, p x = true -> q x = true) ->
  filter p (filter q l) = filter p l.
Proof.
  intro H. induction l as [|x l IH]; simpl; [reflexivity|].
  destruct (q x) eqn:Q; simpl.
  - now rewrite IH.
  - destruct (p x) eqn:P; [|exact IH].
    rewrite (H x P) in Q. discriminate.
Qed.

Lemma find_filter_implied {A : Type} (p q : A -> bool) (l : list A) :
  (forall x, p x = true -> q x = true) ->
  find p (filter q l) = find p l.
Proof.
  intro H. induction l as [|x l IH]; simpl; [reflexivity|].
  destruct (q x) eqn:Q; simpl.
  - now rewrite IH.
  - destruct (p x) eqn:P; [|exact IH].
    rewrite (H x P) in Q. discriminate.
Qed.

Lemma generated_categoryId rt teams category twoLegged m :
  In m (generateRoundRobinMatches rt teams category twoLegged) ->
  Match.categoryId m = Category.id category
  /\ Match.status m = Pending.
Proof.
  intro H. destruct (generated_match _ _ _ _ _ H) as (mid & t1 & t2 & -> & _).
  split; reflexivity.
Qed.

Lemma generated_in_category rt teams c twoLegged m :
  In m (generateRoundRobinMatches rt teams c twoLegged) ->
  String.eqb (Match.categoryId m) (Category.id c) = true.
Proof.
  intro Hm. apply generated_categoryId in Hm. destruct Hm as [-> _].
  apply String.eqb_refl.
Qed.

(** The active category after [handleGenerateMatches]: the same category,
    the same teams, and the generated matches. *)
Lemma handleGenerateMatches_active rt twoLegged s c :
  activeCategory s = Some c ->
  let s' := handleGenerateMatches rt twoLegged s in
  activeCategory s' = Some c
  /\ activeCategoryTeams s' = activeCategoryTeams s
  /\ activeCategoryMatches s'
     = generateRoundRobinMatches rt (activeCategoryTeams s) c twoLegged.
Proof.
  intros Hac s'. subst s'. unfold handleGenerateMatches. rewrite Hac.
  cbv zeta.
  set (new := generateRoundRobinMatches rt (activeCategoryTeams s) c twoLegged).
  set (old := filter _ (App.matches s)).
  assert (Hc : activeCategory (App.set_matches (old ++ new) s) = Some c)
    by exact Hac.
  split; [exact Hc|split].
  - unfold activeCategoryTeams. rewrite Hc, Hac. reflexivity.
  - unfold activeCategoryMatches. rewrite Hc.
    change (App.matches (App.set_matches (old ++ new) s)) with (old ++ new).
    rewrite filter_app. subst old.
    rewrite (filter_none _ (filter _ _)), filter_all; [reflexivity| |].
    + intros m Hm. now apply generated_in_category in Hm.
    + intros m Hm. apply filter_In in Hm. destruct Hm as [_ Hm].
      now destruct (String.eqb (Match.categoryId m) (Category.id c)).
Qed.

(** X16. [handleGenerateMatches] does nothing when there is no active
    category.  Otherwise it leaves the active category and its teams as
    they are, the matches of the active category become exactly the
    generated ones, and the matches of the other categories are kept, in
    their order. *)
Theorem handleGenerateMatches_replaces :
  forall (rt : Runtime) (twoLegged : bool) (s : App.t),
    match activeCategory s with
    | None => handleGenerateMatches rt twoLegged s = s
    | Some c =>
        let s' := handleGenerateMatches rt twoLegged s in
        let others m := negb (String.eqb (Match.categoryId m) (Category.id c)) in
        activeCategory s' = Some c
        /\ activeCategoryTeams s' = activeCategoryTeams s
        /\ activeCategoryMatches s'
           = generateRoundRobinMatches rt (activeCategoryTeams s) c twoLegged
        /\ filter others (App.matches s') = filter others (App.matches s)
    end.
Proof.
  intros rt twoLegged s.
  destruct (activeCategory s) as [c|] eqn:Hac.
  - cbv zeta.
    destruct (handleGenerateMatches_active rt twoLegged s c Hac)
      as (H1 & H2 & H3).
    split4; [exact H1|exact H2|exact H3|].
    unfold handleGenerateMatches. rewrite Hac. cbv zeta.
    match goal with
    | |- context [App.set_matches ?l s] =>
        change (App.matches (App.set_matches l s)) with l
    end.
    rewrite filter_app, filter_filter_implied by auto.
    rewrite (filter_none _ (generateRoundRobinMatches _ _ _ _)), app_nil_r;
      [reflexivity|].
    intros m Hm. apply generated_in_category in Hm. now rewrite Hm.
  - unfold handleGenerateMatches. now rewrite Hac.
Qed.

(** X17. After [handleGenerateMatches], the standings of the active category
    are its teams in the order of the team list, every statistic at 0:
    generating the fixtures again discards the results recorded for the
    category.  (The ids of the teams of the category are taken pairwise
    distinct.) *)
Theorem handleGenerateMatches_resets_standings :
  forall (rt : Runtime) (twoLegged : bool) (s : App.t),
    NoDup (map Team.id (activeCategoryTeams s)) ->
    standings (handleGenerateMatches rt twoLegged s)
    = map initialStandings (activeCategoryTeams s).
Proof.
  intros rt twoLegged s Hnd. unfold standings.
  destruct (activeCategory s) as [c|] eqn:Hac.
  - destruct (handleGenerateMatches_active rt twoLegged s c Hac)
      as (-> & -> & ->).
    destruct (activeCategoryTeams s) as [|t ts] eqn:Ht; [reflexivity|].
    cbn [List.length Nat.eqb]. unfold calculateStandings.
    rewrite Map_values_distinct by exact Hnd.
    erewrite map_ext; [apply sortBy_sorted_id, initialStandings_sorted|].
    intro t'. apply recordFold_uncounted. intros m Hm.
    apply generated_categoryId in Hm. destruct Hm as [_ Hm].
    unfold counted. rewrite Hm. cbn [status_eqb].
    now rewrite andb_false_r.
  - unfold handleGenerateMatches. rewrite !Hac.
    unfold activeCategoryTeams. now rewrite Hac.
Qed.

Lemma handleGenerateMatches_resets_standings_witness :
  standings (handleGenerateMatches (runtimeAt 0 (fun _ => true)) false
                                   sampleState)
  = map initialStandings [teamA; teamB].
Proof.
  apply (handleGenerateMatches_resets_standings
           (runtimeAt 0 (fun _ => true)) false sampleState).
  exact teamsAB_distinct.
Defined.

Lemma standings_ids s id :
  In id (map (fun r => Team.id (Standings.team r)) (standings s)) ->
  In id (map Team.id (activeCategoryTeams s)).
Proof.
  unfold standings. destruct (activeCategory s); [|contradiction].
  destruct (List.length (activeCategoryTeams s) =? 0)%nat; [contradiction|].
  intro H.
  apply (Permutation_in _ (calculateStandings_ids _ _)) in H.
  now apply initialMap_keys, hasTeam_In in H.
Qed.

Lemma activeCategoryTeams_in s t :
  In t (activeCategoryTeams s) -> In t (App.teams s).
Proof.
  unfold activeCategoryTeams. destruct (activeCategory s); [|contradiction].
  intro H. now apply filter_In in H.
Qed.

(** X18. After [handleDeleteTeam], no stored team has the id, no category
    lists it, no stored match has a team with it, and the standings have no
    record for it; the teams with another id and the matches between teams
    with other ids are all kept. *)
Theorem handleDeleteTeam_cascade :
  forall (id : string) (s : App.t),
    let s' := handleDeleteTeam id s in
    ~ In id (map Team.id (App.teams s'))
    /\ Forall (fun c => ~ In id (Category.teamIds c)) (App.categories s')
    /\ Forall (fun m => Team.id (Match.team1 m) <> id
                        /\ Team.id (Match.team2 m) <> id) (App.matches s')
    /\ ~ In id (map (fun r => Team.id (Standings.team r)) (standings s'))
    /\ (forall t, In t (App.teams s') <-> In t (App.teams s) /\ Team.id t <> id)
    /\ (forall m, In m (App.matches s') <->
                  In m (App.matches s) /\ Team.id (Match.team1 m) <> id
                  /\ Team.id (Match.team2 m) <> id).
Proof.
  intros id s s'.
  assert (Ht : forall t, In t (App.teams s') <->
                         In t (App.teams s) /\ Team.id t <> id).
  { intro t. subst s'. destruct s. app_unfold. rewrite filter_In.
    destruct (String.eqb_spec (Team.id t) id); simpl; intuition congruence. }
  assert (Hm : forall m, In m (App.matches s') <->
                  In m (App.matches s) /\ Team.id (Match.team1 m) <> id
                  /\ Team.id (Match.team2 m) <> id).
  { intro m. subst s'. destruct s. app_unfold. rewrite filter_In.
    destruct (String.eqb_spec (Team.id (Match.team1 m)) id),
             (String.eqb_spec (Team.id (Match.team2 m)) id);
      simpl; intuition congruence. }
  assert (Hno : ~ In id (map Team.id (App.teams s'))).
  { intro H. apply in_map_iff in H. destruct H as [t [E H]].
    apply Ht in H. tauto. }
  split; [exact Hno|]. split; [|split; [|split; [|split]]].
  - subst s'. destruct s. app_unfold. apply Forall_forall.
    intros c Hc. apply in_map_iff in Hc. destruct Hc as [c0 [<- _]].
    cbn [Category.teamIds]. rewrite filter_In.
    intros [_ H]. rewrite String.eqb_refl in H. discriminate.
  - apply Forall_forall. intros m H. now apply Hm in H.
  - intro H. apply standings_ids in H. apply Hno.
    apply in_map_iff in H. destruct H as [t [E H]].
    apply in_map_iff. exists t. split; [exact E|].
    now apply activeCategoryTeams_in.
  - exact Ht.
  - exact Hm.
Qed.

(** X19. After [handleDeleteCategory], no stored category has the id and no
    stored match belongs to it.  If the category was the active one, there
    is no active category and the standings are empty; otherwise the active
    category, its teams, its matches and its standings are those of
    before. *)
Theorem handleDeleteCategory_cascade :
  forall (id : string) (s : App.t),
    let s' := handleDeleteCategory id s in
    ~ In id (map Category.id (App.categories s'))
    /\ Forall (fun m => Match.categoryId m <> id) (App.matches s')
    /\ (App.activeCategoryId s = Some id ->
        activeCategory s' = None /\ standings s' = [])
    /\ (App.activeCategoryId s <> Some id ->
        activeCategory s' = activeCategory s
        /\ activeCategoryTeams s' = activeCategoryTeams s
        /\ activeCategoryMatches s' = activeCategoryMatches s
        /\ standings s' = standings s).
Proof.
  intros id s s'. subst s'. destruct s as [ps ts cs ms ac vp mw nc].
  split4.
  - app_unfold. intro H. apply in_map_iff in H. destruct H as [c [E H]].
    apply filter_In in H. destruct H as [_ H].
    rewrite E, String.eqb_refl in H. discriminate.
  - app_unfold. apply Forall_forall. intros m H. apply filter_In in H.
    destruct H as [_ H]. intro E. rewrite E, String.eqb_refl in H.
    discriminate.
  - cbn [App.activeCategoryId]. intros ->.
    assert (H : activeCategory
                  (handleDeleteCategory id
                     (App.mk ps ts cs ms (Some id) vp mw nc)) = None).
    { unfold activeCategory. app_unfold. cbn [strictEq].
      rewrite String.eqb_refl. app_unfold.
      induction (filter _ cs) as [|c l IH]; [reflexivity|exact IH]. }
    split; [exact H|]. unfold standings. now rewrite H.
  - cbn [App.activeCategoryId]. intro Hne.
    assert (Hs : strictEq ac id = false).
    { destruct ac as [a|]; [|reflexivity]. cbn [strictEq].
      destruct (String.eqb_spec a id); [congruence|reflexivity]. }
    assert (Himp : forall c : Category.t,
              strictEq ac (Category.id c) = true ->
              negb (String.eqb (Category.id c) id) = true).
    { intros c Hc. destruct ac as [a|]; [|discriminate]. cbn [strictEq] in Hc.
      apply String.eqb_eq in Hc. rewrite <- Hc.
      destruct (String.eqb_spec a id); [congruence|reflexivity]. }
    assert (E : handleDeleteCategory id (App.mk ps ts cs ms ac vp mw nc)
                = App.mk ps ts
                    (filter (fun c => negb (String.eqb (Category.id c) id)) cs)
                    (filter (fun m => negb (String.eqb (Match.categoryId m) id))
                            ms)
                    ac vp mw nc).
    { app_unfold. rewrite Hs. reflexivity. }
    rewrite E. clear E.
    set (s := App.mk ps ts cs ms ac vp mw nc).
    set (s' := App.mk ps ts _ _ ac vp mw nc).
    assert (H : activeCategory s' = activeCategory s).
    { unfold activeCategory, s, s'. cbn [App.activeCategoryId App.categories].
      apply find_filter_implied, Himp. }
    assert (Hteams : activeCategoryTeams s' = activeCategoryTeams s).
    { unfold activeCategoryTeams. rewrite H. reflexivity. }
    assert (Hmatches : activeCategoryMatches s' = activeCategoryMatches s).
    { unfold activeCategoryMatches. rewrite H.
      destruct (activeCategory s) as [c|] eqn:Hc; [|reflexivity].
      unfold s, s'. cbn [App.matches].
      apply filter_filter_implied. intros m Hm.
      apply String.eqb_eq in Hm. rewrite Hm. apply Himp.
      unfold activeCategory in Hc. apply find_some in Hc. apply Hc. }
    split4; try assumption.
    unfold standings. now rewrite H, Hteams, Hmatches.
Qed.

Lemma handleDeleteCategory_cascade_witness :
  standings (handleDeleteCategory "category-2" sampleState)
  = standings sampleState.
Proof.
  apply (handleDeleteCategory_cascade "category-2" sampleState).
  discriminate.
Defined.

(** ** Editing a team keeps its results *)

Lemma sortBy_map {A B : Type} (cmpA : A -> A -> Z) (cmpB : B -> B -> Z)
      (g : A -> B) (l : list A) :
  (forall a b, cmpB (g a) (g b) = cmpA a b) ->
  sortBy cmpB (map g l) = map g (sortBy cmpA l).
Proof.
  intro H. induction l as [|x l IH]; simpl; [reflexivity|].
  rewrite IH. generalize (sortBy cmpA l). intro l'.
  induction l' as [|y l' IH']; simpl; [reflexivity|].
  rewrite H. destruct (cmpA x y <=? 0); simpl; [reflexivity|].
  now rewrite IH'.
Qed.

Lemma filter_map_comm {A B : Type} (p : B -> bool) (f : A -> B) (l : list A) :
  filter p (map f l) = map f (filter (fun a => p (f a)) l).
Proof.
  induction l as [|x l IH]; simpl; [reflexivity|].
  destruct (p (f x)); simpl; now rewrite IH.
Qed.

Section SameIds.
Variable f : Team.t -> Team.t.
Hypothesis f_id : forall t, Team.id (f t) = Team.id t.

Lemma hasTeam_map teams id : hasTeam (map f teams) id = hasTeam teams id.
Proof.
  unfold hasTeam. induction teams as [|t teams IH]; simpl; [reflexivity|].
  now rewrite IH, f_id.
Qed.

Lemma counted_map teams m : counted (map f teams) m = counted teams m.
Proof.
  unfold counted, isRelevant. rewrite !hasTeam_map.
  destruct (Match.winner m); [now rewrite hasTeam_map|reflexivity].
Qed.

Lemma recordFold_map teams matches k : forall s,
  recordFold (map f teams) matches k s = recordFold teams matches k s.
Proof.
  unfold recordFold. induction matches as [|m matches IH]; intro s; simpl;
    [reflexivity|].
  rewrite IH. unfold countRec at 2 4. now rewrite counted_map.
Qed.

Lemma calculateStandings_map teams matches :
  NoDup (map Team.id teams) ->
  calculateStandings (map f teams) matches
  = map (retitle f) (calculateStandings teams matches).
Proof.
  intro Hnd. unfold calculateStandings.
  rewrite (Map_values_distinct teams) by exact Hnd.
  rewrite (Map_values_distinct (map f teams))
    by (rewrite teams_map_ids; [exact Hnd|exact f_id]).
  rewrite <- (sortBy_map compareStandings compareStandings (retitle f))
    by reflexivity.
  f_equal. rewrite !map_map. apply map_ext. intro t.
  rewrite recordFold_map, f_id, !recordFold_initial. reflexivity.
Qed.
End SameIds.

Lemma editTeam_id id name playerIds t :
  Team.id (editTeam id name playerIds t) = Team.id t.
Proof. unfold editTeam. now destruct (String.eqb (Team.id t) id). Qed.

(** X20. [handleUpdateTeam] keeps the results: when the ids of the teams of
    the active category are pairwise distinct, the standings after the
    edit are the standings of before, in the same order and with the same
    figures, the record of the edited team showing the team as edited.
    The matches, which hold copies of the teams as they were, are not
    changed. *)
Theorem handleUpdateTeam_keeps_standings :
  forall (id name : string) (playerIds : list string) (s : App.t),
    NoDup (map Team.id (activeCategoryTeams s)) ->
    let s' := handleUpdateTeam id name playerIds s in
    standings s' = map (retitle (editTeam id name playerIds)) (standings s)
    /\ App.matches s' = App.matches s.
Proof.
  intros id name playerIds s Hnd s'. split; [|reflexivity].
  assert (Hc : activeCategory s' = activeCategory s) by reflexivity.
  assert (Hm : activeCategoryMatches s' = activeCategoryMatches s)
    by reflexivity.
  assert (Ht : activeCategoryTeams s'
               = map (editTeam id name playerIds) (activeCategoryTeams s)).
  { unfold activeCategoryTeams. rewrite Hc.
    destruct (activeCategory s) as [c|]; [|reflexivity].
    change (App.teams s')
      with (map (editTeam id name playerIds) (App.teams s)).
    rewrite filter_map_comm. f_equal. apply filter_ext. intro t.
    now rewrite editTeam_id. }
  unfold standings. rewrite Hc, Hm, Ht, length_map.
  destruct (activeCategory s); [|reflexivity].
  destruct (List.length (activeCategoryTeams s) =? 0)%nat; [reflexivity|].
  apply calculateStandings_map; [apply editTeam_id|exact Hnd].
Qed.

Lemma handleUpdateTeam_keeps_standings_witness :
  standings (handleUpdateTeam "team-a" "Team Alpha" ["p1"] sampleState)
  = map (retitle (editTeam "team-a" "Team Alpha" ["p1"]))
        (standings sampleState).
Proof.
  apply (handleUpdateTeam_keeps_standings
           "team-a" "Team Alpha" ["p1"] sampleState).
  exact teamsAB_distinct.
Defined.

(** * Properties of the match card *)

Lemma replaceAt_length {A : Type} (x : A) (l : list A) : forall i,
  List.length (replaceAt i x l) = List.length l.
Proof.
  induction l as [|y l IH]; intros [|i]; simpl; auto.
Qed.

Lemma replaceAt_eq {A : Type} (x : A) (l : list A) : forall i,
  (i < List.length l)%nat -> nth_error (replaceAt i x l) i = Some x.
Proof.
  induction l as [|y l IH]; intros [|i] H; simpl in *; try lia; auto.
  apply IH. lia.
Qed.

Lemma replaceAt_ne {A : Type} (x : A) (l : list A) : forall i j,
  i <> j -> nth_error (replaceAt i x l) j = nth_error l j.
Proof.
  induction l as [|y l IH]; intros [|i] [|j] H; simpl; auto;
    try congruence.
Qed.

(** X21. A score edit at an index within the sets succeeds.  It keeps the
    number of sets, every other set and the other score of the set; the
    score written is absent when the input does not parse and otherwise is
    the parsed number brought into the interval from 0 to the limit of the
    set (18 for the first two sets, 16 from the third on).  Hence sets
    whose scores are within the limits stay so.  An edit at an index
    outside the sets fails. *)
Theorem handleSetScoreChange_clamps :
  forall (setIndex : nat) (team : ScoreKey) (parsed : option Z)
         (sets : list MatchSet.t),
    ((List.length sets <= setIndex)%nat ->
     handleSetScoreChange setIndex team parsed sets = None)
    /\ ((setIndex < List.length sets)%nat ->
        exists sets' old new,
          handleSetScoreChange setIndex team parsed sets = Some sets'
          /\ List.length sets' = List.length sets
          /\ (forall j, j <> setIndex -> nth_error sets' j = nth_error sets j)
          /\ nth_error sets setIndex = Some old
          /\ nth_error sets' setIndex = Some new
          /\ scoreAt (otherKey team) new = scoreAt (otherKey team) old
          /\ scoreAt team new
             = option_map (fun z => Z.min (maxScore setIndex) (Z.max 0 z))
                          parsed
          /\ scoreInRange setIndex (scoreAt team new)
          /\ (scoresInRange sets -> scoresInRange sets')).
Proof.
  intros setIndex team parsed sets. unfold handleSetScoreChange. split.
  - intro H. apply nth_error_None in H. now rewrite H.
  - intro H. destruct (nth_error sets setIndex) as [old|] eqn:Hold;
      [|apply nth_error_None in Hold; lia].
    set (v := match parsed with None => None | Some _ => _ end).
    assert (Hv : v = option_map
                       (fun z => Z.min (maxScore setIndex) (Z.max 0 z)) parsed).
    { subst v. destruct parsed as [z|]; [|reflexivity]. cbn [option_map].
      f_equal. cbv zeta.
      assert (0 <= maxScore setIndex)
        by (unfold maxScore; destruct (setIndex <? 2)%nat; lia).
      destruct (Z.ltb_spec z 0);
        [destruct (Z.gtb_spec 0 (maxScore setIndex))
        |destruct (Z.gtb_spec z (maxScore setIndex))]; lia. }
    assert (Hr : scoreInRange setIndex v).
    { rewrite Hv. destruct parsed as [z|]; [|exact I]. cbn.
      assert (0 <= maxScore setIndex)
        by (unfold maxScore; destruct (setIndex <? 2)%nat; lia).
      lia. }
    clearbody v.
    exists (replaceAt setIndex (assignScore team v old) sets), old,
           (assignScore team v old).
    split; [reflexivity|]. split; [apply replaceAt_length|].
    split; [intros j Hj; apply replaceAt_ne; congruence|].
    split; [reflexivity|]. split; [now apply replaceAt_eq|].
    split; [now destruct team|]. split; [now destruct team; rewrite <- Hv|].
    split; [now destruct team|].
    intros Hin j set Hj. destruct (Nat.eq_dec j setIndex) as [->|Hne].
    + rewrite replaceAt_eq in Hj by exact H. injection Hj as <-.
      destruct (Hin _ _ Hold) as [H1 H2]. now destruct team.
    + rewrite replaceAt_ne in Hj by congruence. now apply Hin.
Qed.

Lemma handleSetScoreChange_clamps_witness :
  handleSetScoreChange 3 KeyTeam1 (Some 25) emptySets = None.
Proof.
  apply (handleSetScoreChange_clamps 3 KeyTeam1 (Some 25) emptySets).
  simpl. lia.
Defined.

Lemma setsWon1_three s1 s2 s3 :
  setsWon1 [s1; s2; s3]
  = b2z (wonByTeam1 s1) + b2z (wonByTeam1 s2) + b2z (wonByTeam1 s3).
Proof.
  unfold setsWon1, wonByTeam1, bothScores. cbn [filter].
  destruct (MatchSet.team1 s1), (MatchSet.team2 s1),
           (MatchSet.team1 s2), (MatchSet.team2 s2),
           (MatchSet.team1 s3), (MatchSet.team2 s3);
    repeat match goal with |- context [(?a >? ?b)] =>
             destruct (a >? b) end; reflexivity.
Qed.

Lemma setsWon2_three s1 s2 s3 :
  setsWon2 [s1; s2; s3]
  = b2z (wonByTeam2 s1) + b2z (wonByTeam2 s2) + b2z (wonByTeam2 s3).
Proof.
  unfold setsWon2, wonByTeam2, bothScores. cbn [filter].
  destruct (MatchSet.team1 s1), (MatchSet.team2 s1),
           (MatchSet.team1 s2), (MatchSet.team2 s2),
           (MatchSet.team1 s3), (MatchSet.team2 s3);
    repeat match goal with |- context [(?a >? ?b)] =>
             destruct (a >? b) end; reflexivity.
Qed.

Lemma wonBy_exclusive s : wonByTeam1 s = true -> wonByTeam2 s = false.
Proof.
  unfold wonByTeam1, wonByTeam2.
  destruct (MatchSet.team1 s) as [a|], (MatchSet.team2 s) as [b|];
    try discriminate.
  destruct (Z.gtb_spec a b), (Z.gtb_spec b a); intro; try discriminate;
    try lia; reflexivity.
Qed.

(** X22. The card and the saved result agree on the third set.  For a card
    with three sets: when the card holds the third set relevant (the first
    two sets are played and each team has won one), the saved match is won
    by the team that wins the third set, and has no winner while the third
    set is not won; when one team has won both of the first two sets, the
    saved match is won by that team whatever the third set holds. *)
Theorem third_set_decides_when_relevant :
  forall (m : Match.t) (s1 s2 s3 : MatchSet.t) (date : string),
    let sets := [s1; s2; s3] in
    let m' := updateMatch (handleSave sets date) m in
    (isThirdSetRelevant sets = true ->
     Match.winner m'
     = if wonByTeam1 s3 then Some (Match.team1 m)
       else if wonByTeam2 s3 then Some (Match.team2 m) else None)
    /\ (team1FirstTwoSetWins sets = 2%nat ->
        Match.winner m' = Some (Match.team1 m))
    /\ (team2FirstTwoSetWins sets = 2%nat ->
        Match.winner m' = Some (Match.team2 m)).
Proof.
  intros m s1 s2 s3 date sets m'. subst m' sets.
  rewrite updateMatch_unfold. cbv zeta.
  cbn [handleSave newSets newDate Match.winner map].
  assert (E : forall s, MatchSet.mk (MatchSet.team1 s) (MatchSet.team2 s) = s)
    by (now intros []).
  rewrite !E, setsWon1_three, setsWon2_three.
  unfold isThirdSetRelevant, areFirstTwoSetsPlayed, team1FirstTwoSetWins,
    team2FirstTwoSetWins, firstTwoSets.
  cbn [firstn filter forallb].
  pose proof (wonBy_exclusive s1) as X1. pose proof (wonBy_exclusive s2) as X2.
  pose proof (wonBy_exclusive s3) as X3.
  destruct (wonByTeam1 s1), (wonByTeam1 s2), (wonByTeam1 s3);
    try (rewrite X1 by reflexivity); try (rewrite X2 by reflexivity);
    try (rewrite X3 by reflexivity);
    destruct (isPlayed s1), (isPlayed s2);
    repeat match goal with |- context [wonByTeam2 ?s] =>
             destruct (wonByTeam2 s) end;
    cbn; repeat split; intros; try reflexivity; try discriminate.
Qed.

Lemma third_set_decides_when_relevant_witness :
  Match.winner
    (updateMatch
       (handleSave [playedSet 18 10; playedSet 10 18; playedSet 11 5]
                   "2025-03-01") pendingAB)
  = Some teamA.
Proof.
  exact (proj1 (third_set_decides_when_relevant
                  pendingAB (playedSet 18 10) (playedSet 10 18)
                  (playedSet 11 5) "2025-03-01") eq_refl).
Defined.

(** * The two functions on the heap *)

Local Open Scope js_scope.
Local Open Scope nat_scope.

(** ** Lists, options and maps *)

Lemma replaceAt_same {A : Type} (l : list A) : forall i x,
  nth_error l i = Some x -> replaceAt i x l = l.
Proof.
  induction l as [|y l IH]; intros [|i] x H; simpl in *; try discriminate.
  - now injection H as ->.
  - f_equal. now apply IH.
Qed.

Lemma mapO_Forall2 {A B : Type} (f : A -> option B) (l : list A) :
  forall r, mapO f l = Some r <-> Forall2 (fun x y => f x = Some y) l r.
Proof.
  induction l as [|x l IH]; intro r; simpl.
  - split; [intro H; injection H as <-; constructor|].
    intro H. inversion H. reflexivity.
  - split.
    + destruct (f x) as [y|] eqn:E; [|discriminate].
      destruct (mapO f l) as [ys|]; [|discriminate].
      intro H. injection H as <-. constructor; [exact E|]. now apply IH.
    + intro H. inversion H as [|? y ? ys E Hr]; subst. rewrite E.
      apply IH in Hr. now rewrite Hr.
Qed.

Lemma Forall2_impl_In {A B : Type} (R R' : A -> B -> Prop) (l : list A)
      (l' : list B) :
  (forall a b, In a l -> In b l' -> R a b -> R' a b) ->
  Forall2 R l l' -> Forall2 R' l l'.
Proof.
  intros H F. induction F as [|a b l l' Hab F IH]; constructor.
  - apply H; simpl; auto.
  - apply IH. intros a' b' Ha Hb. apply H; simpl; auto.
Qed.

Lemma Forall2_map_r {A B C : Type} (R : A -> C -> Prop) (g : B -> C)
      (l : list A) (l' : list B) :
  Forall2 (fun a b => R a (g b)) l l' -> Forall2 R l (map g l').
Proof. induction 1; simpl; constructor; auto. Qed.

Lemma Forall2_map_l {A B C : Type} (R : C -> B -> Prop) (g : A -> C)
      (l : list A) (l' : list B) :
  Forall2 (fun a b => R (g a) b) l l' -> Forall2 R (map g l) l'.
Proof. induction 1; simpl; constructor; auto. Qed.

Lemma Forall2_fst_eq {A B : Type} (R : string * A -> string * B -> Prop)
      (l : list (string * A)) (l' : list (string * B)) :
  (forall a b, R a b -> fst a = fst b) ->
  Forall2 R l l' -> map fst l = map fst l'.
Proof.
  intros H F. induction F as [|a b l l' Hab F IH]; simpl; [reflexivity|].
  now rewrite (H a b Hab), IH.
Qed.

Lemma Map_set_same {V : Type} (k : string) (v : V) (m : list (string * V)) :
  Map_get k m = Some v -> Map_set k v m = m.
Proof.
  induction m as [|[k' v'] m IH]; simpl; [discriminate|].
  destruct (String.eqb_spec k' k) as [->|Hne].
  - intro H. now injection H as ->.
  - intro H. now rewrite IH.
Qed.

Lemma Map_get_In {V : Type} (k : string) (v : V) (m : list (string * V)) :
  Map_get k m = Some v -> In (k, v) m.
Proof.
  induction m as [|[k' v'] m IH]; simpl; [discriminate|].
  destruct (String.eqb_spec k' k) as [->|Hne].
  - intro H. injection H as ->. now left.
  - intro H. right. now apply IH.
Qed.

Lemma NoDup_fst_inj {V : Type} (m : list (string * V)) k v v' :
  NoDup (map fst m) -> In (k, v) m -> In (k, v') m -> v = v'.
Proof.
  induction m as [|[k0 v0] m IH]; simpl; intros Hnd H1 H2; [contradiction|].
  apply NoDup_cons_iff in Hnd. destruct Hnd as [Hn Hd].
  destruct H1 as [E1|H1], H2 as [E2|H2].
  - congruence.
  - injection E1 as -> ->. exfalso. apply Hn.
    change k with (fst (k, v')). now apply in_map.
  - injection E2 as -> ->. exfalso. apply Hn.
    change k with (fst (k, v)). now apply in_map.
  - now apply IH.
Qed.

Lemma NoDup_snd_inj {V : Type} (m : list (string * V)) k k' v :
  NoDup (map snd m) -> In (k, v) m -> In (k', v) m -> k = k'.
Proof.
  induction m as [|[k0 v0] m IH]; simpl; intros Hnd H1 H2; [contradiction|].
  apply NoDup_cons_iff in Hnd. destruct Hnd as [Hn Hd].
  destruct H1 as [E1|H1], H2 as [E2|H2].
  - congruence.
  - injection E1 as -> ->. exfalso. apply Hn.
    change v with (snd (k', v)). now apply in_map.
  - injection E2 as -> ->. exfalso. apply Hn.
    change v with (snd (k, v)). now apply in_map.
  - now apply IH.
Qed.

(** ** Running the primitives *)

Lemma bind_run {A B : Type} (c : Js A) (k : A -> Js B) host w a w' :
  c host w = Some (a, w') -> bind c k host w = k a host w'.
Proof. unfold bind. now intros ->. Qed.

Lemma load_run host w l o :
  nth_error (heap w) l = Some o -> load l host w = Some (o, w).
Proof. unfold load. now intros ->. Qed.

Lemma loadTeam_run host w l t :
  getTeam (heap w) l = Some t -> loadTeam l host w = Some (t, w).
Proof.
  unfold getTeam, loadTeam, bind, load.
  destruct (nth_error (heap w) l) as [[]|]; try discriminate.
  now intros [= ->].
Qed.

Lemma loadCategory_run host w l c :
  getCategory (heap w) l = Some c -> loadCategory l host w = Some (c, w).
Proof.
  unfold getCategory, loadCategory, bind, load.
  destruct (nth_error (heap w) l) as [[]|]; try discriminate.
  now intros [= ->].
Qed.

Lemma loadSet_run host w l s :
  getSet (heap w) l = Some s -> loadSet l host w = Some (s, w).
Proof.
  unfold getSet, loadSet, bind, load.
  destruct (nth_error (heap w) l) as [[]|]; try discriminate.
  now intros [= ->].
Qed.

Lemma loadArray_run host w l es :
  getArray (heap w) l = Some es -> loadArray l host w = Some (es, w).
Proof.
  unfold getArray, loadArray, bind, load.
  destruct (nth_error (heap w) l) as [[]|]; try discriminate.
  now intros [= ->].
Qed.

Lemma loadMatch_run host w l m :
  nth_error (heap w) l = Some (MatchObject m) ->
  loadMatch l host w = Some (m, w).
Proof. unfold loadMatch, bind, load. now intros ->. Qed.

Lemma loadStandings_run host w l s :
  nth_error (heap w) l = Some (StandingsObject s) ->
  loadStandings l host w = Some (s, w).
Proof. unfold loadStandings, bind, load. now intros ->. Qed.

Lemma loadEntry_run host w l k v :
  nth_error (heap w) l = Some (EntryObj k v) ->
  loadEntry l host w = Some ((k, v), w).
Proof. unfold loadEntry, bind, load. now intros ->. Qed.

Lemma loadMap_run host w l es :
  nth_error (heap w) l = Some (MapObj es) -> loadMap l host w = Some (es, w).
Proof. unfold loadMap, bind, load. now intros ->. Qed.

Lemma store_run host w l o o' :
  nth_error (heap w) l = Some o' ->
  store l o host w = Some (tt, setHeap (replaceAt l o (heap w)) w).
Proof. unfold store. now intros ->. Qed.

(** ** Heaps that keep the objects of the heap a call started with *)

Section Keeps.
Variable h0 : list Obj.

Lemma keeps_refl : keeps h0 h0.
Proof. intros l o H. exact H. Qed.

Lemma keeps_length h : keeps h0 h -> List.length h0 <= List.length h.
Proof.
  intro K. destruct (Nat.le_gt_cases (List.length h0) (List.length h))
    as [H|H]; [exact H|].
  destruct (nth_error h0 (List.length h)) as [o|] eqn:E.
  - apply K in E. apply nth_error_Some in H. 
    assert (nth_error h (List.length h) = None)
      by (apply nth_error_None; lia).
    congruence.
  - apply nth_error_None in E. lia.
Qed.

Lemma keeps_app h : keeps h0 h -> h = h0 ++ skipn (List.length h0) h.
Proof.
  intro K. rewrite <- (firstn_skipn (List.length h0) h) at 1. f_equal.
  apply nth_error_ext. intro l.
  destruct (Nat.lt_ge_cases l (List.length h0)) as [H|H].
  - rewrite nth_error_firstn.
    destruct (l <? List.length h0) eqn:E; [|apply Nat.ltb_ge in E; lia].
    destruct (nth_error h0 l) as [o|] eqn:E0.
    + now apply K.
    + apply nth_error_None in E0. lia.
  - rewrite (proj2 (nth_error_None h0 l)) by exact H.
    apply nth_error_None. rewrite length_firstn. lia.
Qed.

Lemma keeps_alloc h o : keeps h0 h -> keeps h0 (h ++ [o]).
Proof.
  intros K l x H. apply K in H. rewrite nth_error_app1; [exact H|].
  apply nth_error_Some. congruence.
Qed.

Lemma keeps_store h l o :
  keeps h0 h -> List.length h0 <= l -> keeps h0 (replaceAt l o h).
Proof.
  intros K Hl l' x H. rewrite replaceAt_ne; [now apply K|].
  assert (l' < List.length h0) by (apply nth_error_Some; congruence). lia.
Qed.

Lemma keeps_getTeam h l t : keeps h0 h -> getTeam h0 l = Some t -> getTeam h l = Some t.
Proof.
  unfold getTeam. intros K H.
  destruct (nth_error h0 l) as [o|] eqn:E; [|discriminate].
  now rewrite (K _ _ E).
Qed.

Lemma keeps_getSet h l s : keeps h0 h -> getSet h0 l = Some s -> getSet h l = Some s.
Proof.
  unfold getSet. intros K H.
  destruct (nth_error h0 l) as [o|] eqn:E; [|discriminate].
  now rewrite (K _ _ E).
Qed.

Lemma keeps_getArray h l es :
  keeps h0 h -> getArray h0 l = Some es -> getArray h l = Some es.
Proof.
  unfold getArray. intros K H.
  destruct (nth_error h0 l) as [o|] eqn:E; [|discriminate].
  now rewrite (K _ _ E).
Qed.

Lemma keeps_getCategory h l c :
  keeps h0 h -> getCategory h0 l = Some c -> getCategory h l = Some c.
Proof.
  unfold getCategory. intros K H.
  destruct (nth_error h0 l) as [o|] eqn:E; [|discriminate].
  now rewrite (K _ _ E).
Qed.

Lemma keeps_mapO {B : Type} (f : list Obj -> loc -> option B) h l r :
  (forall x y, f h0 x = Some y -> f h x = Some y) ->
  mapO (f h0) l = Some r -> mapO (f h) l = Some r.
Proof.
  intros Hf H. apply mapO_Forall2 in H. apply mapO_Forall2.
  eapply Forall2_impl; [|exact H]. intros x y. apply Hf.
Qed.

Lemma keeps_getArrayOf {B : Type} (f : list Obj -> loc -> option B) h l r :
  keeps h0 h ->
  (forall x y, f h0 x = Some y -> f h x = Some y) ->
  getArrayOf f h0 l = Some r -> getArrayOf f h l = Some r.
Proof.
  unfold getArrayOf. intros K Hf H.
  destruct (getArray h0 l) as [es|] eqn:E; [|discriminate].
  rewrite (keeps_getArray _ _ _ K E). now apply keeps_mapO.
Qed.

Lemma keeps_getMatch h l m :
  keeps h0 h -> getMatch h0 l = Some m -> getMatch h l = Some m.
Proof.
  unfold getMatch. intros K H.
  destruct (nth_error h0 l) as [[| | |mo| | | |]|] eqn:E; try discriminate.
  rewrite (K _ _ E).
  destruct (getTeam h0 (MatchObj.team1 mo)) as [t1|] eqn:E1; [|discriminate].
  destruct (getTeam h0 (MatchObj.team2 mo)) as [t2|] eqn:E2; [|discriminate].
  destruct (getArrayOf getSet h0 (MatchObj.sets mo)) as [ss|] eqn:E3;
    [|discriminate].
  rewrite (keeps_getTeam _ _ _ K E1), (keeps_getTeam _ _ _ K E2).
  rewrite (keeps_getArrayOf getSet _ _ _ K
             (fun x y => keeps_getSet h x y K) E3).
  destruct (MatchObj.winner mo) as [wl|]; [|exact H].
  destruct (getTeam h0 wl) as [w|] eqn:E4; [|discriminate].
  now rewrite (keeps_getTeam _ _ _ K E4).
Qed.
End Keeps.

(** ** Reading a match *)

Lemma getMatch_inv h l m :
  getMatch h l = Some m ->
  exists mo,
    nth_error h l = Some (MatchObject mo)
    /\ getTeam h (MatchObj.team1 mo) = Some (Match.team1 m)
    /\ getTeam h (MatchObj.team2 mo) = Some (Match.team2 m)
    /\ getArrayOf getSet h (MatchObj.sets mo) = Some (Match.sets m)
    /\ match MatchObj.winner mo with
       | Some wl => exists w, getTeam h wl = Some w /\ Match.winner m = Some w
       | None => Match.winner m = None
       end
    /\ MatchObj.status mo = Match.status m
    /\ MatchObj.id mo = Match.id m
    /\ MatchObj.categoryId mo = Match.categoryId m
    /\ MatchObj.date mo = Match.date m.
Proof.
  unfold getMatch. intro H.
  destruct (nth_error h l) as [[| | |mo| | | |]|]; try discriminate.
  exists mo.
  destruct (getTeam h (MatchObj.team1 mo)) as [t1|]; [|discriminate].
  destruct (getTeam h (MatchObj.team2 mo)) as [t2|]; [|discriminate].
  destruct (getArrayOf getSet h (MatchObj.sets mo)) as [ss|]; [|discriminate].
  destruct (MatchObj.winner mo) as [wl|].
  - destruct (getTeam h wl) as [w|]; [|discriminate].
    injection H as <-. simpl. repeat split. now exists w.
  - injection H as <-. simpl. repeat split.
Qed.

Lemma foldM_tally host w ls : forall sets acc,
  mapO (getSet (heap w)) ls = Some sets ->
  foldM (fun acc sl => set <- loadSet sl ;; ret (tallySet acc set)) ls acc
        host w
  = Some (fold_left tallySet sets acc, w).
Proof.
  induction ls as [|l ls IH]; intros sets acc H; simpl in H.
  - injection H as <-. reflexivity.
  - destruct (getSet (heap w) l) as [s|] eqn:E; [|discriminate].
    destruct (mapO (getSet (heap w)) ls) as [ss|] eqn:Es; [|discriminate].
    injection H as <-. cbn [foldM fold_left].
    erewrite bind_run
      by (erewrite bind_run by (apply loadSet_run; exact E); reflexivity).
    now apply IH.
Qed.

(** ** The statements of the callback, on the heap and on the map *)

Section Charge.
Variable host : Host.
Variable w0 : World.
Variable h0 : list Obj.
Variable mp : loc.
Variable E : list (string * loc).
Hypothesis E_keys : NoDup (map fst E).
Hypothesis E_locs : NoDup (map snd E).
Hypothesis E_fresh :
  forall l, In l (map snd E) -> List.length h0 <= l /\ l <> mp.

Lemma Inv_keys sm h : Inv h0 mp E sm h -> map fst E = map fst sm.
Proof.
  intros [_ _ C]. eapply Forall2_fst_eq; [|exact C]. now intros a b [H _].
Qed.

Lemma Inv_cell sm h k l :
  Inv h0 mp E sm h -> Map_get k E = Some l ->
  exists so t s,
    nth_error h l = Some (StandingsObject so)
    /\ getTeam h0 (StandingsObj.team so) = Some t
    /\ s = toStandings t so
    /\ Map_get k sm = Some s.
Proof.
  intros [_ _ C] Hk. clear E_keys E_locs E_fresh.
  induction C as [|[k1 l1] [k2 s2] E' sm' [Ek (so & t & Hso & Ht & Es)] C IH];
    simpl in *; [discriminate|]. subst k2.
  destruct (String.eqb k1 k).
  - injection Hk as <-. exists so, t, s2. auto.
  - now apply IH.
Qed.

Lemma sim_assign k l fH f :
  Map_get k E = Some l -> compat fH f ->
  sim host w0 h0 mp E (assign l fH) (Map_mutate k f).
Proof.
  intros Hk [Ct Cv] sm h HI.
  destruct (Inv_cell _ _ _ _ HI Hk) as (so & t & s & Hso & Ht & Es & Hs).
  pose proof (Inv_keys _ _ HI) as Hkeys.
  destruct HI as [K M C].
  pose proof (Map_get_In _ _ _ Hk) as Hin.
  destruct (E_fresh l) as [Hl Hmp];
    [change l with (snd (k, l)); now apply in_map|].
  exists (replaceAt l (StandingsObject (fH so)) h). split.
  - unfold assign.
    erewrite bind_run by (apply loadStandings_run; exact Hso).
    erewrite store_run by exact Hso. reflexivity.
  - constructor.
    + now apply keeps_store.
    + rewrite replaceAt_ne by exact Hmp. exact M.
    + rewrite Map_mutate_mapAt
        by (unfold keysOf; rewrite <- Hkeys; exact E_keys).
      unfold mapAt, mapVals. apply Forall2_map_r.
      eapply Forall2_impl_In; [|exact C].
      intros [k' l'] [k'' s'] Ha _ [Ek (so' & t' & Hso' & Ht' & Es')].
      simpl in *. subst k''. split; [reflexivity|]. cbn [fst snd].
      unfold onKey, applyIf. destruct (String.eqb_spec k' k) as [->|Hne].
      * assert (l' = l) by (eapply NoDup_fst_inj; eauto). subst l'.
        rewrite Hso in Hso'. injection Hso' as <-.
        exists (fH so), t'. split; [|split].
        -- apply replaceAt_eq. apply nth_error_Some. congruence.
        -- now rewrite Ct.
        -- now rewrite Cv, Es'.
      * assert (l' <> l).
        { intros ->. apply Hne. eapply NoDup_snd_inj; eauto. }
        exists so', t'. split; [|split]; auto.
        rewrite replaceAt_ne by congruence. exact Hso'.
Qed.

Lemma sim_mapSet k l :
  Map_get k E = Some l -> sim host w0 h0 mp E (mapSet mp k l) (Map_mutate k (fun s => s)).
Proof.
  intros Hk sm h HI.
  destruct (Inv_cell _ _ _ _ HI Hk) as (so & t & s & _ & _ & _ & Hs).
  exists h. split.
  - unfold mapSet.
    erewrite bind_run by (apply loadMap_run; exact (inv_map _ _ _ _ _ HI)).
    erewrite store_run by exact (inv_map _ _ _ _ _ HI).
    rewrite (Map_set_same _ _ _ Hk).
    cbn [heap setHeap]. now rewrite (replaceAt_same _ _ _ (inv_map _ _ _ _ _ HI)).
  - unfold Map_mutate. rewrite Hs. now rewrite (Map_set_same _ _ _ Hs).
Qed.

Lemma sim_seq c1 c2 g1 g2 :
  sim host w0 h0 mp E c1 g1 -> sim host w0 h0 mp E c2 g2 -> sim host w0 h0 mp E (c1 ;; c2) (fun sm => g2 (g1 sm)).
Proof.
  intros S1 S2 sm h HI.
  destruct (S1 _ _ HI) as (h1 & R1 & I1).
  destruct (S2 _ _ I1) as (h2 & R2 & I2).
  exists h2. split; [|exact I2].
  erewrite bind_run by exact R1. exact R2.
Qed.

Lemma sim_if (b : bool) c1 c2 g1 g2 :
  sim host w0 h0 mp E c1 g1 -> sim host w0 h0 mp E c2 g2 ->
  sim host w0 h0 mp E (if b then c1 else c2) (fun sm => if b then g1 sm else g2 sm).
Proof. intros S1 S2. now destruct b. Qed.

Lemma sim_ret : sim host w0 h0 mp E (ret tt) (fun sm => sm).
Proof. intros sm h HI. exists h. split; [reflexivity|exact HI]. Qed.

Lemma compat_played d :
  compat (fun s => StandingsObj.set_played (StandingsObj.played s + d) s)
         (fun s => Standings.set_played (Standings.played s + d) s).
Proof. split; [reflexivity|]. now intros t []. Qed.

Lemma compat_wins d :
  compat (fun s => StandingsObj.set_wins (StandingsObj.wins s + d) s)
         (fun s => Standings.set_wins (Standings.wins s + d) s).
Proof. split; [reflexivity|]. now intros t []. Qed.

Lemma compat_losses d :
  compat (fun s => StandingsObj.set_losses (StandingsObj.losses s + d) s)
         (fun s => Standings.set_losses (Standings.losses s + d) s).
Proof. split; [reflexivity|]. now intros t []. Qed.

Lemma compat_points d :
  compat (fun s => StandingsObj.set_points (StandingsObj.points s + d) s)
         (fun s => Standings.set_points (Standings.points s + d) s).
Proof. split; [reflexivity|]. now intros t []. Qed.

Lemma compat_pointsFor d :
  compat (fun s => StandingsObj.set_pointsFor (StandingsObj.pointsFor s + d) s)
         (fun s => Standings.set_pointsFor (Standings.pointsFor s + d) s).
Proof. split; [reflexivity|]. now intros t []. Qed.

Lemma compat_pointsAgainst d :
  compat (fun s => StandingsObj.set_pointsAgainst
                     (StandingsObj.pointsAgainst s + d) s)
         (fun s => Standings.set_pointsAgainst
                     (Standings.pointsAgainst s + d) s).
Proof. split; [reflexivity|]. now intros t []. Qed.

Lemma compat_pointsDifference :
  compat (fun s => StandingsObj.set_pointsDifference
                     (StandingsObj.pointsFor s - StandingsObj.pointsAgainst s) s)
         (fun s => Standings.set_pointsDifference
                     (Standings.pointsFor s - Standings.pointsAgainst s) s).
Proof. split; [reflexivity|]. now intros t []. Qed.

Ltac sim_steps :=
  repeat first
    [ eapply sim_seq
    | eapply sim_if
    | eapply sim_ret
    | eapply sim_mapSet; eassumption
    | eapply sim_assign;
      [ eassumption
      | first [ apply compat_played | apply compat_wins | apply compat_losses
              | apply compat_points | apply compat_pointsFor
              | apply compat_pointsAgainst | apply compat_pointsDifference ] ] ].

Lemma chargeMatchH_sim ml m winnerId loserId ws ls :
  getMatch h0 ml = Some m ->
  Map_get winnerId E = Some ws -> Map_get loserId E = Some ls ->
  sim host w0 h0 mp E (chargeMatchH mp ml winnerId loserId ws ls)
      (chargeMatch m winnerId loserId).
Proof.
  intros Hm Hw Hl sm h HI.
  pose proof (keeps_getMatch _ _ _ _ (inv_keeps _ _ _ _ _ HI) Hm) as Hm'.
  destruct (getMatch_inv _ _ _ Hm') as (mo & Hmo & H1 & _ & Hsets & _).
  unfold getArrayOf in Hsets.
  destruct (getArray h (MatchObj.sets mo)) as [sl|] eqn:Hsl; [|discriminate].
  unfold chargeMatchH.
  erewrite bind_run by (apply loadMatch_run; exact Hmo).
  erewrite bind_run by (apply loadArray_run; exact Hsl).
  erewrite bind_run by (apply foldM_tally; exact Hsets).
  erewrite bind_run by (apply loadMatch_run; exact Hmo).
  erewrite bind_run by (apply loadTeam_run; exact H1).
  cbv zeta.
  change (fold_left tallySet (Match.sets m) (Build_Tally 0 0 0 0))
    with (tallySets (Match.sets m)).
  revert sm h HI Hm' Hmo H1 Hsets Hsl.
  match goal with
  | |- forall sm h, Inv h0 mp E sm h -> _ -> _ -> _ -> _ -> _ ->
         exists h', ?c host (setHeap h w0) = _ /\ _ =>
      assert (S : exists g, sim host w0 h0 mp E c g
                  /\ forall sm, g sm = chargeMatch m winnerId loserId sm)
  end.
  { eexists. split; [sim_steps|]. intro sm.
    unfold chargeMatch. cbv beta zeta. reflexivity. }
  destruct S as (g & Sg & Eg).
  intros sm h HI _ _ _ _ _. destruct (Sg _ _ HI) as (h' & R & I').
  exists h'. split; [exact R|]. now rewrite <- Eg.
Qed.

Lemma mapGet_run sm h k :
  Inv h0 mp E sm h -> mapGet mp k host (setHeap h w0) = Some (Map_get k E, setHeap h w0).
Proof.
  intro HI. unfold mapGet.
  erewrite bind_run by (apply loadMap_run; exact (inv_map _ _ _ _ _ HI)).
  reflexivity.
Qed.

Lemma Inv_get_None sm h k :
  Inv h0 mp E sm h -> Map_get k E = None -> Map_get k sm = None.
Proof.
  intros HI H. apply Map_get_None. apply Map_get_None in H.
  unfold keysOf in *. now rewrite <- (Inv_keys _ _ HI).
Qed.

Lemma countMatchH_sim ml m :
  getMatch h0 ml = Some m ->
  sim host w0 h0 mp E (countMatchH mp ml) (fun sm => countMatch sm m).
Proof.
  intros Hm sm h HI.
  pose proof (keeps_getMatch _ _ _ _ (inv_keeps _ _ _ _ _ HI) Hm) as Hm'.
  destruct (getMatch_inv _ _ _ Hm') as (mo & Hmo & H1 & H2 & _ & Hw & Hst & _).
  unfold countMatchH, countMatch.
  erewrite bind_run by (apply loadMatch_run; exact Hmo).
  rewrite Hst. destruct (Match.status m); [now apply sim_ret|].
  destruct (MatchObj.winner mo) as [wl|];
    [destruct Hw as (w & Hgw & ->)|rewrite Hw; now apply sim_ret].
  erewrite bind_run by (apply loadTeam_run; exact Hgw).
  erewrite bind_run by (apply loadTeam_run; exact H1).
  unfold loserIdOf, winnerIdOf.
  assert (Hloser :
    loadTeam (if String.eqb (Team.id w) (Team.id (Match.team1 m))
              then MatchObj.team2 mo else MatchObj.team1 mo)
             host (setHeap h w0)
    = Some (if String.eqb (Team.id w) (Team.id (Match.team1 m))
            then Match.team2 m else Match.team1 m, setHeap h w0)).
  { destruct (String.eqb (Team.id w) (Team.id (Match.team1 m)));
      apply loadTeam_run; assumption. }
  erewrite bind_run by exact Hloser. clear Hloser.
  erewrite bind_run by (eapply mapGet_run; exact HI).
  erewrite bind_run by (eapply mapGet_run; exact HI).
  set (winnerId := Team.id w).
  set (loserId := Team.id (if String.eqb winnerId (Team.id (Match.team1 m))
                           then Match.team2 m else Match.team1 m)).
  replace (if String.eqb winnerId (Team.id (Match.team1 m))
           then Team.id (Match.team2 m) else Team.id (Match.team1 m))
    with loserId
    by (unfold loserId;
        now destruct (String.eqb winnerId (Team.id (Match.team1 m)))).
  destruct (Map_get winnerId E) as [ws|] eqn:Ews.
  - destruct (Inv_cell _ _ _ _ HI Ews) as (? & ? & s1 & _ & _ & _ & ->).
    destruct (Map_get loserId E) as [ls|] eqn:Els.
    + destruct (Inv_cell _ _ _ _ HI Els) as (? & ? & s2 & _ & _ & _ & ->).
      now apply (chargeMatchH_sim ml m winnerId loserId ws ls Hm Ews Els).
    + rewrite (Inv_get_None _ _ _ HI Els). now apply sim_ret.
  - rewrite (Inv_get_None _ _ _ HI Ews). now apply sim_ret.
Qed.

Lemma forEach_countMatchH_sim rs : forall rms,
  Forall2 (fun ml m => getMatch h0 ml = Some m) rs rms ->
  sim host w0 h0 mp E (forEach (countMatchH mp) rs) (fun sm => fold_left countMatch rms sm).
Proof.
  induction rs as [|ml rs IH]; intros rms F; inversion F as [|? m ? rms' Hm F'];
    subst; cbn [forEach fold_left].
  - apply sim_ret.
  - apply (sim_seq _ _ (fun sm => countMatch sm m)
                   (fun sm => fold_left countMatch rms' sm)).
    + now apply countMatchH_sim.
    + now apply IH.
Qed.

Lemma Inv_alloc sm h o : Inv h0 mp E sm h -> Inv h0 mp E sm (h ++ [o]).
Proof.
  intros [K M C]. constructor.
  - now apply keeps_alloc.
  - rewrite nth_error_app1; [exact M|]. apply nth_error_Some. congruence.
  - eapply Forall2_impl; [|exact C].
    intros e p [Ek (so & t & Hso & Ht & Es)]. split; [exact Ek|].
    exists so, t. split; [|auto].
    rewrite nth_error_app1; [exact Hso|]. apply nth_error_Some. congruence.
Qed.
End Charge.

(** ** The filter of the relevant matches *)

Section Reads.
Variable host : Host.
Variable w0 : World.

Lemma someTeamIs_run side h teamsL tlocs teams ml mo s :
  getArray h teamsL = Some tlocs ->
  mapO (getTeam h) tlocs = Some teams ->
  nth_error h ml = Some (MatchObject mo) ->
  getTeam h (side mo) = Some s ->
  someTeamIs side teamsL ml host (setHeap h w0)
  = Some (hasTeam teams (Team.id s), setHeap h w0).
Proof.
  intros Ha Ht Hmo Hs. unfold someTeamIs.
  erewrite bind_run by (apply loadArray_run; exact Ha).
  clear Ha. revert teams Ht.
  induction tlocs as [|tl tlocs IH]; intros teams Ht; simpl in Ht.
  - injection Ht as <-. reflexivity.
  - destruct (getTeam h tl) as [t|] eqn:Et; [|discriminate].
    destruct (mapO (getTeam h) tlocs) as [ts|] eqn:Ets; [|discriminate].
    injection Ht as <-. cbn [someM hasTeam existsb].
    erewrite bind_run.
    2:{ erewrite bind_run by (apply loadTeam_run; exact Et).
        erewrite bind_run by (apply loadMatch_run; exact Hmo).
        erewrite bind_run by (apply loadTeam_run; exact Hs).
        reflexivity. }
    destruct (String.eqb (Team.id t) (Team.id s)); [reflexivity|].
    now apply IH.
Qed.

Lemma isRelevantH_run h teamsL tlocs teams ml m :
  getArray h teamsL = Some tlocs ->
  mapO (getTeam h) tlocs = Some teams ->
  getMatch h ml = Some m ->
  isRelevantH teamsL ml host (setHeap h w0)
  = Some (isRelevant teams m, setHeap h w0).
Proof.
  intros Ha Ht Hm.
  destruct (getMatch_inv _ _ _ Hm) as (mo & Hmo & H1 & H2 & _).
  unfold isRelevantH, isRelevant.
  erewrite bind_run
    by (eapply (someTeamIs_run MatchObj.team1); eassumption).
  destruct (hasTeam teams (Team.id (Match.team1 m))); [|reflexivity].
  eapply (someTeamIs_run MatchObj.team2); eassumption.
Qed.

Lemma filterM_isRelevantH h0 h teamsL tlocs teams ms : forall matches,
  keeps h0 h ->
  getArray h0 teamsL = Some tlocs ->
  mapO (getTeam h0) tlocs = Some teams ->
  mapO (getMatch h0) ms = Some matches ->
  exists relevant,
    filterM (isRelevantH teamsL) ms host (setHeap h w0)
    = Some (relevant, setHeap h w0)
    /\ mapO (getMatch h0) relevant = Some (filter (isRelevant teams) matches).
Proof.
  intros matches K Ha Ht.
  assert (Ha' : getArray h teamsL = Some tlocs)
    by (eapply keeps_getArray; eassumption).
  assert (Ht' : mapO (getTeam h) tlocs = Some teams)
    by (eapply keeps_mapO; [|exact Ht]; intros x y; now apply keeps_getTeam).
  revert matches.
  induction ms as [|ml ms IH]; intros matches Hm; simpl in Hm.
  - injection Hm as <-. exists []. split; reflexivity.
  - destruct (getMatch h0 ml) as [m|] eqn:Em; [|discriminate].
    destruct (mapO (getMatch h0) ms) as [ms'|] eqn:Ems; [|discriminate].
    injection Hm as <-. destruct (IH ms' eq_refl) as (rel & R & D).
    exists (if isRelevant teams m then ml :: rel else rel). split.
    + cbn [filterM].
      erewrite bind_run
        by (eapply isRelevantH_run;
            [exact Ha'|exact Ht'|eapply keeps_getMatch; eassumption]).
      erewrite bind_run by exact R. reflexivity.
    + cbn [filter]. destruct (isRelevant teams m); [|exact D].
      simpl. now rewrite Em, D.
Qed.
End Reads.

(** ** The entries of the map and the map *)

Lemma keeps_trans h0 h1 h2 : keeps h0 h1 -> keeps h1 h2 -> keeps h0 h2.
Proof. intros K1 K2 l o H. apply K2, K1, H. Qed.

Lemma nth_error_snoc {A : Type} (l : list A) (x : A) :
  nth_error (l ++ [x]) (List.length l) = Some x.
Proof. rewrite nth_error_app2, Nat.sub_diag by lia. reflexivity. Qed.

Section Entries.
Variable host : Host.
Variable w0 : World.
Variable h0 : list Obj.

Lemma mapM_entries tlocs : forall teams h,
  keeps h0 h ->
  mapO (getTeam h0) tlocs = Some teams ->
  exists entries kl h',
    mapM (fun tl =>
            t <- loadTeam tl ;;
            s <- alloc (StandingsObject (initialStandingsObj tl)) ;;
            alloc (EntryObj (Team.id t) s)) tlocs host (setHeap h w0)
    = Some (entries, setHeap h' w0)
    /\ keeps h h'
    /\ Forall2 (fun el p =>
                  nth_error h' el = Some (EntryObj (fst p) (snd p)))
               entries kl
    /\ Forall2 (initialCell h0 h') kl teams
    /\ NoDup (map snd kl)
    /\ (forall l, In l (map snd kl) ->
          List.length h <= l < List.length h').
Proof.
  induction tlocs as [|tl tlocs IH]; intros teams h K Ht; simpl in Ht.
  - injection Ht as <-. exists [], [], h. cbn [mapM].
    split; [reflexivity|]. split; [intros l o H; exact H|].
    split; [constructor|]. split; [constructor|]. split; [constructor|].
    intros ? [].
  - destruct (getTeam h0 tl) as [t|] eqn:Et; [|discriminate].
    destruct (mapO (getTeam h0) tlocs) as [ts|] eqn:Ets; [|discriminate].
    injection Ht as <-.
    set (sl := List.length h).
    set (h1 := (h ++ [StandingsObject (initialStandingsObj tl)])
                 ++ [EntryObj (Team.id t) sl]).
    assert (K01 : keeps h h1)
      by (intros l o H; unfold h1; rewrite !nth_error_app1;
          [exact H| |rewrite length_app; simpl];
          assert (l < List.length h) by (apply nth_error_Some; congruence);
          lia).
    assert (K1 : keeps h0 h1) by (eapply keeps_trans; eassumption).
    destruct (IH ts h1 K1 eq_refl) as (es & kl & h' & R & K' & Fa & Fb & Nd & Fr).
    exists (S sl :: es), ((Team.id t, sl) :: kl), h'.
    assert (Hsl : nth_error h1 sl
                  = Some (StandingsObject (initialStandingsObj tl))).
    { unfold h1. rewrite nth_error_app1
        by (rewrite length_app; simpl; unfold sl; lia).
      apply nth_error_snoc. }
    assert (Hel : nth_error h1 (S sl) = Some (EntryObj (Team.id t) sl)).
    { unfold h1.
      replace (S sl)
        with (List.length (h ++ [StandingsObject (initialStandingsObj tl)]))
        by (rewrite length_app; simpl; unfold sl; lia).
      apply nth_error_snoc. }
    assert (Hlen : List.length h1 = S (S (List.length h)))
      by (unfold h1; rewrite !length_app; simpl; lia).
    split; [|split; [|split; [|split; [|split]]]].
    + cbn [mapM].
      erewrite bind_run.
      2:{ erewrite bind_run
            by (apply loadTeam_run; eapply keeps_getTeam; eassumption).
          unfold bind, alloc. cbn [heap setHeap]. reflexivity. }
      fold sl. rewrite length_app. cbn [List.length]. 
      replace (List.length h + 1) with (S sl) by (unfold sl; lia).
      fold h1. change (setHeap h1 (setHeap (h ++ _) (setHeap h w0)))
        with (setHeap h1 w0).
      erewrite bind_run by exact R. reflexivity.
    + eapply keeps_trans; eassumption.
    + constructor; [|exact Fa]. cbn [fst snd]. now apply K'.
    + constructor; [|exact Fb]. split; [reflexivity|].
      exists tl. cbn [snd]. split; [now apply K'|exact Et].
    + cbn [map snd]. constructor; [|exact Nd].
      intro H. apply Fr in H. lia.
    + cbn [map snd]. intros l [<-|H].
      * pose proof (keeps_length _ _ K'). unfold sl. lia.
      * apply Fr in H. lia.
Qed.

(** [new Map(entries)]: the loop of [set] over the entries. *)
Lemma forEach_mapSet mp entries : forall kl m h,
  Forall2 (fun el p => nth_error h el = Some (EntryObj (fst p) (snd p)))
          entries kl ->
  nth_error h mp = Some (MapObj m) ->
  forEach (fun el => e <- loadEntry el ;; mapSet mp (fst e) (snd e))
          entries host (setHeap h w0)
  = Some (tt, setHeap
                (replaceAt mp
                   (MapObj (fold_left (fun m e => Map_set (fst e) (snd e) m)
                                      kl m)) h) w0).
Proof.
  induction entries as [|el entries IH]; intros kl m h F Hm;
    inversion F as [|? p ? kl' Hel F']; subst; cbn [forEach fold_left].
  - now rewrite (replaceAt_same _ _ _ Hm).
  - assert (Hne : forall l k v, nth_error h l = Some (EntryObj k v) -> l <> mp)
      by (intros l k v H ->; congruence).
    erewrite bind_run.
    2:{ erewrite bind_run by (apply loadEntry_run; exact Hel).
        unfold mapSet.
        erewrite bind_run by (apply loadMap_run; exact Hm).
        erewrite store_run by exact Hm. reflexivity. }
    cbn [fst snd heap setHeap].
    change (setHeap (replaceAt mp ?o h) (setHeap h w0))
      with (setHeap (replaceAt mp o h) w0).
    set (m1 := Map_set (fst p) (snd p) m).
    rewrite (IH kl' m1 (replaceAt mp (MapObj m1) h)).
    + f_equal. f_equal. f_equal.
      clear. revert mp. induction h as [|o h IHh]; intros [|mp]; simpl;
        try reflexivity. now rewrite IHh.
    + eapply Forall2_impl; [|exact F']. intros l q H.
      rewrite replaceAt_ne; [exact H|].
      intro E'. symmetry in E'. revert E'. eapply Hne. exact H.
    + apply replaceAt_eq. apply nth_error_Some. congruence.
Qed.
End Entries.

(** [Map_set] and [new Map] on two lists of entries with the same keys
    and related values. *)
Section MapRel.
Context {V V' : Type}.
Variable Q : V -> V' -> Prop.

Lemma Map_set_rel k v v' m m' :
  Q v v' -> Forall2 (entryRel Q) m m' ->
  Forall2 (entryRel Q) (Map_set k v m) (Map_set k v' m').
Proof.
  intros Hq F. induction F as [|[k1 v1] [k2 v2] m m' [Ek Hv] F IH]; simpl.
  - constructor; [split; auto|constructor].
  - simpl in Ek. subst k2. destruct (String.eqb k1 k).
    + constructor; [split; auto|exact F].
    + constructor; [split; auto|exact IH].
Qed.

Lemma Map_new_rel es es' :
  Forall2 (entryRel Q) es es' -> Forall2 (entryRel Q) (Map_new es) (Map_new es').
Proof.
  unfold Map_new. intro F.
  assert (G : Forall2 (entryRel Q) (@nil (string * V)) (@nil (string * V')))
    by constructor.
  revert G. generalize (@nil (string * V)) (@nil (string * V')).
  induction F as [|[k v] [k' v'] es es' [Ek Hv] F IH]; intros m m' G; simpl;
    [exact G|].
  simpl in Ek. subst k'. apply IH. now apply Map_set_rel.
Qed.
End MapRel.

Lemma Map_set_values {V : Type} (k : string) (v : V) (m : list (string * V)) :
  NoDup (map snd m) -> ~ In v (map snd m) ->
  NoDup (map snd (Map_set k v m))
  /\ (forall x, In x (map snd (Map_set k v m)) -> x = v \/ In x (map snd m)).
Proof.
  induction m as [|[k0 v0] m IH]; simpl; intros Hnd Hv.
  - split; [constructor; [intros []|constructor]|]. intros x [<-|[]]. now left.
  - apply NoDup_cons_iff in Hnd. destruct Hnd as [Hn Hd].
    destruct (String.eqb k0 k); simpl.
    + split; [constructor; tauto|]. intros x [<-|H]; auto.
    + destruct (IH Hd) as [N I]; [tauto|]. split.
      * constructor; [|exact N]. intro H. apply I in H.
        destruct H as [->|H]; tauto.
      * intros x [<-|H]; [auto|]. apply I in H. tauto.
Qed.

Lemma Map_new_values {V : Type} (es : list (string * V)) :
  NoDup (map snd es) -> NoDup (map snd (Map_new es)).
Proof.
  unfold Map_new. intro Hnd.
  assert (G : NoDup (map snd (@nil (string * V)))
              /\ forall x, In x (map snd (@nil (string * V))) ->
                           ~ In x (map snd es))
    by (split; [constructor|intros x []]).
  revert G. generalize (@nil (string * V)).
  induction es as [|[k v] es IH]; intros m [Gn Gd]; simpl; [exact Gn|].
  simpl in Hnd. apply NoDup_cons_iff in Hnd. destruct Hnd as [Hn Hd].
  apply (IH Hd).
  destruct (Map_set_values k v m Gn) as [N I].
  - intro H. apply Gd in H. apply H. now left.
  - split; [exact N|]. intros x H. apply I in H. destruct H as [->|H].
    + exact Hn.
    + intro H'. apply (Gd x H). now right.
Qed.

(** ** The returned array and its sort *)

Lemma mapO_map_In {A B C : Type} (f : B -> option C) (g : A -> B) (d : A -> C)
      (l : list A) :
  (forall x, In x l -> f (g x) = Some (d x)) ->
  mapO f (map g l) = Some (map d l).
Proof.
  induction l as [|x l IH]; intro H; simpl; [reflexivity|].
  rewrite (H x) by now left. rewrite IH; [reflexivity|].
  intros y Hy. apply H. now right.
Qed.

Section Table.
Variable host : Host.
Variable w0 : World.
Variable h0 : list Obj.

Lemma mapM_loadStandings h E : forall sm,
  Forall2 (cellRel h0 h) E sm ->
  exists objs,
    mapM (fun l => s <- loadStandings l ;; ret (l, s)) (map snd E)
         host (setHeap h w0)
    = Some (objs, setHeap h w0)
    /\ map (recordOf h0) objs = map snd sm
    /\ Forall (fun x => nth_error h (fst x) = Some (StandingsObject (snd x))
                        /\ getTeam h0 (StandingsObj.team (snd x))
                           = Some (teamAt h0 (StandingsObj.team (snd x)))) objs.
Proof.
  induction E as [|[k l] E IH]; intros sm F;
    inversion F as [|? [k' s] ? sm' [Ek (so & t & Hso & Ht & Es)] F']; subst.
  - exists []. repeat split. constructor.
  - destruct (IH sm' F') as (objs & R & D & Fo).
    exists ((l, so) :: objs). cbn [fst snd] in *. split; [|split].
    + cbn [map snd mapM].
      erewrite bind_run
        by (erewrite bind_run by (apply loadStandings_run; exact Hso);
            reflexivity).
      erewrite bind_run by exact R. reflexivity.
    + cbn [map snd]. rewrite D. f_equal.
      unfold recordOf, teamAt. cbn [snd]. now rewrite Ht, Es.
    + constructor; [|exact Fo]. cbn [fst snd]. split; [exact Hso|].
      unfold teamAt. now rewrite Ht.
Qed.

Lemma compare_recordOf a b :
  compareStandings ((recordOf h0) a) ((recordOf h0) b)
  = compareStandingsObj (snd a) (snd b).
Proof. reflexivity. Qed.

(** [Array.from(standingsMap.values())] followed by the sort. *)
Lemma table_run h mp E sm :
  keeps h0 h ->
  nth_error h mp = Some (MapObj E) ->
  Forall2 (cellRel h0 h) E sm ->
  exists h',
    (entriesOfMap <- loadMap mp ;;
     standings <- alloc (ArrayObj (map snd entriesOfMap)) ;;
     sortStandingsH standings ;;
     ret standings) host (setHeap h w0)
    = Some (List.length h, setHeap h' w0)
    /\ keeps h0 h'
    /\ getTable h' (List.length h)
       = Some (sortBy compareStandings (Map_values sm)).
Proof.
  intros K M C.
  set (r := List.length h).
  set (h1 := h ++ [ArrayObj (map snd E)]).
  assert (K1 : keeps h h1).
  { intros l o H. unfold h1. rewrite nth_error_app1; [exact H|].
    apply nth_error_Some. congruence. }
  assert (C1 : Forall2 (cellRel h0 h1) E sm).
  { eapply Forall2_impl; [|exact C].
    intros e p [Ek (so & t & Hso & Ht & Es)]. split; [exact Ek|].
    exists so, t. split; [now apply K1|auto]. }
  destruct (mapM_loadStandings h1 E sm C1) as (objs & R & D & Fo).
  assert (Hr : nth_error h1 r = Some (ArrayObj (map snd E)))
    by apply nth_error_snoc.
  set (sorted := sortBy (fun a b => compareStandingsObj (snd a) (snd b)) objs).
  exists (replaceAt r (ArrayObj (map fst sorted)) h1).
  split; [|split].
  - erewrite bind_run by (apply loadMap_run; exact M).
    unfold bind at 1. unfold alloc at 1. cbn [heap setHeap]. fold r h1.
    change (setHeap h1 (setHeap h w0)) with (setHeap h1 w0).
    erewrite bind_run; [reflexivity|].
    unfold sortStandingsH.
    erewrite bind_run
      by (apply loadArray_run; unfold getArray; cbn [heap setHeap];
          now rewrite Hr).
    erewrite bind_run by exact R.
    erewrite store_run by exact Hr. reflexivity.
  - apply keeps_store; [eapply keeps_trans; eassumption|].
    unfold r. now apply keeps_length.
  - unfold getTable, getArrayOf, getArray.
    rewrite replaceAt_eq by (apply nth_error_Some; congruence).
    unfold Map_values. rewrite <- D.
    rewrite (sortBy_map (fun a b => compareStandingsObj (snd a) (snd b))
                        compareStandings (recordOf h0) objs compare_recordOf).
    fold sorted. apply mapO_map_In. intros x Hx.
    assert (Hx' : In x objs).
    { eapply Permutation_in; [apply sortBy_perm|exact Hx]. }
    rewrite Forall_forall in Fo. destruct (Fo x Hx') as [Hso Ht].
    unfold getStandings.
    assert (fst x <> r) by (intros E'; congruence).
    rewrite replaceAt_ne by congruence. rewrite Hso.
    rewrite (keeps_getTeam h0 _ _ _ 
               (keeps_store h0 h1 r _ (keeps_trans _ _ _ K K1)
                            (keeps_length _ _ K)) Ht).
    reflexivity.
Qed.
End Table.

(** ** [calculateStandings] on the heap *)

Lemma setHeap_self w : setHeap (heap w) w = w.
Proof. now destruct w. Qed.

Lemma calculateStandingsH_refines host w teamsL matchesL teams matches :
  getTeams (heap w) teamsL = Some teams ->
  getMatches (heap w) matchesL = Some matches ->
  exists r fresh,
    calculateStandingsH teamsL matchesL host w
    = Some (r, setHeap (heap w ++ fresh) w)
    /\ List.length (heap w) <= r
    /\ getTable (heap w ++ fresh) r = Some (calculateStandings teams matches).
Proof.
  destruct w as [h0 c0 s0 o0]. cbn [heap]. intros Ht Hm.
  set (w := {| heap := h0; clockReads := c0; randomSorts := s0;
               output := o0 |}).
  change (calculateStandingsH teamsL matchesL host w)
    with (calculateStandingsH teamsL matchesL host (setHeap h0 w)).
  unfold getTeams, getMatches, getArrayOf in Ht, Hm.
  destruct (getArray h0 teamsL) as [tlocs|] eqn:Etl; [|discriminate].
  destruct (getArray h0 matchesL) as [ms|] eqn:Eml; [|discriminate].
  unfold calculateStandingsH.
  erewrite bind_run by (apply loadArray_run; exact Etl).
  (* teams.map *)
  destruct (mapM_entries host w h0 tlocs teams h0 (keeps_refl h0) Ht)
    as (entries & kl & h1 & R1 & K1 & Fa & Fb & Nd & Fr).
  erewrite bind_run by exact R1.
  (* the array of the entries and the empty map *)
  unfold bind at 1. unfold alloc at 1. cbn [heap setHeap].
  unfold bind at 1. unfold alloc at 1. cbn [heap setHeap].
  set (ea := List.length h1).
  set (mp := List.length (h1 ++ [ArrayObj entries])).
  set (h2 := (h1 ++ [ArrayObj entries]) ++ [MapObj []]).
  change (setHeap h2 _) with (setHeap h2 w).
  assert (K12 : keeps h1 h2).
  { intros l o H. unfold h2. rewrite !nth_error_app1; [exact H| |];
      rewrite ?length_app; simpl;
      assert (l < List.length h1) by (apply nth_error_Some; congruence); lia. }
  assert (Hea : nth_error h2 ea = Some (ArrayObj entries)).
  { unfold h2. rewrite nth_error_app1 by (rewrite length_app; simpl; lia).
    apply nth_error_snoc. }
  assert (Hmp : nth_error h2 mp = Some (MapObj [])) by apply nth_error_snoc.
  erewrite bind_run
    by (apply loadArray_run; unfold getArray; cbn [heap setHeap];
        now rewrite Hea).
  (* new Map *)
  erewrite bind_run.
  2:{ apply (forEach_mapSet host w mp entries kl [] h2); [|exact Hmp].
      eapply Forall2_impl; [|exact Fa]. intros el p H. now apply K12. }
  fold (Map_new kl).
  set (E := Map_new kl).
  set (h3 := replaceAt mp (MapObj E) h2).
  assert (Hmpl : mp = S (List.length h1))
    by (unfold mp; rewrite length_app; simpl; lia).
  assert (K23 : forall l o, l <> mp -> nth_error h2 l = Some o ->
                            nth_error h3 l = Some o).
  { intros l o Hl H. unfold h3. now rewrite replaceAt_ne by congruence. }
  assert (K03 : keeps h0 h3).
  { apply keeps_store; [eapply keeps_trans; eassumption|].
    pose proof (keeps_length _ _ K1). lia. }
  (* the invariant of the loop over the matches *)
  assert (E_keys : NoDup (map fst E)) by apply Map_new_NoDup.
  assert (E_locs : NoDup (map snd E)) by now apply Map_new_values.
  assert (E_in : forall l, In l (map snd E) -> In l (map snd kl)).
  { intros l H. apply in_map_iff in H. destruct H as [[k l'] [<- H]].
    apply Map_new_in in H. change l' with (snd (k, l')). now apply in_map. }
  assert (E_fresh : forall l, In l (map snd E) ->
                              List.length h0 <= l /\ l <> mp).
  { intros l H. apply E_in, Fr in H. lia. }
  set (sm0 := Map_new (map (fun team => (Team.id team, initialStandings team))
                           teams)).
  assert (I0 : Inv h0 mp E sm0 h3).
  { constructor; [exact K03| |].
    - unfold h3. apply replaceAt_eq. apply nth_error_Some. congruence.
    - unfold E, sm0.
      apply (Map_new_rel
               (fun l s => exists so t,
                    nth_error h3 l = Some (StandingsObject so)
                    /\ getTeam h0 (StandingsObj.team so) = Some t
                    /\ s = toStandings t so)).
      apply Forall2_map_r. eapply Forall2_impl_In; [|exact Fb].
      intros [k l] t Hin _ [Ek (tl & Hc & Hg)]. cbn [fst snd] in *.
      split; [exact Ek|]. cbn [snd].
      exists (initialStandingsObj tl), t. split; [|split; auto].
      apply K23; [|now apply K12].
      assert (In l (map snd kl))
        by (change l with (snd (k, l)); now apply in_map).
      apply Fr in H. lia. }
  (* matches.filter *)
  erewrite bind_run
    by (apply loadArray_run; cbn [heap setHeap];
        eapply keeps_getArray; eassumption).
  destruct (filterM_isRelevantH host w h0 h3 teamsL tlocs teams ms matches
              K03 Etl Ht Hm) as (rel & R3 & D3).
  erewrite bind_run by exact R3.
  unfold bind at 1. unfold alloc at 1. cbn [heap setHeap].
  set (h4 := h3 ++ [ArrayObj rel]).
  change (setHeap h4 _) with (setHeap h4 w).
  assert (I4 : Inv h0 mp E sm0 h4) by now apply Inv_alloc.
  erewrite bind_run
    by (apply loadArray_run; unfold getArray; cbn [heap setHeap];
        unfold h4; now rewrite nth_error_snoc).
  (* relevantMatches.forEach *)
  apply mapO_Forall2 in D3.
  destruct (forEach_countMatchH_sim host w h0 mp E E_keys E_locs E_fresh
              rel _ D3 sm0 h4 I4) as (h5 & R5 & I5).
  erewrite bind_run by exact R5.
  (* Array.from and the sort *)
  destruct (table_run host w h0 h5 mp E _ (inv_keeps _ _ _ _ _ I5)
              (inv_map _ _ _ _ _ I5) (inv_cells _ _ _ _ _ I5))
    as (h6 & R6 & K6 & T6).
  rewrite R6.
  exists (List.length h5), (skipn (List.length h0) h6).
  rewrite <- (keeps_app h0 h6 K6). split; [reflexivity|]. split.
  - apply keeps_length. exact (inv_keeps _ _ _ _ _ I5).
  - exact T6.
Qed.

(** ** Permuted arrays *)

Lemma Forall2_permute {A B : Type} (R : A -> B -> Prop) (order : list nat)
      (l : list A) (l' : list B) :
  Forall2 R l l' -> Forall2 R (permute order l) (permute order l').
Proof.
  intro F. unfold permute.
  induction order as [|i order IH]; simpl; [constructor|].
  apply Forall2_app; [|exact IH].
  clear IH. revert i. induction F as [|x y l l' Hxy F IH]; intros [|i]; simpl;
    try constructor; auto.
Qed.

(** ** [generateRoundRobinMatches] on the heap *)

Lemma getTeam_store h a es es' l :
  nth_error h a = Some (ArrayObj es) ->
  getTeam (replaceAt a (ArrayObj es') h) l = getTeam h l.
Proof.
  intro Ha. unfold getTeam. destruct (Nat.eq_dec l a) as [->|Hne].
  - rewrite replaceAt_eq by (apply nth_error_Some; congruence).
    now rewrite Ha.
  - now rewrite replaceAt_ne by congruence.
Qed.

Lemma getSet_store h a es es' l :
  nth_error h a = Some (ArrayObj es) ->
  getSet (replaceAt a (ArrayObj es') h) l = getSet h l.
Proof.
  intro Ha. unfold getSet. destruct (Nat.eq_dec l a) as [->|Hne].
  - rewrite replaceAt_eq by (apply nth_error_Some; congruence).
    now rewrite Ha.
  - now rewrite replaceAt_ne by congruence.
Qed.

Lemma mapO_ext {A B : Type} (f g : A -> option B) (l : list A) :
  (forall x, f x = g x) -> mapO f l = mapO g l.
Proof.
  intro H. induction l as [|x l IH]; simpl; [reflexivity|].
  now rewrite H, IH.
Qed.

Lemma getSets_store h a es es' l :
  nth_error h a = Some (ArrayObj es) -> l <> a ->
  getArrayOf getSet (replaceAt a (ArrayObj es') h) l = getArrayOf getSet h l.
Proof.
  intros Ha Hl. unfold getArrayOf, getArray.
  rewrite replaceAt_ne by congruence.
  destruct (nth_error h l) as [[| | | | | |es0|]|]; try reflexivity.
  apply mapO_ext. intro x. now apply getSet_store with (es := es).
Qed.

Section Gen.
Variable host : Host.
Variables c0 s0 : nat.
Variable o0 : list string.
Variable h0 : list Obj.
Variables teamsL catL : loc.
Variable twoLegged : bool.
Variable tlocs : list loc.
Variable teams : list Team.t.
Variable category : Category.t.
Hypothesis H_array : getArray h0 teamsL = Some tlocs.
Hypothesis H_teams : mapO (getTeam h0) tlocs = Some teams.
Hypothesis H_category : getCategory h0 catL = Some category.

Let a0 := List.length h0.
Let rt := runtimeOf host c0 s0.

Lemma teams_length : List.length tlocs = List.length teams.
Proof.
  apply mapO_Forall2 in H_teams. eapply Forall2_length; eassumption.
Qed.

Lemma teams_nth i :
  i < List.length teams ->
  exists tl t, nth_error tlocs i = Some tl /\ nth_error teams i = Some t
               /\ getTeam h0 tl = Some t.
Proof.
  intro Hi. apply mapO_Forall2 in H_teams. clear H_array.
  revert i Hi. induction H_teams as [|tl t ls ts Ht F IH]; intros [|i] Hi;
    simpl in *; try lia.
  - now exists tl, t.
  - apply IH. lia.
Qed.

Lemma matchAt_keeps h h' ml m :
  keeps h h' -> matchAt h0 h ml m -> matchAt h0 h' ml m.
Proof.
  intros K [Hg Hs]. split; [now apply (keeps_getMatch h)|].
  intros mo Hmo. destruct (getMatch_inv _ _ _ Hg) as (mo' & Hmo' & _).
  apply K in Hmo'. rewrite Hmo' in Hmo. injection Hmo as <-.
  apply Hs. destruct (getMatch_inv _ _ _ Hg) as (mo'' & Hmo'' & _).
  apply K in Hmo'' as Hk. congruence.
Qed.

Lemma matchAt_push h es es' ml m :
  nth_error h a0 = Some (ArrayObj es) ->
  matchAt h0 h ml m -> matchAt h0 (replaceAt a0 (ArrayObj es') h) ml m.
Proof.
  intros Ha [Hg Hs].
  destruct (getMatch_inv _ _ _ Hg) as (mo & Hmo & _).
  assert (Hml : ml <> a0) by (intros ->; congruence).
  assert (Hmo' : nth_error (replaceAt a0 (ArrayObj es') h) ml
                 = Some (MatchObject mo))
    by (now rewrite replaceAt_ne by congruence).
  split.
  - unfold getMatch in *. rewrite Hmo' . rewrite Hmo in Hg.
    rewrite !(getTeam_store _ _ _ _ _ Ha).
    rewrite (getSets_store _ _ _ _ _ Ha) by (now apply Hs).
    destruct (MatchObj.winner mo);
      [rewrite (getTeam_store _ _ _ _ _ Ha)|]; exact Hg.
  - intros mo' H. rewrite Hmo' in H. injection H as <-. now apply Hs.
Qed.

(** The object literal of a match. *)
Lemma newMatchH_run h k a b leg :
  keeps h0 h -> a0 < List.length h ->
  a < List.length teams -> b < List.length teams ->
  exists ta tb h',
    nth_error teams a = Some ta /\ nth_error teams b = Some tb
    /\ newMatchH teamsL catL a b leg host (genWorld c0 s0 o0 h k)
       = Some (List.length h + 4, genWorld c0 s0 o0 h' (S k))
    /\ keeps h h'
    /\ List.length h' = List.length h + 5
    /\ matchAt h0 h' (List.length h + 4)
         (newMatch (matchIdOf (dateNow rt k) a b leg) category ta tb).
Proof.
  intros K Hlen Ha Hb.
  destruct (teams_nth a Ha) as (tal & ta & Hal & Hta & Hga).
  destruct (teams_nth b Hb) as (tbl & tb & Hbl & Htb & Hgb).
  set (n0 := List.length h).
  set (sets := [SetObj (MatchSet.mk None None); SetObj (MatchSet.mk None None);
                SetObj (MatchSet.mk None None);
                ArrayObj [n0; S n0; S (S n0)]]).
  set (mo := MatchObj.mk (matchIdOf (clockAt host (k + c0)) a b leg)
                         (Category.id category) tal tbl (n0 + 3) None Pending
                         EmptyString).
  set (h' := h ++ sets ++ [MatchObject mo]).
  assert (K' : keeps h h').
  { intros l o H. unfold h'. rewrite nth_error_app1; [exact H|].
    apply nth_error_Some. congruence. }
  assert (Hn : forall i o, nth_error (sets ++ [MatchObject mo]) i = Some o ->
                           nth_error h' (n0 + i) = Some o).
  { intros i o H. unfold h'. rewrite nth_error_app2 by (unfold n0; lia).
    now replace (n0 + i - List.length h) with i by (unfold n0; lia). }
  exists ta, tb, h'. split; [exact Hta|]. split; [exact Htb|].
  split; [|split; [exact K'|split]].
  - unfold newMatchH.
    unfold bind at 1. unfold Date_now at 1.
    cbn [heap clockReads randomSorts output genWorld].
    change {| heap := h; clockReads := S (k + c0); randomSorts := s0;
              output := o0 |} with (genWorld c0 s0 o0 h (S k)).
    erewrite bind_run
      by (apply loadCategory_run; eapply keeps_getCategory; eassumption).
    assert (Harr : loadArray teamsL host (genWorld c0 s0 o0 h (S k))
                   = Some (tlocs, genWorld c0 s0 o0 h (S k)))
      by (apply loadArray_run; eapply keeps_getArray; eassumption).
    unfold arrayGet.
    erewrite bind_run by (erewrite bind_run by exact Harr; rewrite Hal;
                          reflexivity).
    erewrite bind_run by (erewrite bind_run by exact Harr; rewrite Hbl;
                          reflexivity).
    unfold newSetsH, bind, alloc, setHeap, genWorld.
    cbn [heap clockReads randomSorts output].
    rewrite !length_app. cbn [List.length]. fold n0.
    unfold h', sets, mo.
    replace (n0 + 1 + 1 + 1 + 1) with (n0 + 4) by lia.
    replace (n0 + 1 + 1 + 1) with (n0 + 3) by lia.
    replace (n0 + 1 + 1) with (S (S n0)) by lia.
    replace (n0 + 1) with (S n0) by lia.
    rewrite <- !app_assoc. reflexivity.
  - unfold h'. rewrite !length_app. simpl. unfold n0. lia.
  - fold n0. split.
    + unfold getMatch. rewrite (Hn 4 (MatchObject mo)) by reflexivity.
      cbn [MatchObj.team1 MatchObj.team2 MatchObj.sets MatchObj.winner mo].
      rewrite (keeps_getTeam h0 h' _ _ (keeps_trans _ _ _ K K') Hga).
      rewrite (keeps_getTeam h0 h' _ _ (keeps_trans _ _ _ K K') Hgb).
      unfold getArrayOf, getArray.
      rewrite (Hn 3 (ArrayObj [n0; S n0; S (S n0)])) by reflexivity.
      cbn [mapO]. unfold getSet.
      rewrite <- (Nat.add_0_r n0) at 1.
      rewrite (Hn 0 (SetObj (MatchSet.mk None None))) by reflexivity.
      replace (S n0) with (n0 + 1) by lia.
      rewrite (Hn 1 (SetObj (MatchSet.mk None None))) by reflexivity.
      replace (S (n0 + 1)) with (n0 + 2) by lia.
      rewrite (Hn 2 (SetObj (MatchSet.mk None None))) by reflexivity.
      reflexivity.
    + intros mo' H. rewrite (Hn 4 (MatchObject mo)) in H by reflexivity.
      injection H as <-. cbn [MatchObj.sets mo]. unfold n0, a0 in *. lia.
Qed.

Lemma arrayLength_run h k :
  keeps h0 h ->
  arrayLength teamsL host (genWorld c0 s0 o0 h k)
  = Some (List.length teams, genWorld c0 s0 o0 h k).
Proof.
  intro K. unfold arrayLength.
  erewrite bind_run
    by (apply loadArray_run; eapply keeps_getArray; eassumption).
  now rewrite teams_length.
Qed.

(** A match is created and pushed. *)
Lemma pushMatch_run h k ms a b leg :
  GenInv h0 ms h -> a < List.length teams -> b < List.length teams ->
  exists ta tb h',
    nth_error teams a = Some ta /\ nth_error teams b = Some tb
    /\ (m <- newMatchH teamsL catL a b leg ;; arrayPush a0 m)
         host (genWorld c0 s0 o0 h k)
       = Some (tt, genWorld c0 s0 o0 h' (S k))
    /\ GenInv h0 (ms ++ [newMatch (matchIdOf (dateNow rt k) a b leg)
                               category ta tb]) h'.
Proof.
  intros (K & mlocs & Ha & F) Hi Hj. fold a0 in Ha.
  assert (Hlen : a0 < List.length h) by (apply nth_error_Some; congruence).
  destruct (newMatchH_run h k a b leg K Hlen Hi Hj)
    as (ta & tb & h1 & Hta & Htb & R & K1 & _ & M).
  set (ml := List.length h + 4) in *.
  exists ta, tb, (replaceAt a0 (ArrayObj (mlocs ++ [ml])) h1).
  split; [exact Hta|]. split; [exact Htb|].
  pose proof (K1 _ _ Ha) as Ha1. split.
  - erewrite bind_run by exact R. unfold arrayPush.
    erewrite bind_run
      by (apply loadArray_run; unfold getArray; cbn [heap genWorld];
          now rewrite Ha1).
    erewrite store_run by exact Ha1. reflexivity.
  - split.
    + apply keeps_store; [eapply keeps_trans; eassumption|].
      unfold a0. lia.
    + exists (mlocs ++ [ml]). split.
      * apply replaceAt_eq. apply nth_error_Some. fold a0. congruence.
      * apply Forall2_app.
        -- eapply Forall2_impl; [|exact F]. intros x y H.
           eapply matchAt_push; [exact Ha1|].
           eapply matchAt_keeps; eassumption.
        -- constructor; [|constructor].
           eapply matchAt_push; [exact Ha1|exact M].
Qed.

(** Body of the inner loop. *)
Lemma pushPairH_run h k ms i j ti tj :
  GenInv h0 ms h ->
  nth_error teams i = Some ti -> nth_error teams j = Some tj ->
  exists h',
    pushPairH teamsL catL twoLegged a0 i j host (genWorld c0 s0 o0 h k)
    = Some (tt, genWorld c0 s0 o0 h'
                  (snd (pushPair rt category twoLegged i ti j tj (ms, k))))
    /\ GenInv h0 (fst (pushPair rt category twoLegged i ti j tj (ms, k))) h'.
Proof.
  intros G Hti Htj.
  assert (Hi : i < List.length teams) by (apply nth_error_Some; congruence).
  assert (Hj : j < List.length teams) by (apply nth_error_Some; congruence).
  destruct (pushMatch_run h k ms i j "1" G Hi Hj)
    as (ta & tb & h1 & Ea & Eb & R1 & G1).
  rewrite Hti in Ea. rewrite Htj in Eb. injection Ea as <-. injection Eb as <-.
  unfold pushPairH, pushPair.
  assert (R1' : (match1 <- newMatchH teamsL catL i j "1" ;;
                 arrayPush a0 match1 ;;
                 (if twoLegged
                  then match2 <- newMatchH teamsL catL j i "2" ;;
                       arrayPush a0 match2
                  else ret tt)) host (genWorld c0 s0 o0 h k)
                = (if twoLegged
                   then match2 <- newMatchH teamsL catL j i "2" ;;
                        arrayPush a0 match2
                   else ret tt) host (genWorld c0 s0 o0 h1 (S k))).
  { unfold bind in *.
    destruct (newMatchH teamsL catL i j "1" host (genWorld c0 s0 o0 h k))
      as [[m1 w1]|]; [|discriminate].
    now rewrite R1. }
  rewrite R1'. destruct twoLegged.
  - destruct (pushMatch_run h1 (S k) _ j i "2" G1 Hj Hi)
      as (ta & tb & h2 & Ea & Eb & R2 & G2).
    rewrite Htj in Ea. rewrite Hti in Eb.
    injection Ea as <-. injection Eb as <-.
    exists h2. split; [exact R2|exact G2].
  - exists h1. split; [reflexivity|exact G1].
Qed.

Lemma skipn_nth {A : Type} (l : list A) : forall j x,
  nth_error l j = Some x -> skipn j l = x :: skipn (S j) l.
Proof.
  induction l as [|y l IH]; intros [|j] x H; simpl in *; try discriminate.
  - now injection H as ->.
  - now apply IH.
Qed.

(** The inner loop. *)
Lemma innerLoopH_run i ti fuel : forall j ms k h,
  List.length teams - j < fuel ->
  nth_error teams i = Some ti ->
  GenInv h0 ms h ->
  let st := innerLoop rt category twoLegged i ti j (skipn j teams) (ms, k) in
  exists h',
    forLoop fuel
      (fun j => len <- arrayLength teamsL ;; ret (j <? len))
      (fun j => pushPairH teamsL catL twoLegged a0 i j) j
      host (genWorld c0 s0 o0 h k)
    = Some (tt, genWorld c0 s0 o0 h' (snd st))
    /\ GenInv h0 (fst st) h'.
Proof.
  induction fuel as [|fuel IH]; intros j ms k h Hf Hti G; [lia|].
  cbn [forLoop].
  erewrite bind_run
    by (erewrite bind_run by (apply arrayLength_run; apply G); reflexivity).
  destruct (Nat.ltb_spec j (List.length teams)) as [Hj|Hj].
  - destruct (nth_error teams j) as [tj|] eqn:Htj;
      [|apply nth_error_None in Htj; lia].
    rewrite (skipn_nth _ _ _ Htj). cbn [innerLoop].
    destruct (pushPairH_run h k ms i j ti tj G Hti Htj) as (h1 & R1 & G1).
    erewrite bind_run by exact R1.
    destruct (pushPair rt category twoLegged i ti j tj (ms, k)) as [ms1 k1].
    apply IH; [lia|exact Hti|exact G1].
  - rewrite skipn_all2 by lia. cbn [innerLoop fst snd].
    exists h. split; [reflexivity|exact G].
Qed.

(** The outer loop. *)
Lemma outerLoopH_run fuel0 fuel : forall i ms k h,
  List.length teams < fuel0 ->
  List.length teams - i < fuel ->
  GenInv h0 ms h ->
  let st := outerLoop rt category twoLegged i (skipn i teams) (ms, k) in
  exists h',
    forLoop fuel
      (fun i => len <- arrayLength teamsL ;; ret (i <? len))
      (fun i =>
         forLoop fuel0
           (fun j => len <- arrayLength teamsL ;; ret (j <? len))
           (fun j => pushPairH teamsL catL twoLegged a0 i j) (S i))
      i host (genWorld c0 s0 o0 h k)
    = Some (tt, genWorld c0 s0 o0 h' (snd st))
    /\ GenInv h0 (fst st) h'.
Proof.
  induction fuel as [|fuel IH]; intros i ms k h Hf0 Hf G; [lia|].
  cbn [forLoop].
  erewrite bind_run
    by (erewrite bind_run by (apply arrayLength_run; apply G); reflexivity).
  destruct (Nat.ltb_spec i (List.length teams)) as [Hi|Hi].
  - destruct (nth_error teams i) as [ti|] eqn:Hti;
      [|apply nth_error_None in Hti; lia].
    rewrite (skipn_nth _ _ _ Hti). cbn [outerLoop].
    destruct (innerLoopH_run i ti fuel0 (S i) ms k h) as (h1 & R1 & G1);
      [lia|exact Hti|exact G|].
    erewrite bind_run by exact R1.
    destruct (innerLoop rt category twoLegged i ti (S i) (skipn (S i) teams)
                        (ms, k)) as [ms1 k1].
    apply IH; [exact Hf0|lia|exact G1].
  - rewrite skipn_all2 by lia. cbn [outerLoop fst snd].
    exists h. split; [reflexivity|exact G].
Qed.

(** The whole function. *)
Lemma generateH_run :
  let result := generateRoundRobinMatches rt teams category twoLegged in
  exists r h',
    generateRoundRobinMatchesH teamsL catL twoLegged host (genWorld c0 s0 o0 h0 0)
    = Some (r, {| heap := h';
                  clockReads := List.length result + c0;
                  randomSorts :=
                    (if List.length teams <? 2 then 0 else 1) + s0;
                  output := o0 |})
    /\ keeps h0 h'
    /\ a0 <= r
    /\ getMatches h' r = Some result.
Proof.
  intro result. unfold generateRoundRobinMatchesH.
  unfold bind at 1. unfold alloc at 1. cbn [heap genWorld setHeap].
  cbn [clockReads randomSorts output].
  change {| heap := h0 ++ [ArrayObj []]; clockReads := c0;
            randomSorts := s0; output := o0 |}
    with (genWorld c0 s0 o0 (h0 ++ [ArrayObj []]) 0).
  set (h1 := h0 ++ [ArrayObj []]). fold a0.
  assert (K1 : keeps h0 h1) by (apply keeps_alloc, keeps_refl).
  assert (Ha : nth_error h1 a0 = Some (ArrayObj [])) by apply nth_error_snoc.
  erewrite bind_run by (now apply arrayLength_run).
  subst result. unfold generateRoundRobinMatches.
  destruct (Nat.ltb_spec (List.length teams) 2) as [Hn|Hn].
  - exists (List.length h1), (h1 ++ [ArrayObj []]).
    split; [reflexivity|]. split; [now apply keeps_alloc|].
    split; [unfold h1, a0; rewrite length_app; lia|].
    unfold getMatches, getArrayOf, getArray. now rewrite nth_error_snoc.
  - assert (G1 : GenInv h0 [] h1).
    { split; [exact K1|]. exists []. split; [exact Ha|constructor]. }
    destruct (outerLoopH_run (S (List.length teams)) (S (List.length teams))
                0 [] 0 h1) as (h2 & R2 & K2 & mlocs & Ha2 & F2);
      [lia|lia|exact G1|].
    fold a0 in Ha2. cbn [skipn] in R2, F2.
    set (st := outerLoop rt category twoLegged 0 teams ([], 0)) in *.
    erewrite bind_run by exact R2.
    unfold sortRandomly.
    erewrite bind_run.
    2:{ erewrite bind_run
          by (apply loadArray_run; unfold getArray; cbn [heap genWorld];
              now rewrite Ha2).
        cbv beta. cbn [heap genWorld clockReads randomSorts output].
        rewrite Ha2. reflexivity. }
    set (order := orderAt host s0 (List.length mlocs)).
    exists a0, (replaceAt a0 (ArrayObj (permute order mlocs)) h2).
    assert (Hlen : List.length mlocs = List.length (fst st))
      by (eapply Forall2_length; eassumption).
    split; [|split; [|split]].
    + unfold ret. f_equal. f_equal. f_equal.
      cbn [randomSort rt runtimeOf].
      assert (Hp : List.length (permute (orderAt host s0
                                           (List.length (fst st))) (fst st))
                   = List.length (fst st)).
      { apply Permutation_length, permute_perm, orderAt_perm. }
      rewrite Hp. unfold st. rewrite outerLoop_stamp. cbn [fst snd app].
      rewrite stamp_length. reflexivity.
    + apply keeps_store; [exact K2|]. unfold a0. lia.
    + lia.
    + unfold getMatches, getArrayOf, getArray.
      rewrite replaceAt_eq by (apply nth_error_Some; congruence).
      apply mapO_Forall2. cbn [randomSort rt runtimeOf].
      rewrite <- Hlen. fold order. apply Forall2_permute.
      eapply Forall2_impl; [|exact F2]. intros ml m M.
      now apply (matchAt_push h2 mlocs (permute order mlocs) ml m Ha2).
Qed.
End Gen.

(** ** Programs that ask nothing of the host *)

Lemma hostFree_ret {A : Type} (a : A) : hostFree (ret a).
Proof. intros host host' w. reflexivity. Qed.

Lemma hostFree_throw {A : Type} : hostFree (@throw A).
Proof. intros host host' w. reflexivity. Qed.

Lemma hostFree_bind {A B : Type} (c : Js A) (k : A -> Js B) :
  hostFree c -> (forall a, hostFree (k a)) -> hostFree (bind c k).
Proof.
  intros Hc Hk host host' w. unfold bind. rewrite (Hc host host' w).
  destruct (c host' w) as [[a w']|]; [apply Hk|reflexivity].
Qed.

Lemma hostFree_alloc o : hostFree (alloc o).
Proof. intros host host' w. reflexivity. Qed.

Lemma hostFree_load l : hostFree (load l).
Proof. intros host host' w. reflexivity. Qed.

Lemma hostFree_store l o : hostFree (store l o).
Proof. intros host host' w. reflexivity. Qed.

Lemma hostFree_if {A : Type} (b : bool) (c1 c2 : Js A) :
  hostFree c1 -> hostFree c2 -> hostFree (if b then c1 else c2).
Proof. now destruct b. Qed.

Ltac host_free :=
  repeat first
    [ apply hostFree_ret | apply hostFree_throw | apply hostFree_alloc
    | apply hostFree_load | apply hostFree_store
    | apply hostFree_bind; [|intro]
    | apply hostFree_if
    | match goal with
      | |- hostFree (match ?x with _ => _ end) => destruct x
      end ].

Lemma hostFree_loadTeam l : hostFree (loadTeam l).
Proof. unfold loadTeam. host_free. Qed.

Lemma hostFree_loadSet l : hostFree (loadSet l).
Proof. unfold loadSet. host_free. Qed.

Lemma hostFree_loadMatch l : hostFree (loadMatch l).
Proof. unfold loadMatch. host_free. Qed.

Lemma hostFree_loadStandings l : hostFree (loadStandings l).
Proof. unfold loadStandings. host_free. Qed.

Lemma hostFree_loadEntry l : hostFree (loadEntry l).
Proof. unfold loadEntry. host_free. Qed.

Lemma hostFree_loadArray l : hostFree (loadArray l).
Proof. unfold loadArray. host_free. Qed.

Lemma hostFree_loadMap l : hostFree (loadMap l).
Proof. unfold loadMap. host_free. Qed.

Lemma hostFree_forEach {A : Type} (f : A -> Js unit) l :
  (forall x, hostFree (f x)) -> hostFree (forEach f l).
Proof.
  intro H. induction l as [|x l IH]; cbn [forEach]; host_free; auto.
Qed.

Lemma hostFree_mapM {A B : Type} (f : A -> Js B) l :
  (forall x, hostFree (f x)) -> hostFree (mapM f l).
Proof.
  intro H. induction l as [|x l IH]; cbn [mapM]; host_free; auto.
Qed.

Lemma hostFree_filterM {A : Type} (p : A -> Js bool) l :
  (forall x, hostFree (p x)) -> hostFree (filterM p l).
Proof.
  intro H. induction l as [|x l IH]; cbn [filterM]; host_free; auto.
Qed.

Lemma hostFree_someM {A : Type} (p : A -> Js bool) l :
  (forall x, hostFree (p x)) -> hostFree (someM p l).
Proof.
  intro H. induction l as [|x l IH]; cbn [someM]; host_free; auto.
Qed.

Lemma hostFree_foldM {A B : Type} (f : B -> A -> Js B) l : forall acc,
  (forall b x, hostFree (f b x)) -> hostFree (foldM f l acc).
Proof.
  induction l as [|x l IH]; intros acc H; cbn [foldM]; host_free; auto.
Qed.

Ltac host_free_all :=
  repeat first
    [ apply hostFree_loadTeam | apply hostFree_loadSet
    | apply hostFree_loadMatch | apply hostFree_loadStandings
    | apply hostFree_loadEntry | apply hostFree_loadArray
    | apply hostFree_loadMap
    | apply hostFree_forEach; intro
    | apply hostFree_mapM; intro
    | apply hostFree_filterM; intro
    | apply hostFree_someM; intro
    | apply hostFree_foldM; intros
    | progress host_free ].

Lemma hostFree_assign l f : hostFree (assign l f).
Proof. unfold assign. host_free_all. Qed.

Lemma hostFree_mapSet mp k v : hostFree (mapSet mp k v).
Proof. unfold mapSet. host_free_all. Qed.

Lemma hostFree_chargeMatchH mp ml winnerId loserId ws ls :
  hostFree (chargeMatchH mp ml winnerId loserId ws ls).
Proof.
  unfold chargeMatchH.
  repeat first [ apply hostFree_assign | apply hostFree_mapSet
               | progress host_free_all ].
Qed.

Lemma hostFree_countMatchH mp ml : hostFree (countMatchH mp ml).
Proof.
  unfold countMatchH, mapGet.
  repeat first [ apply hostFree_chargeMatchH | progress host_free_all ].
Qed.

Lemma hostFree_calculateStandingsH teamsL matchesL :
  hostFree (calculateStandingsH teamsL matchesL).
Proof.
  unfold calculateStandingsH, sortStandingsH, isRelevantH, someTeamIs.
  repeat first [ apply hostFree_countMatchH | apply hostFree_mapSet
               | progress host_free_all ].
Qed.

(** ** The two functions on the heap and the functions on values *)

Lemma generateRoundRobinMatchesH_refines host w teamsL catL twoLegged
      teams category :
  getTeams (heap w) teamsL = Some teams ->
  getCategory (heap w) catL = Some category ->
  let result :=
    generateRoundRobinMatches
      (runtimeOf host (clockReads w) (randomSorts w)) teams category
      twoLegged in
  exists r fresh,
    generateRoundRobinMatchesH teamsL catL twoLegged host w
    = Some (r, {| heap := heap w ++ fresh;
                  clockReads := List.length result + clockReads w;
                  randomSorts :=
                    (if List.length teams <? 2 then 0 else 1) + randomSorts w;
                  output := output w |})
    /\ List.length (heap w) <= r
    /\ getMatches (heap w ++ fresh) r = Some result.
Proof.
  destruct w as [h0 c0 s0 o0]. cbn [heap clockReads randomSorts output].
  intros Ht Hc. unfold getTeams, getArrayOf in Ht.
  destruct (getArray h0 teamsL) as [tlocs|] eqn:Etl; [|discriminate].
  destruct (generateH_run host c0 s0 o0 h0 teamsL catL twoLegged tlocs teams
                          category Etl Ht Hc) as (r & h' & R & K & Hr & D).
  exists r, (skipn (List.length h0) h').
  rewrite <- (keeps_app h0 h' K). split; [exact R|]. split; assumption.
Qed.

(** ** The two functions at work *)

Example calculateStandingsH_sample :
  calculateStandingsH 4 11 (hostAt 0 false) sampleWorld
  = Some (19, setHeap
                (sampleHeap ++
                 [ StandingsObject (StandingsObj.mk 0 1 1 0 2 39 33 6);
                   EntryObj "team-a" 12;
                   StandingsObject (StandingsObj.mk 1 1 0 1 1 33 39 (-6));
                   EntryObj "team-b" 14;
                   ArrayObj [13; 15];
                   MapObj [("team-a", 12); ("team-b", 14)];
                   ArrayObj [10];
                   ArrayObj [12; 14] ])%nat sampleWorld)
  /\ returnedTable (calculateStandingsH 4 11) (hostAt 0 false) sampleWorld
     = Some [standingA; standingB].
Proof. split; vm_compute; reflexivity. Qed.

Example generateRoundRobinMatchesH_sample :
  option_map (map Match.id)
    (returnedMatches (generateRoundRobinMatchesH 3 5 false)
                     (hostAt 1700000000000 false) sampleWorld)
  = Some ["match-1700000000000-0-1-1"; "match-1700000000000-0-2-1";
          "match-1700000000000-1-2-1"]
  /\ option_map (fun p => (clockReads (snd p), randomSorts (snd p),
                           output (snd p), firstn 12 (heap (snd p))))
       (generateRoundRobinMatchesH 3 5 false (hostAt 1700000000000 false)
                                   sampleWorld)
     = Some (3, 1, [], sampleHeap)%nat.
Proof. split; vm_compute; reflexivity. Qed.

(** * Purity and determinism *)

(** C8, as stated, fails for [generateRoundRobinMatches]: two calls with
    the same arguments on the same heap return different values when the
    clock stands at another millisecond (the identifiers differ) and when
    the random comparator makes the sort leave another order (here the
    array as built against the array reversed). *)
Lemma generateRoundRobinMatches_not_deterministic :
  option_map (map Match.id)
    (returnedMatches (generateRoundRobinMatchesH 4 5 false)
                     (hostAt 1700000000000 false) sampleWorld)
  = Some ["match-1700000000000-0-1-1"]
  /\ option_map (map Match.id)
       (returnedMatches (generateRoundRobinMatchesH 4 5 false)
                        (hostAt 1700000000001 false) sampleWorld)
     = Some ["match-1700000000001-0-1-1"]
  /\ option_map (map sides)
       (returnedMatches (generateRoundRobinMatchesH 3 5 false)
                        (hostAt 1700000000000 false) sampleWorld)
     = Some [(teamA, teamB); (teamA, teamC); (teamB, teamC)]
  /\ option_map (map sides)
       (returnedMatches (generateRoundRobinMatchesH 3 5 false)
                        (hostAt 1700000000000 true) sampleWorld)
     = Some [(teamB, teamC); (teamA, teamC); (teamA, teamB)]
  /\ returnedMatches (generateRoundRobinMatchesH 4 5 false)
                     (hostAt 1700000000000 false) sampleWorld
     <> returnedMatches (generateRoundRobinMatchesH 4 5 false)
                        (hostAt 1700000000001 false) sampleWorld
  /\ returnedMatches (generateRoundRobinMatchesH 3 5 false)
                     (hostAt 1700000000000 false) sampleWorld
     <> returnedMatches (generateRoundRobinMatchesH 3 5 false)
                        (hostAt 1700000000000 true) sampleWorld.
Proof.
  repeat split; try (vm_compute; reflexivity); vm_compute; discriminate.
Qed.

(** C8, as the code has it.  Both functions leave every object that
    exists when the call starts as it is (teams, matches, their sets, the
    category, and every other object), write nothing to the console, to
    dialogs or to the storage, and return a new array: the state after the
    call is the state before it with new objects added at the end of the
    heap, and what they return is what the functions on values compute.
    [calculateStandings] asks nothing of the host, so two calls with the
    same arguments on the same heap have the same outcome whatever the
    clock and the random source answer.  [generateRoundRobinMatches]
    evaluates [Date.now()] once for each match it returns and sorts once
    with the random comparator (not at all for fewer than two teams); what
    it returns is determined by the arguments, the clock readings and the
    order the sort leaves, and two calls with the same arguments return the
    same fixtures up to the order of the list and the identifiers. *)
Theorem purity_of_the_two_functions :
  (forall (host : Host) (w : World) (teamsL matchesL : loc)
          (teams : list Team.t) (matches : list Match.t),
      getTeams (heap w) teamsL = Some teams ->
      getMatches (heap w) matchesL = Some matches ->
      exists (r : loc) (fresh : list Obj),
        calculateStandingsH teamsL matchesL host w
        = Some (r, {| heap := heap w ++ fresh;
                      clockReads := clockReads w;
                      randomSorts := randomSorts w;
                      output := output w |})
        /\ List.length (heap w) <= r
        /\ getTable (heap w ++ fresh) r
           = Some (calculateStandings teams matches))
  /\ (forall (host host' : Host) (w : World) (teamsL matchesL : loc),
        calculateStandingsH teamsL matchesL host w
        = calculateStandingsH teamsL matchesL host' w)
  /\ (forall (host : Host) (w : World) (teamsL categoryL : loc)
             (twoLegged : bool) (teams : list Team.t) (category : Category.t),
        getTeams (heap w) teamsL = Some teams ->
        getCategory (heap w) categoryL = Some category ->
        let result :=
          generateRoundRobinMatches
            (runtimeOf host (clockReads w) (randomSorts w)) teams category
            twoLegged in
        exists (r : loc) (fresh : list Obj),
          generateRoundRobinMatchesH teamsL categoryL twoLegged host w
          = Some (r, {| heap := heap w ++ fresh;
                        clockReads := List.length result + clockReads w;
                        randomSorts :=
                          (if List.length teams <? 2 then 0 else 1)
                          + randomSorts w;
                        output := output w |})
          /\ List.length (heap w) <= r
          /\ getMatches (heap w ++ fresh) r = Some result)
  /\ (forall (rt1 rt2 : Runtime) (category : Category.t) (twoLegged : bool)
             (teams : list Team.t),
        Permutation
          (map withoutId (generateRoundRobinMatches rt1 teams category twoLegged))
          (map withoutId (generateRoundRobinMatches rt2 teams category twoLegged)))
  /\ (forall (teams : list Team.t) (matches : list Match.t),
        Forall (fun s => In (Standings.team s) teams)
               (calculateStandings teams matches))
  /\ (forall (rt : Runtime) (category : Category.t) (twoLegged : bool)
             (teams : list Team.t),
        Forall (fun m => In (Match.team1 m) teams /\ In (Match.team2 m) teams)
               (generateRoundRobinMatches rt teams category twoLegged)).
Proof.
  split; [|split; [|split; [|split; [|split]]]].
  - intros host w teamsL matchesL teams matches Ht Hm.
    exact (calculateStandingsH_refines host w teamsL matchesL teams matches
             Ht Hm).
  - intros host host' w teamsL matchesL.
    apply hostFree_calculateStandingsH.
  - intros host w teamsL categoryL twoLegged teams category Ht Hc.
    exact (generateRoundRobinMatchesH_refines host w teamsL categoryL
             twoLegged teams category Ht Hc).
  - intros rt1 rt2 category twoLegged teams.
    eapply perm_trans;
      [apply Permutation_map, generate_perm|].
    eapply perm_trans;
      [|apply Permutation_map, Permutation_sym, generate_perm].
    rewrite !stamp_withoutId. apply Permutation_refl.
  - intros teams matches. apply Forall_forall. intros s Hs.
    apply calculateStandings_in in Hs. destruct Hs as [t [He ->]].
    rewrite recordFold_team. simpl.
    destruct (initialMap_in _ _ _ He) as [t' [Ht' [_ E]]].
    injection E as ->. exact Ht'.
  - intros rt category twoLegged teams. apply Forall_forall. intros m Hm.
    apply (Permutation_in _ (generate_perm rt category twoLegged teams)) in Hm.
    apply in_stamp in Hm. destruct Hm as [k [s [Hs ->]]]. simpl.
    now apply outerSlots_teams in Hs.
Qed.

Lemma purity_of_the_two_functions_witness :
  (exists (r : loc) (fresh : list Obj),
      calculateStandingsH 4 11 (hostAt 0 true) sampleWorld
      = Some (r, {| heap := sampleHeap ++ fresh; clockReads := 0;
                    randomSorts := 0; output := [] |})
      /\ 12 <= r
      /\ getTable (sampleHeap ++ fresh) r
         = Some (calculateStandings [teamA; teamB] [matchAB]))
  /\ (exists (r : loc) (fresh : list Obj),
        generateRoundRobinMatchesH 3 5 true (hostAt 1700000000000 true)
                                   sampleWorld
        = Some (r, {| heap := sampleHeap ++ fresh; clockReads := 6;
                      randomSorts := 1; output := [] |})
        /\ 12 <= r
        /\ getMatches (sampleHeap ++ fresh) r
           = Some (generateRoundRobinMatches
                     (runtimeOf (hostAt 1700000000000 true) 0 0)
                     [teamA; teamB; teamC] sampleCategory true)).
Proof.
  destruct purity_of_the_two_functions as (H1 & _ & H3 & _).
  split.
  - apply (H1 (hostAt 0 true) sampleWorld 4 11 [teamA; teamB] [matchAB]);
      reflexivity.
  - apply (H3 (hostAt 1700000000000 true) sampleWorld 3 5 true
              [teamA; teamB; teamC] sampleCategory); reflexivity.
Defined.
